(** * python-poloniex: the retry wrapper, the classification of responses,
    the nonce sequence and the rate gate

    An embedding of [poloniex/__init__.py] and [poloniex/ratelimit.py] as
    state-passing functions, and the properties proved of it.

    Conventions.
    - A Python method that reads or writes [self], sleeps, takes a permit or
      talks to the network is a function [world -> outcome A * world].
    - An [outcome] is a normal return, a raised exception, or a call that
      blocks (a semaphore with no permit, a lock that is held).
    - Python text is [string], a character being a code point below 256;
      [split], [lower] and [int] are Python's on such text, [int] as in
      Python 3.6 and later (it reads digits grouped by underscores), with
      no bound on the number of digits.  [int] is [Z].  A decoded JSON body is [json].  A dictionary with string keys
      is a [gmap string _].
    - The signer, the encoder of the arguments and the HTTP transport are the
      fields of the class [External], together with whether the signer takes
      text at all: [hmac.new] of Python 3 raises [TypeError] for a [str] key
      or message, that of Python 2 signs.  Every property holds for all of
      them, unless it says which it needs.
    - The transport answers or raises; a request that never returns is not
      modelled.
    - [poloniex/custom_threading.py] is not among the sources: the semaphore
      and the timer of the rate gate are modelled from the spec, and say so.
    - [logger] calls are left out: they touch neither the client, the gate
      nor the network.

    Layout: the embedding; the predicates the properties are stated with and
    the concrete clients of the examples; the properties (the rate gate, the
    retry wrapper, the classification of responses, the entry points, a
    client without a lock, nonce errors, the nonce sequence, concurrent
    callers); further properties of the client (what one attempt and a
    whole call do to the trace, the gate and the lock, the requests sent,
    attribute lookup, nonces without gaps, the nonces and the lock under
    concurrent callers, the constructors); the classification and the nonce
    error through a whole call, and a private client where the signer takes
    no text. *)

From Stdlib Require Import ZArith NArith Ascii String Lia.
From stdpp Require Import base strings gmap list.

Set Warnings "-register-all".

(* ===================================================================== *)
(** ** Python string operations used by [_handleResponse] *)
(* ===================================================================== *)

Module PyStr.

(** [needle in hay] for two strings. *)
Fixpoint contains (needle hay : string) : bool :=
  if String.prefix needle hay then true
  else match hay with
       | EmptyString => false
       | String _ hay' => contains needle hay'
       end.

(** [c.lower()] for a code point below 256: the letters A to Z and the
    capital letters of the range 192..222 (all of it but the multiplication
    sign, 215) have their small letter 32 places further. *)
Definition lower_ascii (c : ascii) : ascii :=
  let n := nat_of_ascii c in
  if ((65 <=? n)%nat && (n <=? 90)%nat) ||
     ((192 <=? n)%nat && (n <=? 222)%nat && negb (n =? 215)%nat)
  then ascii_of_nat (n + 32) else c.

(** [s.lower()] *)
Fixpoint lower (s : string) : string :=
  match s with
  | EmptyString => EmptyString
  | String c s' => String (lower_ascii c) (lower s')
  end.

(** [s.split(sep)] for a one-character separator: never the empty list. *)
Fixpoint split_on (sep : ascii) (s : string) : list string :=
  match s with
  | EmptyString => [EmptyString]
  | String c s' =>
      if Ascii.eqb c sep then EmptyString :: split_on sep s'
      else match split_on sep s' with
           | h :: t => String c h :: t
           | [] => [String c EmptyString]
           end
  end.

(** The characters [str.isspace] accepts below 256: tab, line feed,
    vertical tab, form feed, carriage return, the four separators 28..31,
    the space, the next-line control (133) and the no-break space (160). *)
Definition is_space (c : ascii) : bool :=
  let n := nat_of_ascii c in
  ((9 <=? n)%nat && (n <=? 13)%nat) || ((28 <=? n)%nat && (n <=? 32)%nat) ||
  (n =? 133)%nat || (n =? 160)%nat.

(** [s.split()]: the maximal runs of characters that are not white space. *)
Fixpoint split_ws (s : string) : list string :=
  match s with
  | EmptyString => []
  | String c s' =>
      if is_space c then split_ws s'
      else match s' with
           | EmptyString => [String c EmptyString]
           | String c' _ =>
               if is_space c' then String c EmptyString :: split_ws s'
               else match split_ws s' with
                    | h :: t => String c h :: t
                    | [] => [String c EmptyString]
                    end
           end
  end.

Definition digit_of (c : ascii) : option Z :=
  let n := nat_of_ascii c in
  if (48 <=? n)%nat && (n <=? 57)%nat then Some (Z.of_nat (n - 48)) else None.

Fixpoint digits_value (acc : Z) (s : string) : option Z :=
  match s with
  | EmptyString => Some acc
  | String c s' =>
      match digit_of c with
      | Some d => digits_value (10 * acc + d) s'
      | None => None
      end
  end.

Definition is_digit (c : ascii) : bool :=
  match digit_of c with
  | Some _ => true
  | None => false
  end.

(** The digits of a literal without its grouping underscores; an underscore
    must stand between two digits ([after_digit]: the character before was
    one). *)
Fixpoint ungroup (after_digit : bool) (s : string) : option string :=
  match s with
  | EmptyString => Some EmptyString
  | String c s' =>
      if Ascii.eqb c "_" then
        match after_digit, s' with
        | true, String c' _ => if is_digit c' then ungroup false s' else None
        | _, _ => None
        end
      else match ungroup (is_digit c) s' with
           | Some t => Some (String c t)
           | None => None
           end
  end.

Definition unsigned_value (s : string) : option Z :=
  match ungroup false s with
  | Some (String c t) => digits_value 0 (String c t)
  | _ => None
  end.

(** [int(s)] on a token without white space: an optional sign and one or
    more decimal digits, which single underscores may group (the only
    decimal digits below 256 are 0 to 9); [None] stands for the
    [ValueError]. *)
Definition py_int (s : string) : option Z :=
  match s with
  | String "+" s' => unsigned_value s'
  | String "-" s' => Z.opp <$> unsigned_value s'
  | _ => unsigned_value s
  end.

(** [l[-1]] *)
Definition last_item (l : list string) : option string := last l.

(** [item in commands] for a list of strings. *)
Definition in_list (item : string) (l : list string) : bool :=
  existsb (String.eqb item) l.

End PyStr.

(* ===================================================================== *)
(** ** Values, exceptions, outcomes *)
(* ===================================================================== *)

(** What [resp.json()] returns. *)
Inductive json : Type :=
| JNull
| JBool (b : bool)
| JNumber (z : Z)
| JString (s : string)
| JArray (xs : list json)
| JObject (kvs : list (string * json)).

(** The exceptions the modelled code raises or lets through.
    [RequestException] stands for the class and its subclasses (what
    [except RequestException] catches); [text_type] of one is its message.
    [AttributeError_of e] is [AttributeError(e)], the others are built-ins. *)
Inductive exn : Type :=
| RequestException (msg : string)
| PoloniexError (msg : string)
| RetryException (msg : string)
| AttributeError_of (inner : exn)
| AttributeError
| KeyError
| ValueError
| TypeError
| IndexError
| RuntimeError.

Inductive outcome (A : Type) : Type :=
| Return (a : A)
| Raise (e : exn)
| Blocked.
Arguments Return {A} a.
Arguments Raise {A} e.
Arguments Blocked {A}.

(** The result of an expression that cannot block. *)
Inductive result (A : Type) : Type :=
| Ok (a : A)
| Error (e : exn).
Arguments Ok {A} a.
Arguments Error {A} e.

(** A value of a keyword argument of a command. *)
Inductive argval : Type :=
| VStr (s : string)
| VInt (z : Z).

Record headers : Type := {
  Sign : string;
  Key : option string
}.

(** One call of [session.get] or [session.post]: the keyword arguments it
    receives. *)
Record request : Type := {
  r_method : string;
  r_url : string;
  r_timeout : option N;
  r_params : option (gmap string argval);
  r_data : option (gmap string argval);
  r_headers : option headers
}.

Record response : Type := {
  text : string;
  json_body : option json   (* [None]: [resp.json()] raises [ValueError] *)
}.

Inductive reply : Type :=
| Responds (resp : response)
| Fails (e : exn).

(** Effects in the order they happen. *)
Inductive event : Type :=
| EAcquire              (* [semaphore.acquire()] returned *)
| ESleep (d : N)        (* [time.sleep(d)] *)
| ESend (r : request).  (* a request handed to the session *)

(** The collaborators the spec keeps outside the core: the signer, the
    encoder of the argument set and the HTTP transport.  The transport answers
    a request knowing everything that happened before it.
    [hmac_accepts_str] says whether [hmac.new] takes the [str] key and
    message the client hands it: on Python 2, where [str] is the byte
    string, it does; on Python 3 it raises [TypeError] (the key must be
    bytes, and so must the message). *)
Class External : Type := {
  hmac_sha512_hexdigest : string -> string -> string;
  urlencode : gmap string argval -> string;
  transport : list event -> request -> reply;
  hmac_accepts_str : bool
}.

(* ===================================================================== *)
(** ** poloniex/ratelimit.py *)
(* ===================================================================== *)

(** Modelled from the spec: [poloniex/custom_threading.py] is not among the
    sources.  [Semaphore] is the spec's permit pool: [acquire()] takes one
    permit or blocks when none is left, [clear()] (the timer's callback, the
    spec's [onTick]) resets the pool to its capacity. *)
Record Semaphore : Type := {
  value : nat;
  initial_value : nat
}.

(** Modelled from the spec: the Clock.  [RecurrentTimer] is used through the
    interface of [threading.Thread] ([setDaemon], [ident], [start]): [ident]
    is [None] until [start()] has been called, and a second [start()] raises
    [RuntimeError]. *)
Record RecurrentTimer : Type := {
  interval : N;
  ident : option positive;
  daemon : bool
}.

Record RateLimitEnforcer : Type := {
  semaphore : Semaphore;
  timer : RecurrentTimer
}.

Module RateLimit.

(** Modelled from the spec: [Semaphore(callLimit)], a pool that starts full
    ([available] is [capacity]). *)
Definition Semaphore_init (callLimit : nat) : Semaphore :=
  {| value := callLimit; initial_value := callLimit |}.

(** Modelled from the spec: [acquire()] decrements [available] by one, or
    blocks the caller when no permit is available. *)
Definition Semaphore_acquire (s : Semaphore) : outcome unit * Semaphore :=
  match value s with
  | O => (Blocked, s)
  | S n => (Return tt, {| value := n; initial_value := initial_value s |})
  end.

(** Modelled from the spec: [clear()], the spec's [onTick], resets
    [available] to [capacity] whatever its current value. *)
Definition Semaphore_clear (s : Semaphore) : Semaphore :=
  {| value := initial_value s; initial_value := initial_value s |}.

(** Modelled from the spec: [RecurrentTimer(timeFrame, callback)], a Clock
    that has been built and not started. *)
Definition RecurrentTimer_init (timeFrame : N) : RecurrentTimer :=
  {| interval := timeFrame; ident := None; daemon := false |}.

(** Modelled from the spec: [setDaemon] only marks the thread. *)
Definition setDaemon (b : bool) (t : RecurrentTimer) : RecurrentTimer :=
  {| interval := interval t; ident := ident t; daemon := b |}.

(** Modelled from the spec: [start()] launches the Clock, which gives the
    thread its identifier; started twice it raises [RuntimeError] as
    [threading.Thread.start] does. *)
Definition RecurrentTimer_start (t : RecurrentTimer)
  : outcome unit * RecurrentTimer :=
  match ident t with
  | None => (Return tt, {| interval := interval t; ident := Some 1%positive;
                           daemon := daemon t |})
  | Some _ => (Raise RuntimeError, t)
  end.

(** [RateLimitEnforcer.__init__] *)
Definition __init__ (timeFrame : N) (callLimit : nat) : RateLimitEnforcer :=
  {| semaphore := Semaphore_init callLimit;
     timer := setDaemon true (RecurrentTimer_init timeFrame) |}.

(** [RateLimitEnforcer.wait] *)
Definition wait (c : RateLimitEnforcer) : outcome unit * RateLimitEnforcer :=
  let started :=
    match ident (timer c) with
    | Some _ =>                      (* [self.timer.ident is not None] *)
        match RecurrentTimer_start (timer c) with
        | (Return _, t) => (Return tt, {| semaphore := semaphore c; timer := t |})
        | (Raise e, t) => (Raise e, {| semaphore := semaphore c; timer := t |})
        | (Blocked, t) => (Blocked, {| semaphore := semaphore c; timer := t |})
        end
    | None => (Return tt, c)
    end in
  match started with
  | (Return _, c1) =>
      match Semaphore_acquire (semaphore c1) with
      | (o, s) => (o, {| semaphore := s; timer := timer c1 |})
      end
  | other => other
  end.

Definition __enter__ := wait.

(** [RateLimitEnforcer.__exit__]: [pass]. *)
Definition __exit__ (c : RateLimitEnforcer) : RateLimitEnforcer := c.

(** What the timer thread does at each period once it runs. *)
Definition tick (c : RateLimitEnforcer) : RateLimitEnforcer :=
  {| semaphore := Semaphore_clear (semaphore c); timer := timer c |}.

End RateLimit.

(* ===================================================================== *)
(** ** poloniex/__init__.py: the client object and the state of a call *)
(* ===================================================================== *)

Inductive klass : Type :=
| PoloniexAPI
| PoloniexPublicAPI
| PoloniexPrivateAPI
| Poloniex.

Global Instance klass_eq_dec : EqDecision klass.
Proof. solve_decision. Defined.

(** The attributes [__init__] sets once. *)
Record client : Type := {
  cls : klass;                      (* [type(self)] *)
  timeout : option N;
  retries : list N;                 (* the spec's non-negative delays *)
  key : option string;
  secret : option string
}.

(** The [payload] dictionary of [__call__].  Its ['params'] and ['data']
    entries, when set, hold the [args] dictionary itself (the same object),
    so they are kept as marks and read through [args] when the request is
    sent. *)
Record payload_dict : Type := {
  p_timeout : option N;
  p_url : string;
  p_params : bool;
  p_data : bool;
  p_headers : option headers
}.

(** Everything a call reads or writes.  [nonce_lock] is [None] when no lock
    object was given, [Some held] for a [threading.Lock].  [args] and
    [payload] are the two dictionaries [__call__] creates and every attempt
    of [_make_request] receives again. *)
Record world : Type := {
  self : client;
  _nonce : Z;
  nonce_lock : option bool;
  coach : RateLimitEnforcer;
  args : gmap string argval;
  payload : payload_dict;
  trace : list event
}.

Definition set_nonce (n : Z) (w : world) : world :=
  {| self := self w; _nonce := n; nonce_lock := nonce_lock w; coach := coach w;
     args := args w; payload := payload w; trace := trace w |}.

Definition set_nonce_lock (l : option bool) (w : world) : world :=
  {| self := self w; _nonce := _nonce w; nonce_lock := l; coach := coach w;
     args := args w; payload := payload w; trace := trace w |}.

Definition set_coach (c : RateLimitEnforcer) (w : world) : world :=
  {| self := self w; _nonce := _nonce w; nonce_lock := nonce_lock w; coach := c;
     args := args w; payload := payload w; trace := trace w |}.

Definition set_args (a : gmap string argval) (w : world) : world :=
  {| self := self w; _nonce := _nonce w; nonce_lock := nonce_lock w;
     coach := coach w; args := a; payload := payload w; trace := trace w |}.

Definition set_payload (p : payload_dict) (w : world) : world :=
  {| self := self w; _nonce := _nonce w; nonce_lock := nonce_lock w;
     coach := coach w; args := args w; payload := p; trace := trace w |}.

Definition log_event (e : event) (w : world) : world :=
  {| self := self w; _nonce := _nonce w; nonce_lock := nonce_lock w;
     coach := coach w; args := args w; payload := payload w;
     trace := trace w ++ [e] |}.

(** The state and exception monad of the embedding. *)
Definition M (A : Type) : Type := world -> outcome A * world.

Definition ret {A} (a : A) : M A := fun w => (Return a, w).

Definition raise {A} (e : exn) : M A := fun w => (Raise e, w).

Definition bind {A B} (m : M A) (k : A -> M B) : M B := fun w =>
  match m w with
  | (Return a, w') => k a w'
  | (Raise e, w') => (Raise e, w')
  | (Blocked, w') => (Blocked, w')
  end.

Notation "'let*' x ':=' m 'in' k" := (bind m (fun x => k))
  (at level 10, x name, m at level 100, k at level 200).
Notation "'let*' '_' ':=' m 'in' k" := (bind m (fun _ => k))
  (at level 10, m at level 100, k at level 200).

(** [with cm: body]: [__enter__], the body, then [__exit__] whether the body
    returned or raised ([__exit__] returns nothing, so the exception goes on). *)
Definition with_ {A} (enter exit : M unit) (body : M A) : M A := fun w =>
  match enter w with
  | (Return _, w1) =>
      match body w1 with
      | (Blocked, w2) => (Blocked, w2)
      | (o, w2) =>
          match exit w2 with
          | (Return _, w3) => (o, w3)
          | (Raise e, w3) => (Raise e, w3)
          | (Blocked, w3) => (Blocked, w3)
          end
      end
  | (Raise e, w1) => (Raise e, w1)
  | (Blocked, w1) => (Blocked, w1)
  end.

(** [time.sleep(d)] *)
Definition sleep (d : N) : M unit := fun w => (Return tt, log_event (ESleep d) w).

(** [self.coach.__enter__()]: [wait], seen from the client. *)
Definition coach_enter : M unit := fun w =>
  match RateLimit.__enter__ (coach w) with
  | (Return _, c) => (Return tt, log_event EAcquire (set_coach c w))
  | (Raise e, c) => (Raise e, set_coach c w)
  | (Blocked, c) => (Blocked, set_coach c w)
  end.

Definition coach_exit : M unit := fun w =>
  (Return tt, set_coach (RateLimit.__exit__ (coach w)) w).

(** [self.nonce_lock.__enter__()]: [None] has no such method (CPython up to
    3.10 raises [AttributeError], later versions [TypeError]; either way it
    is not a [RequestException]); a held lock makes the caller wait. *)
Definition lock_enter : M unit := fun w =>
  match nonce_lock w with
  | None => (Raise AttributeError, w)
  | Some true => (Blocked, w)
  | Some false => (Return tt, set_nonce_lock (Some true) w)
  end.

Definition lock_exit : M unit := fun w =>
  (Return tt, set_nonce_lock (Some false) w).

Module Commands.

Definition public : list string :=
  [ "returnTicker"; "return24hVolume"; "returnOrderBook"; "returnTradeHistory";
    "returnChartData"; "returnCurrencies"; "returnLoanOrders" ].

Definition private : list string :=
  [ "returnBalances"; "returnCompleteBalances"; "returnDepositAddresses";
    "generateNewAddress"; "returnDepositsWithdrawals"; "returnOpenOrders";
    "returnTradeHistory"; "returnAvailableAccountBalances";
    "returnTradableBalances"; "returnOpenLoanOffers"; "returnOrderTrades";
    "returnActiveLoans"; "returnLendingHistory"; "createLoanOffer";
    "cancelLoanOffer"; "toggleAutoRenew"; "buy"; "sell"; "cancelOrder";
    "moveOrder"; "withdraw"; "returnFeeInfo"; "transferBalance";
    "returnMarginAccountSummary"; "marginBuy"; "marginSell";
    "getMarginPosition"; "closeMarginPosition" ].

End Commands.

(** [cls.COMMANDS] *)
Definition COMMANDS (c : klass) : list string :=
  match c with
  | PoloniexAPI => []
  | PoloniexPublicAPI => Commands.public
  | PoloniexPrivateAPI => Commands.private
  | Poloniex => Commands.public ++ Commands.private
  end.

Definition PoloniexPublicAPI_REQEUST_URL : string := "http://poloniex.com/public".
Definition PoloniexPrivateAPI_REQEUST_URL : string := "http://poloniex.com/tradingApi".
Definition PoloniexPublicAPI_REQUEST_METHOD : string := "get".
Definition PoloniexPrivateAPI_REQEUST_METHOD : string := "post".

Definition defaultRetries : list N := [0; 2; 5; 30]%N.

(** [not x] for an attribute that is [None] or a string. *)
Definition falsy (x : option string) : bool :=
  match x with
  | None => true
  | Some s => String.eqb s ""
  end.

(* --------------------------------------------------------------------- *)
(** *** Constructors *)
(* --------------------------------------------------------------------- *)

Definition empty_payload : payload_dict :=
  {| p_timeout := None; p_url := ""; p_params := false; p_data := false;
     p_headers := None |}.

(** The default gate: [RateLimitEnforcer()] with [timeFrame=1.0] (in
    milliseconds here) and [callLimit=6]. *)
Definition default_coach : RateLimitEnforcer := RateLimit.__init__ 1000 6.

(** [PoloniexPublicAPI(timeout, retries, coach)] *)
Definition PoloniexPublicAPI_init (timeout : option N) (retries : list N)
    (coach : option RateLimitEnforcer) : world :=
  {| self := {| cls := PoloniexPublicAPI; timeout := timeout;
                retries := retries; key := None; secret := None |};
     _nonce := 0;
     nonce_lock := None;
     coach := match coach with Some c => c | None => default_coach end;
     args := ∅; payload := empty_payload; trace := [] |}.

(** [PoloniexPrivateAPI(key, secret, timeout, retries, coach, start_nonce,
    nonce_lock)], also the constructor of [Poloniex]; [now] is
    [timegm(datetime.utcnow().timetuple())]. *)
Definition PoloniexPrivateAPI_init (c : klass) (now : Z)
    (key secret : option string) (timeout : option N) (retries : list N)
    (coach : option RateLimitEnforcer) (start_nonce : option Z)
    (nonce_lock : option bool) : world :=
  {| self := {| cls := c; timeout := timeout; retries := retries;
                key := key; secret := secret |};
     _nonce := match start_nonce with Some n => n | None => now end;
     nonce_lock := nonce_lock;
     coach := match coach with Some c => c | None => default_coach end;
     args := ∅; payload := empty_payload; trace := [] |}.

(* --------------------------------------------------------------------- *)
(** *** Operations on a decoded body *)
(* --------------------------------------------------------------------- *)

(** [k in v] for a string [k]: key membership in a dictionary, element
    membership in a list, substring test in a string; [None] stands for the
    [TypeError] of the other values. *)
Definition json_contains (k : string) (v : json) : option bool :=
  match v with
  | JObject kvs => Some (existsb (fun kv => String.eqb k (fst kv)) kvs)
  | JArray xs =>
      Some (existsb (fun x => match x with
                              | JString s => String.eqb k s
                              | _ => false
                              end) xs)
  | JString s => Some (PyStr.contains k s)
  | JNull | JBool _ | JNumber _ => None
  end.

(** [v[k]] for a string [k]. *)
Definition json_getitem (k : string) (v : json) : result json :=
  match v with
  | JObject kvs =>
      match find (fun kv => String.eqb k (fst kv)) kvs with
      | Some kv => Ok (snd kv)
      | None => Error KeyError
      end
  | _ => Error TypeError
  end.

(** [int(e.split('.')[0].split()[-1])] *)
Definition reported_nonce (e : string) : result Z :=
  match PyStr.last_item (PyStr.split_ws (hd EmptyString (PyStr.split_on "." e))) with
  | None => Error IndexError
  | Some tok =>
      match PyStr.py_int tok with
      | None => Error ValueError
      | Some n => Ok n
      end
  end.

(* --------------------------------------------------------------------- *)
(** *** Methods *)
(* --------------------------------------------------------------------- *)

Section Methods.

Context `{External}.

(** [PoloniexAPI._handleResponse] *)
Definition _handleResponse (resp : response) : M json := fun w =>
  match json_body resp with
  | None => (Raise (PoloniexError "Invalid json response returned"), w)
  | Some out =>
      match json_contains "error" out with
      | None => (Raise TypeError, w)
      | Some false => (Return out, w)
      | Some true =>
          match json_getitem "error" out with
          | Error e => (Raise e, w)
          | Ok err =>
              match json_contains "Nonce must be greater" err with
              | None => (Raise TypeError, w)
              | Some true =>
                  match err with
                  | JString e =>
                      match reported_nonce e with
                      | Ok n =>
                          (Raise (RequestException ("PoloniexError " +:+ e)),
                           set_nonce n w)
                      | Error x => (Raise x, w)
                      end
                  | _ => (Raise AttributeError, w)      (* no [split] *)
                  end
              | Some false =>
                  match err with
                  | JString e =>
                      if PyStr.contains "please try again" (PyStr.lower e)
                      then (Raise (RequestException ("PoloniexError " +:+ e)), w)
                      else (Raise (PoloniexError e), w)
                  | _ => (Raise AttributeError, w)      (* no [lower] *)
                  end
              end
          end
      end
  end.

(** [PoloniexAPI._retry]: [retrying_loop func delays] is the [for] loop over
    what is left of [itertools.chain(self.retries, [None])]; a loop that ends
    without returning makes the function return [None]. *)
Fixpoint retrying_loop {A} (func : M A) (delays : list (option N))
  : M (option A) :=
  match delays with
  | [] => ret None
  | delay :: rest => fun w =>
      match func w with
      | (Return a, w') => (Return (Some a), w')
      | (Raise (RequestException problem), w') =>
          match delay with
          | None => (Raise (RetryException ("retries exhausted " +:+ problem)), w')
          | Some d => (let* _ := sleep d in retrying_loop func rest) w'
          end
      | (Raise e, w') => (Raise e, w')
      | (Blocked, w') => (Blocked, w')
      end
  end.

Definition _retry {A} (func : M A) : M (option A) := fun w =>
  retrying_loop func (map Some (retries (self w)) ++ [None]) w.

(** [payload['params'] = args] *)
Definition bind_params : M unit := fun w =>
  (Return tt,
   set_payload {| p_timeout := p_timeout (payload w); p_url := p_url (payload w);
                  p_params := true; p_data := p_data (payload w);
                  p_headers := p_headers (payload w) |} w).

(** [payload['data'] = args] *)
Definition bind_data : M unit := fun w =>
  (Return tt,
   set_payload {| p_timeout := p_timeout (payload w); p_url := p_url (payload w);
                  p_params := p_params (payload w); p_data := true;
                  p_headers := p_headers (payload w) |} w).

(** [self._nonce += 1] *)
Definition incr_nonce : M unit := fun w =>
  (Return tt, set_nonce (_nonce w + 1) w).

(** [args['nonce'] = self._nonce] *)
Definition attach_nonce : M unit := fun w =>
  (Return tt, set_args (<["nonce" := VInt (_nonce w)]> (args w)) w).

(** [payload['headers'] = {'Sign': hmac.new(self.secret, urlencode(args),
    sha512).hexdigest(), 'Key': self.key}]; [hmac.new] raises [TypeError]
    for a secret that is [None], and for a [str] secret or message where it
    does not take text. *)
Definition attach_headers : M unit := fun w =>
  match secret (self w) with
  | None => (Raise TypeError, w)
  | Some sec =>
      if hmac_accepts_str
      then (Return tt,
            set_payload
              {| p_timeout := p_timeout (payload w); p_url := p_url (payload w);
                 p_params := p_params (payload w); p_data := p_data (payload w);
                 p_headers :=
                   Some {| Sign := hmac_sha512_hexdigest sec (urlencode (args w));
                           Key := key (self w) |} |} w)
      else (Raise TypeError, w)
  end.

(** The keyword arguments [**payload] at the time of the call. *)
Definition request_of (method : string) (w : world) : request :=
  {| r_method := method;
     r_url := p_url (payload w);
     r_timeout := p_timeout (payload w);
     r_params := if p_params (payload w) then Some (args w) else None;
     r_data := if p_data (payload w) then Some (args w) else None;
     r_headers := p_headers (payload w) |}.

(** [getattr(self.session, method)( **payload )].  The transport answers or
    raises; with [timeout=None], the default, the source can also wait for
    an answer without limit, and that case is left out: what is proved of
    an attempt or a call is proved of one whose request comes back. *)
Definition session_request (method : string) : M response := fun w =>
  let r := request_of method w in
  match transport (trace w) r with
  | Responds resp => (Return resp, log_event (ESend r) w)
  | Fails e => (Raise e, log_event (ESend r) w)
  end.

(** [PoloniexPublicAPI._make_request] *)
Definition PoloniexPublicAPI__make_request : M json :=
  let* _ := bind_params in
  with_ coach_enter coach_exit
    (let* resp := session_request PoloniexPublicAPI_REQUEST_METHOD in
     _handleResponse resp).

(** The body of [with self.nonce_lock:] in [PoloniexPrivateAPI._make_request]. *)
Definition locked_section : M json :=
  let* _ := incr_nonce in
  let* _ := attach_nonce in
  let* _ := attach_headers in
  let* resp := session_request PoloniexPrivateAPI_REQEUST_METHOD in
  _handleResponse resp.

(** [PoloniexPrivateAPI._make_request] *)
Definition PoloniexPrivateAPI__make_request : M json :=
  let* _ := bind_data in
  with_ coach_enter coach_exit (with_ lock_enter lock_exit locked_section).

(** [Poloniex._make_request] *)
Definition Poloniex__make_request : M json := fun w =>
  match args w !! "command" with
  | None => (Raise KeyError, w)
  | Some (VStr c) =>
      if PyStr.in_list c Commands.private
      then PoloniexPrivateAPI__make_request w
      else PoloniexPublicAPI__make_request w
  | Some (VInt _) => PoloniexPublicAPI__make_request w
  end.

(** [PoloniexAPI.__getattr__]; the value returned stands for
    [partial(self, item)].  Python calls [__getattr__] only for a name that
    is neither an instance attribute nor a class attribute. *)
Definition PoloniexAPI___getattr__ (item : string) : M string := fun w =>
  if PyStr.in_list item (COMMANDS (cls (self w))) then (Return item, w)
  else (Raise (AttributeError_of (PoloniexError ("Invalid Command!: " +:+ item))), w).

(** [PoloniexPrivateAPI.__getattr__] *)
Definition PoloniexPrivateAPI___getattr__ (item : string) : M string := fun w =>
  if falsy (key (self w)) || falsy (secret (self w))
  then (Raise (AttributeError_of (PoloniexError "An Api Key and Secret needed!")), w)
  else PoloniexAPI___getattr__ item w.

(** [Poloniex.__getattr__] *)
Definition Poloniex___getattr__ (item : string) : M string :=
  if PyStr.in_list item Commands.private
  then PoloniexPrivateAPI___getattr__ item
  else PoloniexAPI___getattr__ item.

(** Method resolution on [type(self)]. *)
Definition __getattr__ (item : string) : M string := fun w =>
  match cls (self w) with
  | PoloniexAPI | PoloniexPublicAPI => PoloniexAPI___getattr__ item w
  | PoloniexPrivateAPI => PoloniexPrivateAPI___getattr__ item w
  | Poloniex => Poloniex___getattr__ item w
  end.

(** [self._make_request]: [PoloniexAPI] itself defines none, so the lookup
    ends in [__getattr__]. *)
Definition _make_request : M json := fun w =>
  match cls (self w) with
  | PoloniexAPI =>
      (Raise (AttributeError_of
                (PoloniexError ("Invalid Command!: " +:+ "_make_request"))), w)
  | PoloniexPublicAPI => PoloniexPublicAPI__make_request w
  | PoloniexPrivateAPI => PoloniexPrivateAPI__make_request w
  | Poloniex => Poloniex__make_request w
  end.

(** The dictionary literal of [__call__] that is indexed with [True]. *)
Definition url_table (c : klass) : gmap bool string :=
  <[bool_decide (c = PoloniexPrivateAPI) := PoloniexPrivateAPI_REQEUST_URL]>
    (<[bool_decide (c = PoloniexPublicAPI) := PoloniexPublicAPI_REQEUST_URL]> ∅).

(** [PoloniexAPI.__call__(command, **args)]; [kwargs] is the dictionary the
    body receives as [args]. *)
Definition __call__ (command : string) (kwargs : gmap string argval)
  : M (option json) := fun w =>
  let w1 := set_args (<["command" := VStr command]> kwargs) w in
  match url_table (cls (self w1)) !! true with
  | None => (Raise KeyError, w1)
  | Some url =>
      _retry _make_request
        (set_payload {| p_timeout := timeout (self w1); p_url := url;
                        p_params := false; p_data := false;
                        p_headers := None |} w1)
  end.

(** [client.item( **kwargs )]: attribute lookup, then the call. *)
Definition invoke (item : string) (kwargs : gmap string argval)
  : M (option json) :=
  let* command := __getattr__ item in __call__ command kwargs.

End Methods.

(* ===================================================================== *)
(** ** Histories of the rate gate *)
(* ===================================================================== *)

Module Gate.

(** What can happen to a [RateLimitEnforcer]: a caller enters [wait], a caller
    leaves the [with] block, the timer's callback fires. *)
Inductive op : Type :=
| Wait
| Exit
| Tick.

(** One step of a history; the counter is the number of [wait] calls that
    returned since the callback last fired. *)
Definition step (st : RateLimitEnforcer * nat) (o : op) : RateLimitEnforcer * nat :=
  match o with
  | Wait =>
      match RateLimit.wait (fst st) with
      | (Return _, c) => (c, S (snd st))
      | (_, c) => (c, snd st)
      end
  | Exit => (RateLimit.__exit__ (fst st), snd st)
  | Tick => (RateLimit.tick (fst st), O)
  end.

Definition run (ops : list op) (st : RateLimitEnforcer * nat)
  : RateLimitEnforcer * nat :=
  fold_left step ops st.

End Gate.

(* ===================================================================== *)
(** ** Histories of one private client *)
(* ===================================================================== *)

(** The nonce a request carries in its body, if any. *)
Definition data_nonce (r : request) : option Z :=
  match r_data r with
  | Some a => match a !! "nonce" with
              | Some (VInt n) => Some n
              | _ => None
              end
  | None => None
  end.

(** The nonces the requests of a trace carry, in the order they were sent. *)
Fixpoint sent_nonces (tr : list event) : list Z :=
  match tr with
  | [] => []
  | ESend r :: tr' =>
      match data_nonce r with
      | Some n => n :: sent_nonces tr'
      | None => sent_nonces tr'
      end
  | _ :: tr' => sent_nonces tr'
  end.

Fixpoint increasing (l : list Z) : bool :=
  match l with
  | [] => true
  | x :: l' =>
      match l' with
      | [] => true
      | y :: _ => (x <? y)%Z && increasing l'
      end
  end.

Module History.

Section WithExternal.

Context `{External}.

(** A call of the client, or a firing of the gate's callback between calls. *)
Inductive op : Type :=
| Call (command : string) (kwargs : gmap string argval)
| Tick.

Definition step (w : world) (o : op) : world :=
  match o with
  | Call command kwargs => snd (__call__ command kwargs w)
  | Tick => set_coach (RateLimit.tick (coach w)) w
  end.

Definition run (ops : list op) (w : world) : world := fold_left step ops w.

(** A server that reports, in a nonce error, a minimum that is not below the
    nonce of the request it answers. *)
Definition conforming : Prop :=
  forall tr r resp kvs e m a n,
    transport tr r = Responds resp ->
    json_body resp = Some (JObject kvs) ->
    json_getitem "error" (JObject kvs) = Ok (JString e) ->
    PyStr.contains "Nonce must be greater" e = true ->
    reported_nonce e = Ok m ->
    r_data r = Some a ->
    a !! "nonce" = Some (VInt n) ->
    (n <= m)%Z.

End WithExternal.

End History.

(* ===================================================================== *)
(** ** Concurrent callers of one private client *)
(* ===================================================================== *)

Module Threads.

(** Where a caller stands in [retrying] around
    [PoloniexPrivateAPI._make_request]. *)
Inductive pc : Type :=
| AtAttempt                              (* next item of the [for] loop *)
| AtLock                                 (* permit taken, before [with self.nonce_lock] *)
| AtIncr                                 (* before [self._nonce += 1] *)
| AtAttach                               (* before [args['nonce'] = self._nonce] *)
| AtSign                                 (* before [payload['headers'] = ...] *)
| AtSend                                 (* before the call of [session.post] *)
| AtHandle (resp : response)             (* before [_handleResponse(resp)] *)
| AtUnlock (o : outcome json)            (* leaving [with self.nonce_lock] *)
| AtExit (o : outcome json)              (* leaving [with self.coach] *)
| AtExcept (o : outcome json)            (* back in [retrying] *)
| Done (o : outcome (option json)).

(** A caller: its place, its own [args] and [payload] dictionaries and what
    is left of [itertools.chain(self.retries, [None])]. *)
Record thread : Type := {
  t_pc : pc;
  t_args : gmap string argval;
  t_payload : payload_dict;
  t_delays : list (option N)
}.

(** What an observer of the nonce sequence sees. *)
Inductive label : Type :=
| Consumed (tid : nat) (n : Z)      (* the increment gave [n] to caller [tid] *)
| Sent (tid : nat) (n : option Z).  (* caller [tid] sent a request carrying [n] *)

Record state : Type := {
  shared : world;
  threads : list thread;
  observed : list label
}.

Section WithExternal.

Context `{External}.

Definition load (th : thread) (w : world) : world :=
  set_payload (t_payload th) (set_args (t_args th) w).

Definition at_ (p : pc) (th : thread) (w : world) : thread :=
  {| t_pc := p; t_args := args w; t_payload := payload w;
     t_delays := t_delays th |}.

(** One atomic step of caller [tid]; [None] when the caller cannot move (it
    waits for a permit or for the lock, or it is done). *)
Definition thread_step (tid : nat) (th : thread) (w0 : world)
  : option (thread * world * list label) :=
  let w := load th w0 in
  match t_pc th with
  | AtAttempt =>
      match t_delays th with
      | [] => Some (at_ (Done (Return None)) th w, w, [])
      | _ :: _ =>
          match (let* _ := bind_data in coach_enter) w with
          | (Return _, w') => Some (at_ AtLock th w', w', [])
          | (Raise e, w') => Some (at_ (AtExcept (Raise e)) th w', w', [])
          | (Blocked, _) => None
          end
      end
  | AtLock =>
      match lock_enter w with
      | (Return _, w') => Some (at_ AtIncr th w', w', [])
      | (Raise e, w') => Some (at_ (AtExit (Raise e)) th w', w', [])
      | (Blocked, _) => None
      end
  | AtIncr =>
      match incr_nonce w with
      | (_, w') => Some (at_ AtAttach th w', w', [Consumed tid (_nonce w')])
      end
  | AtAttach =>
      match attach_nonce w with
      | (_, w') => Some (at_ AtSign th w', w', [])
      end
  | AtSign =>
      match attach_headers w with
      | (Return _, w') => Some (at_ AtSend th w', w', [])
      | (Raise e, w') => Some (at_ (AtUnlock (Raise e)) th w', w', [])
      | (Blocked, _) => None
      end
  | AtSend =>
      let sent := [Sent tid (data_nonce (request_of PoloniexPrivateAPI_REQEUST_METHOD w))] in
      match session_request PoloniexPrivateAPI_REQEUST_METHOD w with
      | (Return resp, w') => Some (at_ (AtHandle resp) th w', w', sent)
      | (Raise e, w') => Some (at_ (AtUnlock (Raise e)) th w', w', sent)
      | (Blocked, _) => None
      end
  | AtHandle resp =>
      match _handleResponse resp w with
      | (o, w') => Some (at_ (AtUnlock o) th w', w', [])
      end
  | AtUnlock o =>
      match lock_exit w with
      | (_, w') => Some (at_ (AtExit o) th w', w', [])
      end
  | AtExit o =>
      match coach_exit w with
      | (_, w') => Some (at_ (AtExcept o) th w', w', [])
      end
  | AtExcept o =>
      match o, t_delays th with
      | Return a, _ => Some (at_ (Done (Return (Some a))) th w, w, [])
      | Raise (RequestException problem), None :: _ =>
          Some (at_ (Done (Raise (RetryException ("retries exhausted " +:+ problem)))) th w,
                w, [])
      | Raise (RequestException problem), Some d :: rest =>
          match sleep d w with
          | (_, w') =>
              Some ({| t_pc := AtAttempt; t_args := args w'; t_payload := payload w';
                       t_delays := rest |}, w', [])
          end
      | Raise e, _ => Some (at_ (Done (Raise e)) th w, w, [])
      | Blocked, _ => Some (at_ (Done Blocked) th w, w, [])
      end
  | Done _ => None
  end.

(** The scheduler picks a caller, or the gate's callback fires. *)
Inductive choice : Type :=
| Run (tid : nat)
| Refill.

Definition step (s : state) (c : choice) : state :=
  match c with
  | Refill =>
      {| shared := set_coach (RateLimit.tick (coach (shared s))) (shared s);
         threads := threads s; observed := observed s |}
  | Run tid =>
      match threads s !! tid with
      | None => s
      | Some th =>
          match thread_step tid th (shared s) with
          | None => s
          | Some (th', w', ls) =>
              {| shared := w'; threads := <[tid := th']> (threads s);
                 observed := observed s ++ ls |}
          end
      end
  end.

Definition run (schedule : list choice) (s : state) : state :=
  fold_left step schedule s.

(** A caller that has just entered [__call__] on a client of class
    [PoloniexPrivateAPI]. *)
Definition fresh_thread (w : world) (command : string)
    (kwargs : gmap string argval) : thread :=
  {| t_pc := AtAttempt;
     t_args := <["command" := VStr command]> kwargs;
     t_payload := {| p_timeout := timeout (self w);
                     p_url := PoloniexPrivateAPI_REQEUST_URL;
                     p_params := false; p_data := false; p_headers := None |};
     t_delays := map Some (retries (self w)) ++ [None] |}.

Definition start (w : world) (calls : list (string * gmap string argval)) : state :=
  {| shared := w;
     threads := map (fun c => fresh_thread w (fst c) (snd c)) calls;
     observed := [] |}.

End WithExternal.

(** Every sent nonce is the one consumed just before it, by the same caller:
    the observation is a sequence of blocks, each a consumption alone or a
    consumption followed by its send. *)
Fixpoint in_consumption_order (l : list label) : bool :=
  match l with
  | [] => true
  | Consumed t n :: l' =>
      match l' with
      | Sent t' (Some n') :: l'' =>
          Nat.eqb t t' && Z.eqb n n' && in_consumption_order l''
      | _ => in_consumption_order l'
      end
  | Sent _ _ :: _ => false
  end.

(** The places between the increment and the end of the [with] block. *)
Definition in_locked_section (p : pc) : bool :=
  match p with
  | AtIncr | AtAttach | AtSign | AtSend | AtHandle _ | AtUnlock _ => true
  | _ => false
  end.

End Threads.

(* ===================================================================== *)
(** ** Predicates the properties are stated with *)
(* ===================================================================== *)

(** What every history keeps true of a gate built with [callLimit] permits:
    the timer has no identifier, the capacity is [callLimit], and the permits
    left plus the permits granted since the last callback make [callLimit]. *)
Definition gate_inv (callLimit : nat) (st : RateLimitEnforcer * nat) : Prop :=
  ident (timer (fst st)) = None /\
  initial_value (semaphore (fst st)) = callLimit /\
  value (semaphore (fst st)) + snd st = callLimit.

(** [transient_failures func ds w w']: started in [w], [func] fails with a
    [RequestException] once for every delay of [ds], in order, and each
    failure is followed by a sleep of that delay; [w'] is the world after the
    last of these sleeps.  The derivation runs [func] [length ds] times. *)
Inductive transient_failures {A} (func : M A) : list N -> world -> world -> Prop :=
| tf_nil w : transient_failures func [] w w
| tf_cons d ds w problem w1 w2 :
    func w = (Raise (RequestException problem), w1) ->
    transient_failures func ds (log_event (ESleep d) w1) w2 ->
    transient_failures func (d :: ds) w w2.

Definition transient {A} (o : outcome A) : Prop :=
  exists problem, o = Raise (RequestException problem).

(** The outcome of an attempt as [retrying] hands it to its caller. *)
Definition handed_on {A} (o : outcome A) : outcome (option A) :=
  match o with
  | Return a => Return (Some a)
  | Raise e => Raise e
  | Blocked => Blocked
  end.

(* ===================================================================== *)
(** ** Concrete collaborators and clients for the examples *)
(* ===================================================================== *)

Module Examples.

Definition is_send (e : event) : bool :=
  match e with
  | ESend _ => true
  | _ => false
  end.

(** A transport that answers the [k]-th request with the [k]-th reply of a
    script, and with [otherwise] once the script is used up. *)
Definition scripted (script : list reply) (otherwise : reply)
  : list event -> request -> reply :=
  fun tr _ => nth (length (List.filter is_send tr)) script otherwise.

Definition body (j : json) : response := {| text := ""; json_body := Some j |}.

Definition error_body (e : string) : response :=
  body (JObject [("error", JString e)]).

Definition not_json : response := {| text := "<html>"; json_body := None |}.

Definition balances : json := JObject [("BTC", JString "0.59098578")].

Definition nonce_error : string :=
  "Nonce must be greater than 12345. You provided 12300.".

Definition toy_sign (k m : string) : string := k +:+ "/" +:+ m.

Definition toy_urlencode (a : gmap string argval) : string :=
  match a !! "command" with
  | Some (VStr c) => "command=" +:+ c
  | _ => ""
  end.

(** An interpreter whose [hmac.new] signs text (Python 2), with a scripted
    transport. *)
Definition env (script : list reply) (otherwise : reply) : External :=
  {| hmac_sha512_hexdigest := toy_sign;
     urlencode := toy_urlencode;
     transport := scripted script otherwise;
     hmac_accepts_str := true |}.

(** The same with the [hmac.new] of Python 3, which takes no text. *)
Definition python3 (script : list reply) (otherwise : reply) : External :=
  {| hmac_sha512_hexdigest := toy_sign;
     urlencode := toy_urlencode;
     transport := scripted script otherwise;
     hmac_accepts_str := false |}.

Definition down : reply := Fails (RequestException "connection refused").

(** A server whose nonce counter stands at 12345: it rejects a request whose
    nonce is not above it and serves the others. *)
Definition strict_server : list event -> request -> reply :=
  fun _ r =>
    match data_nonce r with
    | Some n =>
        if (n <=? 12345)%Z then Responds (error_body nonce_error)
        else Responds (body balances)
    | None => Responds (body balances)
    end.

Definition strict_env : External :=
  {| hmac_sha512_hexdigest := toy_sign;
     urlencode := toy_urlencode;
     transport := strict_server;
     hmac_accepts_str := true |}.

(** A private client with both credentials, a lock, the default gate and
    delays, whose next nonce is 12300. *)
Definition private_client : world :=
  PoloniexPrivateAPI_init PoloniexPrivateAPI 1478131200
    (Some "key") (Some "secret") None defaultRetries None (Some 12299%Z)
    (Some false).

Definition public_client : world :=
  PoloniexPublicAPI_init None defaultRetries None.

(** The combined client, built like the private one. *)
Definition combined_client : world :=
  PoloniexPrivateAPI_init Poloniex 1478131200
    (Some "key") (Some "secret") None defaultRetries None (Some 12299%Z)
    (Some false).

(** A private client built without [nonce_lock]. *)
Definition unlocked_client : world :=
  PoloniexPrivateAPI_init PoloniexPrivateAPI 1478131200
    (Some "key") (Some "secret") None defaultRetries None None None.

(** A private client built without credentials. *)
Definition anonymous_client : world :=
  PoloniexPrivateAPI_init PoloniexPrivateAPI 1478131200
    None None None defaultRetries None None (Some false).

(** A private client whose stored nonce is well above the minimum of
    [nonce_error]. *)
Definition late_client : world :=
  PoloniexPrivateAPI_init PoloniexPrivateAPI 1478131200
    (Some "key") (Some "secret") None defaultRetries None (Some 20000%Z)
    (Some false).

Definition sleeps (tr : list event) : list N :=
  flat_map (fun e => match e with ESleep d => [d] | _ => [] end) tr.

(** An operation that fails transiently until [k] sleeps have been taken. *)
Definition flaky (k : nat) : M json := fun w =>
  if (length (sleeps (trace w)) <? k)%nat
  then (Raise (RequestException "timed out"), w)
  else (Return balances, w).

End Examples.

(** How a request ends on a client without a lock object, seen from the
    world [w] it started in: the gate is asked first; when it grants a
    permit, the request raises [AttributeError] right after (entering
    [with None]), having logged the permit and nothing else; when the gate
    raises or blocks, so does the request.  In every case the stored nonce
    and the client are as before and there is still no lock. *)
Definition fails_at_lock_entry {A} (w : world) (r : outcome A * world) : Prop :=
  nonce_lock (snd r) = None /\
  _nonce (snd r) = _nonce w /\
  self (snd r) = self w /\
  match RateLimit.wait (coach w) with
  | (Return _, c) =>
      fst r = Raise AttributeError /\ coach (snd r) = c /\
      trace (snd r) = trace w ++ [EAcquire]
  | (Raise e, c) =>
      fst r = Raise e /\ coach (snd r) = c /\ trace (snd r) = trace w
  | (Blocked, c) =>
      fst r = Blocked /\ coach (snd r) = c /\ trace (snd r) = trace w
  end.



(** A string without a full stop. *)
Fixpoint dotless (s : string) : bool :=
  match s with
  | EmptyString => true
  | String c s' => negb (Ascii.eqb c ".") && dotless s'
  end.

(** A computation that only appends to the trace. *)
Definition extends {A} (m : M A) : Prop :=
  forall w o w', m w = (o, w') -> exists more, trace w' = trace w ++ more.

(** The request [PoloniexPrivateAPI._make_request] sends for the argument
    dictionary [a] when the secret is [sec]. *)
Definition signed_request `{External} (c : client) (sec : string)
    (a : gmap string argval) : request :=
  {| r_method := PoloniexPrivateAPI_REQEUST_METHOD;
     r_url := PoloniexPrivateAPI_REQEUST_URL;
     r_timeout := timeout c;
     r_params := None;
     r_data := Some a;
     r_headers := Some {| Sign := hmac_sha512_hexdigest sec (urlencode a);
                          Key := key c |} |}.

(** The world in which [__call__] starts the retried [_make_request]: the
    call's [args] and [payload] dictionaries are in place. *)
Definition call_frame (url command : string) (kwargs : gmap string argval)
    (w : world) : world :=
  set_payload {| p_timeout := timeout (self w); p_url := url;
                 p_params := false; p_data := false; p_headers := None |}
    (set_args (<["command" := VStr command]> kwargs) w).

(** The world inside [with self.nonce_lock:] just before the request is
    sent, for an attempt started in [w] that found [S p] permits and a free
    lock: one permit taken, the lock held, the nonce incremented and
    attached, the headers signed. *)
Definition before_send `{External} (w : world) (sec : string) (p : nat) : world :=
  let a := <["nonce" := VInt (_nonce w + 1)]> (args w) in
  {| self := self w;
     _nonce := _nonce w + 1;
     nonce_lock := Some true;
     coach := {| semaphore := {| value := p;
                                 initial_value := initial_value (semaphore (coach w)) |};
                 timer := timer (coach w) |};
     args := a;
     payload := {| p_timeout := p_timeout (payload w);
                   p_url := p_url (payload w);
                   p_params := p_params (payload w);
                   p_data := true;
                   p_headers :=
                     Some {| Sign := hmac_sha512_hexdigest sec (urlencode a);
                             Key := key (self w) |} |};
     trace := trace w ++ [EAcquire] |}.

(** What histories of a private client keep true when the server conforms:
    the nonces sent so far increase strictly and none exceeds the stored
    nonce. *)
Definition nonce_inv (w : world) : Prop :=
  cls (self w) = PoloniexPrivateAPI /\
  increasing (sent_nonces (trace w)) = true /\
  Forall (fun n => (n <= _nonce w)%Z) (sent_nonces (trace w)).

(* ===================================================================== *)
(** ** The invariant of concurrent callers *)
(* ===================================================================== *)

(** The places where the caller's [payload['data']] is already bound. *)
Definition data_bound (p : Threads.pc) : bool :=
  match p with
  | Threads.AtLock | Threads.AtIncr | Threads.AtAttach | Threads.AtSign
  | Threads.AtSend => true
  | _ => false
  end.

(** A caller between its increment and its send: the last thing observed is
    its own consumption, of the nonce that is stored (before it is attached)
    or attached (from then on). *)
Definition pending (tid : nat) (th : Threads.thread) (s : Threads.state) : Prop :=
  match Threads.t_pc th with
  | Threads.AtAttach =>
      exists l, Threads.observed s =
                  l ++ [Threads.Consumed tid (_nonce (Threads.shared s))]
  | Threads.AtSign | Threads.AtSend =>
      exists l n, Threads.observed s = l ++ [Threads.Consumed tid n] /\
                  Threads.t_args th !! "nonce" = Some (VInt n)
  | _ => True
  end.

Record threads_inv (s : Threads.state) : Prop := {
  inv_order : Threads.in_consumption_order (Threads.observed s) = true;
  inv_data : forall tid th,
    Threads.threads s !! tid = Some th ->
    data_bound (Threads.t_pc th) = true -> p_data (Threads.t_payload th) = true;
  inv_lock : forall tid th,
    Threads.threads s !! tid = Some th ->
    Threads.in_locked_section (Threads.t_pc th) = true ->
    nonce_lock (Threads.shared s) = Some true;
  inv_excl : forall t1 th1 t2 th2,
    Threads.threads s !! t1 = Some th1 ->
    Threads.threads s !! t2 = Some th2 ->
    Threads.in_locked_section (Threads.t_pc th1) = true ->
    Threads.in_locked_section (Threads.t_pc th2) = true ->
    t1 = t2;
  inv_pending : forall tid th,
    Threads.threads s !! tid = Some th -> pending tid th s
}.

(** [n] steps of caller [tid] running alone. *)
Fixpoint alone `{External} (n tid : nat) (th : Threads.thread) (w : world)
  : Threads.thread * world :=
  match n with
  | O => (th, w)
  | S n' =>
      match Threads.thread_step tid th w with
      | Some (th', w', _) => alone n' tid th' w'
      | None => (th, w)
      end
  end.

(* ===================================================================== *)
(** ** Symbolic execution of the step functions *)
(* ===================================================================== *)

(** Unfolds one step of a caller in [Hstep] and splits on everything the
    step depends on. *)
Ltac step_cases Hstep :=
  unfold Threads.thread_step, Threads.at_, Threads.load, incr_nonce,
    attach_nonce, attach_headers, session_request, lock_enter, lock_exit,
    coach_exit, coach_enter, bind, bind_data, sleep, RateLimit.__exit__ in Hstep;
  cbn -[_handleResponse transport request_of RateLimit.__enter__] in Hstep;
  repeat match type of Hstep with
         | context [match ?x with _ => _ end] =>
             lazymatch x with
             | context [match _ with _ => _ end] => fail
             | _ => idtac
             end;
             let E := fresh "E" in
             destruct x eqn:E;
             cbn -[_handleResponse transport request_of RateLimit.__enter__] in Hstep
         end;
  try discriminate Hstep;
  injection Hstep as <- <- <-.

(** Rewrites worlds into record form, so that the same world reached along
    two paths reads the same. *)
Ltac flatten_worlds :=
  unfold request_of, set_payload, set_args, set_nonce, set_nonce_lock, set_coach,
    log_event in *;
  cbn -[_handleResponse transport RateLimit.__enter__] in *.

Ltac alone_run :=
  repeat (progress (
    cbn -[_handleResponse transport RateLimit.__enter__];
    unfold Threads.thread_step, Threads.load, Threads.at_, coach_enter,
      coach_exit, lock_enter, lock_exit, bind, bind_data, incr_nonce,
      attach_nonce, attach_headers, session_request, sleep, RateLimit.__exit__;
    flatten_worlds;
    repeat match goal with
           | Heq : ?x = _ |- context [match ?x with _ => _ end] => rewrite Heq
           end)).

(* ===================================================================== *)
(** ** What a call adds to the trace *)
(* ===================================================================== *)

(** The permits taken, the requests sent and the delays slept in a trace. *)
Definition permits_taken (tr : list event) : nat :=
  length (flat_map (fun e => match e with EAcquire => [tt] | _ => [] end) tr).

Definition requests_sent (tr : list event) : list request :=
  flat_map (fun e => match e with ESend r => [r] | _ => [] end) tr.

Definition delays_slept (tr : list event) : list N :=
  flat_map (fun e => match e with ESleep d => [d] | _ => [] end) tr.

(** What one attempt can add to the trace: nothing (the gate raised or
    blocked), a permit (the attempt ended before the request), or a permit
    and the request. *)
Inductive attempt_events : list event -> Prop :=
| ae_none : attempt_events []
| ae_permit : attempt_events [EAcquire]
| ae_request r : attempt_events [EAcquire; ESend r].

(** What one attempt of [_make_request] does, whatever the class: the client
    and the lock are as before; the trace grows by the events of one attempt;
    the timer is as before and the permits left went down by the permits
    taken; and a result is the decoded body, free of an error
    member, of the response to the request just sent. *)
Definition attempt_effect `{External} (w : world) (o : outcome json) (w' : world)
  : Prop :=
  self w' = self w /\ nonce_lock w' = nonce_lock w /\
  exists more,
    trace w' = trace w ++ more /\ attempt_events more /\
    timer (coach w') = timer (coach w) /\
    initial_value (semaphore (coach w')) = initial_value (semaphore (coach w)) /\
    value (semaphore (coach w)) =
      value (semaphore (coach w')) + permits_taken more /\
    (forall out, o = Return out ->
     exists r resp,
       more = [EAcquire; ESend r] /\
       transport (trace w ++ [EAcquire]) r = Responds resp /\
       json_body resp = Some out /\
       json_contains "error" out = Some false).

(** The request [PoloniexPublicAPI._make_request] sends for the argument
    dictionary [a]. *)
Definition unsigned_request (c : client) (a : gmap string argval) : request :=
  {| r_method := PoloniexPublicAPI_REQUEST_METHOD;
     r_url := PoloniexPublicAPI_REQEUST_URL;
     r_timeout := timeout c;
     r_params := Some a;
     r_data := None;
     r_headers := None |}.

(** What [retrying] around [_make_request] does over the delays [delays]:
    the client and the lock are as before; the delays slept are the first
    delays of the sequence, in order; no request was sent without a permit,
    and at most one permit was taken per attempt; the timer is as before and
    the permits left went down by the permits taken; a result is the decoded
    body, free of an error member, of the response to the last request. *)
Definition call_effect `{External} (delays : list (option N)) (w : world)
    (o : outcome (option json)) (w' : world) : Prop :=
  self w' = self w /\ nonce_lock w' = nonce_lock w /\
  exists more,
    trace w' = trace w ++ more /\
    map Some (delays_slept more) `prefix_of` delays /\
    length (requests_sent more) <= permits_taken more /\
    permits_taken more <= S (length (delays_slept more)) /\
    timer (coach w') = timer (coach w) /\
    initial_value (semaphore (coach w')) = initial_value (semaphore (coach w)) /\
    value (semaphore (coach w)) =
      value (semaphore (coach w')) + permits_taken more /\
    (forall x, o = Return x ->
     (x = None /\ ~ In None delays) \/
     exists out tr r resp,
       x = Some out /\
       trace w' = tr ++ [ESend r] /\
       transport tr r = Responds resp /\
       json_body resp = Some out /\
       json_contains "error" out = Some false).

(** The number of times the gate's callback fires in a history. *)
Definition refills (ops : list History.op) : nat :=
  length (flat_map (fun o => match o with
                             | History.Tick => [tt]
                             | History.Call _ _ => []
                             end) ops).

(** What stays true of the dictionaries of a call on a
    [PoloniexPublicAPI] client [c] made with the arguments [a]. *)
Definition public_frame (c : client) (a : gmap string argval) (w : world) : Prop :=
  self w = c /\ args w = a /\
  p_url (payload w) = PoloniexPublicAPI_REQEUST_URL /\
  p_timeout (payload w) = timeout c /\
  p_data (payload w) = false /\
  p_headers (payload w) = None.

(** What stays true of the dictionaries of a call on a
    [PoloniexPrivateAPI] client [c] made with the arguments [a]: from the
    first attempt on, [args] also holds a nonce. *)
Definition private_frame (c : client) (a : gmap string argval) (w : world) : Prop :=
  self w = c /\
  (args w = a \/ exists n, args w = <["nonce" := VInt n]> a) /\
  p_url (payload w) = PoloniexPrivateAPI_REQEUST_URL /\
  p_timeout (payload w) = timeout c /\
  p_params (payload w) = false.

(** A request of the private path of client [c] for the arguments [a]: the
    body is [a] with some nonce, and the signature is over that body. *)
Definition signed_over_its_body `{External} (c : client) (a : gmap string argval)
    (r : request) : Prop :=
  exists sec n,
    secret c = Some sec /\
    r = signed_request c sec (<["nonce" := VInt n]> a).

(** The three ways a lookup is refused: the name is not a command of the
    client's class; the client is a [PoloniexPrivateAPI] that lacks a key or
    a secret; the client is a [Poloniex] that lacks one and the name is a
    private command. *)
Definition lookup_denied (w : world) (item : string) : Prop :=
  PyStr.in_list item (COMMANDS (cls (self w))) = false \/
  (cls (self w) = PoloniexPrivateAPI /\
   falsy (key (self w)) || falsy (secret (self w)) = true) \/
  (cls (self w) = Poloniex /\ PyStr.in_list item Commands.private = true /\
   falsy (key (self w)) || falsy (secret (self w)) = true).

(** A server that never answers with a nonce error. *)
Definition never_nonce_error `{External} : Prop :=
  forall tr r resp kvs e,
    transport tr r = Responds resp ->
    json_body resp = Some (JObject kvs) ->
    json_getitem "error" (JObject kvs) = Ok (JString e) ->
    PyStr.contains "Nonce must be greater" e = false.

(** The [k] integers that follow [n]. *)
Fixpoint consecutive (n : Z) (k : nat) : list Z :=
  match k with
  | O => []
  | S k' => (n + 1)%Z :: consecutive (n + 1) k'
  end.

(** From [w] to [w'] some nonces were consumed, each was sent, and they are
    the integers that follow the nonce stored in [w]. *)
Definition consumed_and_sent (w w' : world) : Prop :=
  self w' = self w /\
  exists k,
    _nonce w' = (_nonce w + Z.of_nat k)%Z /\
    sent_nonces (trace w') = sent_nonces (trace w) ++ consecutive (_nonce w) k.

(* ===================================================================== *)
(** ** The nonces handed out to concurrent callers *)
(* ===================================================================== *)

(** The nonces the increment handed out, in the order it did. *)
Definition consumed_nonces (l : list Threads.label) : list Z :=
  flat_map (fun x => match x with
                     | Threads.Consumed _ n => [n]
                     | Threads.Sent _ _ => []
                     end) l.

(** A caller that has attached its nonce and not yet handled the response
    works with the nonce that is stored: its [args] hold it, and the
    response it is about to handle answers a request that carried it. *)
Definition holds_stored_nonce `{External} (th : Threads.thread) (w : world) : Prop :=
  match Threads.t_pc th with
  | Threads.AtSign | Threads.AtSend =>
      Threads.t_args th !! "nonce" = Some (VInt (_nonce w))
  | Threads.AtHandle resp =>
      exists tr r, transport tr r = Responds resp /\
                   data_nonce r = Some (_nonce w)
  | _ => True
  end.

(** The nonces of the requests the callers sent, in the order they were
    sent. *)
Definition nonces_sent_by_callers (l : list Threads.label) : list Z :=
  flat_map (fun x => match x with
                     | Threads.Sent _ (Some n) => [n]
                     | _ => []
                     end) l.

(** The places between the increment and the send. *)
Definition before_its_send (p : Threads.pc) : bool :=
  match p with
  | Threads.AtAttach | Threads.AtSign | Threads.AtSend => true
  | _ => false
  end.

Record issue_inv `{External} (s : Threads.state) : Prop := {
  ii_increasing :
    increasing (consumed_nonces (Threads.observed s)) = true;
  ii_bound :
    Forall (fun n => (n <= _nonce (Threads.shared s))%Z)
           (consumed_nonces (Threads.observed s));
  ii_sent_increasing :
    increasing (nonces_sent_by_callers (Threads.observed s)) = true;
  ii_sent_bound :
    Forall (fun n => (n <= _nonce (Threads.shared s))%Z)
           (nonces_sent_by_callers (Threads.observed s));
  ii_held : forall tid th,
    Threads.threads s !! tid = Some th ->
    holds_stored_nonce th (Threads.shared s);
  ii_unsent : forall tid th,
    Threads.threads s !! tid = Some th ->
    before_its_send (Threads.t_pc th) = true ->
    Forall (fun n => (n < _nonce (Threads.shared s))%Z)
           (nonces_sent_by_callers (Threads.observed s))
}.

(** The lock is free, or it is taken and some caller stands in the locked
    section. *)
Definition lock_accounted (s : Threads.state) : Prop :=
  nonce_lock (Threads.shared s) = Some false \/
  (nonce_lock (Threads.shared s) = Some true /\
   exists tid th,
     Threads.threads s !! tid = Some th /\
     Threads.in_locked_section (Threads.t_pc th) = true).

(* ===================================================================== *)
(** ** What an attempt hands to [retrying] *)
(* ===================================================================== *)

(** An attempt that went from [w] to [w'] with the outcome [o] hands the
    answer to its request on unchanged: when it sent a request, its outcome
    is what [_handleResponse] makes of the response to that request, or the
    exception the transport raised for it; and a [RequestException] comes
    from nowhere else, so an attempt that raised one did send a request. *)
Definition answered `{External} (w : world) (o : outcome json) (w' : world)
  : Prop :=
  (forall r,
     trace w' = trace w ++ [EAcquire; ESend r] ->
     match transport (trace w ++ [EAcquire]) r with
     | Responds resp => o = fst (_handleResponse resp w)
     | Fails e => o = Raise e
     end) /\
  (forall msg,
     o = Raise (RequestException msg) ->
     exists r, trace w' = trace w ++ [EAcquire; ESend r]).

(** [cls.REQEUST_URL] as [__call__] selects it, for the two classes for
    which it selects one. *)
Definition REQEUST_URL (c : klass) : string :=
  match c with
  | PoloniexPublicAPI => PoloniexPublicAPI_REQEUST_URL
  | _ => PoloniexPrivateAPI_REQEUST_URL
  end.


(* ===================================================================== *)
(** * Properties *)
(* ===================================================================== *)

(* --------------------------------------------------------------------- *)
(** ** The rate gate *)
(* --------------------------------------------------------------------- *)


Lemma gate_inv_init timeFrame callLimit :
  gate_inv callLimit (RateLimit.__init__ timeFrame callLimit, 0).
Proof. unfold gate_inv; simpl; repeat split; first [reflexivity | lia]. Qed.

Lemma wait_unstarted c :
  ident (timer c) = None ->
  RateLimit.wait c =
    match value (semaphore c) with
    | O => (Blocked, c)
    | S n => (Return tt,
              {| semaphore := {| value := n;
                                 initial_value := initial_value (semaphore c) |};
                 timer := timer c |})
    end.
Proof.
  intros Hid. unfold RateLimit.wait. rewrite Hid.
  unfold RateLimit.Semaphore_acquire.
  destruct c as [[v i] t]; simpl. destruct v; reflexivity.
Qed.

Lemma gate_inv_step callLimit st o :
  gate_inv callLimit st -> gate_inv callLimit (Gate.step st o).
Proof.
  destruct st as [c n]. intros (Hid & Hcap & Hsum); simpl in *.
  destruct o; simpl.
  - rewrite (wait_unstarted c Hid).
    destruct (value (semaphore c)) eqn:Hv; unfold gate_inv; simpl;
      repeat split; auto; lia.
  - unfold gate_inv, RateLimit.__exit__; simpl; auto.
  - unfold gate_inv, RateLimit.tick, RateLimit.Semaphore_clear; simpl.
    repeat split; auto; lia.
Qed.

Lemma gate_inv_run callLimit ops : forall st,
  gate_inv callLimit st -> gate_inv callLimit (Gate.run ops st).
Proof.
  induction ops as [|o ops IH]; intros st Hst; simpl; [exact Hst|].
  apply IH, gate_inv_step, Hst.
Qed.

(** C7 (as the code behaves): a freshly built gate has a timer that is not
    running, and no history of [wait] calls, [with]-block exits and callback
    firings ever starts it: [wait] calls [start()] only when [ident] is
    already set, which it never is.  In particular the first [wait] leaves
    the timer unstarted. *)
Theorem wait_never_starts_timer (timeFrame : N) (callLimit : nat) (ops : list Gate.op) :
  ident (timer (RateLimit.__init__ timeFrame callLimit)) = None /\
  ident (timer (fst (Gate.step (RateLimit.__init__ timeFrame callLimit, 0) Gate.Wait))) = None /\
  ident (timer (fst (Gate.run ops (RateLimit.__init__ timeFrame callLimit, 0)))) = None.
Proof.
  split; [reflexivity|]. split.
  - exact (proj1 (gate_inv_step callLimit _ Gate.Wait
                    (gate_inv_init timeFrame callLimit))).
  - exact (proj1 (gate_inv_run callLimit ops _ (gate_inv_init timeFrame callLimit))).
Qed.

(** C8: leaving the [with] block gives nothing back ([__exit__] is the
    identity); only the callback raises the permit count.  In every history
    from construction, the number of [wait] calls that returned since the
    callback last fired (since construction when it never fired) is at most
    [callLimit], the permits left are what remains of [callLimit], and once
    [callLimit] calls have returned the next [wait] blocks and changes
    nothing; the callback makes all [callLimit] permits available again. *)
Theorem at_most_callLimit_per_window
    (timeFrame : N) (callLimit : nat) (ops : list Gate.op) :
  let st := Gate.run ops (RateLimit.__init__ timeFrame callLimit, 0) in
  (forall c, RateLimit.__exit__ c = c) /\
  snd st <= callLimit /\
  value (semaphore (fst st)) = callLimit - snd st /\
  (snd st = callLimit -> RateLimit.wait (fst st) = (Blocked, fst st)) /\
  Gate.step st Gate.Exit = st /\
  value (semaphore (fst (Gate.step st Gate.Tick))) = callLimit.
Proof.
  intros st.
  destruct (gate_inv_run callLimit ops _ (gate_inv_init timeFrame callLimit))
    as (Hid & Hcap & Hsum).
  fold st in Hid, Hcap, Hsum.
  split; [reflexivity|].
  split; [lia|]. split; [lia|]. split; [|split].
  - intros Hfull. rewrite (wait_unstarted _ Hid).
    replace (value (semaphore (fst st))) with 0 by lia. reflexivity.
  - destruct st; reflexivity.
  - simpl. exact Hcap.
Qed.

(* --------------------------------------------------------------------- *)
(** ** The retry wrapper *)
(* --------------------------------------------------------------------- *)


Lemma transient_dec {A} (o : outcome A) : transient o \/ ~ transient o.
Proof.
  destruct o as [a|e|]; try (right; intros [p Hp]; discriminate).
  destruct e; try (right; intros [p Hp]; discriminate).
  left; eexists; reflexivity.
Qed.

Lemma retrying_loop_last {A} (func : M A) w o w2 :
  func w = (o, w2) ->
  (~ transient o /\ retrying_loop func [None] w = (handed_on o, w2)) \/
  (exists problem, o = Raise (RequestException problem) /\
     retrying_loop func [None] w =
       (Raise (RetryException ("retries exhausted " +:+ problem)), w2)).
Proof.
  intros Hf. simpl. rewrite Hf.
  destruct o as [a|e|].
  - left. split; [intros [p Hp]; discriminate | reflexivity].
  - destruct e; try (left; split; [intros [p Hp]; discriminate | reflexivity]).
    right. eexists; split; reflexivity.
  - left. split; [intros [p Hp]; discriminate | reflexivity].
Qed.

Lemma retrying_loop_stops {A} (func : M A) d rest w o w2 :
  func w = (o, w2) -> ~ transient o ->
  retrying_loop func (Some d :: rest) w = (handed_on o, w2).
Proof.
  intros Hf Hnt. simpl. rewrite Hf.
  destruct o as [a|e|]; try reflexivity.
  destruct e; try reflexivity.
  exfalso. apply Hnt. eexists; reflexivity.
Qed.

Lemma retrying_loop_again {A} (func : M A) d rest w problem w1 :
  func w = (Raise (RequestException problem), w1) ->
  retrying_loop func (Some d :: rest) w =
    retrying_loop func rest (log_event (ESleep d) w1).
Proof. intros Hf. simpl. rewrite Hf. reflexivity. Qed.

Lemma retrying_loop_contract {A} (func : M A) (ds : list N) : forall w,
  exists used rest w1 o w2,
    ds = used ++ rest /\
    transient_failures func used w w1 /\
    func w1 = (o, w2) /\
    ((~ transient o /\
      retrying_loop func (map Some ds ++ [None]) w = (handed_on o, w2)) \/
     (exists problem,
        o = Raise (RequestException problem) /\ rest = [] /\
        retrying_loop func (map Some ds ++ [None]) w =
          (Raise (RetryException ("retries exhausted " +:+ problem)), w2))).
Proof.
  induction ds as [|d ds IH]; intros w.
  - destruct (func w) as [o w2] eqn:Hf.
    exists [], [], w, o, w2. split; [reflexivity|].
    split; [constructor|]. split; [exact Hf|].
    destruct (retrying_loop_last func w o w2 Hf) as [Hl|(p & Hp & Hl)].
    + left; exact Hl.
    + right; exists p; auto.
  - destruct (func w) as [o w2] eqn:Hf.
    destruct (transient_dec o) as [(p & ->)|Hnt].
    + destruct (IH (log_event (ESleep d) w2))
        as (used & rest & w1 & o' & w3 & Hds & Htf & Hf' & Hres).
      exists (d :: used), rest, w1, o', w3.
      split; [simpl; congruence|].
      split; [econstructor; eassumption|].
      split; [exact Hf'|].
      change (map Some (d :: ds) ++ [None]) with (Some d :: (map Some ds ++ [None])).
      rewrite (retrying_loop_again func d _ w p w2 Hf). exact Hres.
    + exists [], (d :: ds), w, o, w2.
      split; [reflexivity|]. split; [constructor|]. split; [exact Hf|].
      left. split; [exact Hnt|].
      exact (retrying_loop_stops func d _ w o w2 Hf Hnt).
Qed.

(** C1: for every operation [func] and every world [w], with
    [N = length retries]: [retrying] runs [func] once for each delay of a
    prefix [used] of the delay sequence, every one of these runs failing
    with a [RequestException] and being followed by a sleep of that delay,
    in order, and then once more; so it attempts [length used + 1 <= N + 1]
    times.  When that last attempt is not a transient failure (a result, any
    other exception) its outcome is handed on at once and the world is the
    one the attempt left: nothing runs after it.  When it fails transiently
    too, every delay has been used (all [N + 1] attempts failed) and
    [RetryException] is raised with the text of that last failure. *)
Theorem retry_contract {A} (func : M A) (w : world) :
  exists used rest w1 o w2,
    retries (self w) = used ++ rest /\
    transient_failures func used w w1 /\
    func w1 = (o, w2) /\
    length used + 1 <= length (retries (self w)) + 1 /\
    ((~ transient o /\ _retry func w = (handed_on o, w2)) \/
     (exists problem,
        o = Raise (RequestException problem) /\
        used = retries (self w) /\
        _retry func w =
          (Raise (RetryException ("retries exhausted " +:+ problem)), w2))).
Proof.
  destruct (retrying_loop_contract func (retries (self w)) w)
    as (used & rest & w1 & o & w2 & Hds & Htf & Hf & Hres).
  exists used, rest, w1, o, w2.
  split; [exact Hds|]. split; [exact Htf|]. split; [exact Hf|].
  split.
  - rewrite Hds, length_app. lia.
  - unfold _retry. destruct Hres as [Hl|(p & Hp & Hrest & Hl)].
    + left; exact Hl.
    + right. exists p. split; [exact Hp|]. split; [|exact Hl].
      rewrite Hds, Hrest, app_nil_r. reflexivity.
Qed.

(** The spec's example: with delays [0, 2, 5], an operation that fails
    transiently three times and then succeeds returns its result after the
    sleeps 0, 2, 5; one that fails four times raises [RetryException]. *)
Example retry_three_then_success :
  let w := PoloniexPublicAPI_init None [0; 2; 5]%N None in
  fst (_retry (Examples.flaky 3) w) = Return (Some Examples.balances) /\
  trace (snd (_retry (Examples.flaky 3) w)) = [ESleep 0; ESleep 2; ESleep 5] /\
  fst (_retry (Examples.flaky 4) w) =
    Raise (RetryException "retries exhausted timed out") /\
  trace (snd (_retry (Examples.flaky 4) w)) = [ESleep 0; ESleep 2; ESleep 5].
Proof. vm_compute. repeat split. Qed.

(* --------------------------------------------------------------------- *)
(** ** The classification of responses *)
(* --------------------------------------------------------------------- *)

Lemma getitem_contains k kvs v :
  json_getitem k (JObject kvs) = Ok v ->
  json_contains k (JObject kvs) = Some true.
Proof.
  simpl. intros Hget. f_equal.
  induction kvs as [|kv kvs IH]; simpl in *; [discriminate|].
  destruct (String.eqb k (fst kv)); [reflexivity|].
  apply IH. exact Hget.
Qed.

Lemma handle_undecodable resp w :
  json_body resp = None ->
  _handleResponse resp w =
    (Raise (PoloniexError "Invalid json response returned"), w).
Proof. intros Hb. unfold _handleResponse. rewrite Hb. reflexivity. Qed.

Lemma handle_plain_error resp w kvs e :
  json_body resp = Some (JObject kvs) ->
  json_getitem "error" (JObject kvs) = Ok (JString e) ->
  PyStr.contains "Nonce must be greater" e = false ->
  _handleResponse resp w =
    (Raise (if PyStr.contains "please try again" (PyStr.lower e)
            then RequestException ("PoloniexError " +:+ e)
            else PoloniexError e), w).
Proof.
  intros Hb Hget Hno. unfold _handleResponse.
  rewrite Hb, (getitem_contains _ _ _ Hget), Hget.
  cbn [json_contains]. rewrite Hno.
  destruct (PyStr.contains "please try again" (PyStr.lower e)); reflexivity.
Qed.

Lemma retry_propagates {A} (func : M A) w e w' :
  func w = (Raise e, w') ->
  (forall problem, e <> RequestException problem) ->
  _retry func w = (Raise e, w').
Proof.
  intros Hf Hne. unfold _retry.
  destruct (retries (self w)) as [|d ds]; simpl; rewrite Hf;
    destruct e; try reflexivity; exfalso; eapply Hne; reflexivity.
Qed.

Lemma retry_retries {A} (func : M A) w problem w' d ds :
  func w = (Raise (RequestException problem), w') ->
  retries (self w) = d :: ds ->
  _retry func w =
    retrying_loop func (map Some ds ++ [None]) (log_event (ESleep d) w').
Proof.
  intros Hf Hr. unfold _retry. rewrite Hr.
  exact (retrying_loop_again func d _ w problem w' Hf).
Qed.

(* --------------------------------------------------------------------- *)
(** ** The entry points: [__getattr__] and [__call__] *)
(* --------------------------------------------------------------------- *)

Lemma url_table_True c :
  url_table c !! true =
    match c with
    | PoloniexPublicAPI => Some PoloniexPublicAPI_REQEUST_URL
    | PoloniexPrivateAPI => Some PoloniexPrivateAPI_REQEUST_URL
    | PoloniexAPI | Poloniex => None
    end.
Proof. destruct c; reflexivity. Qed.

Section EntryPoints.

Context `{External}.

Lemma call_unfold command kwargs w :
  __call__ command kwargs w =
    match cls (self w) with
    | PoloniexPublicAPI =>
        _retry _make_request
          (call_frame PoloniexPublicAPI_REQEUST_URL command kwargs w)
    | PoloniexPrivateAPI =>
        _retry _make_request
          (call_frame PoloniexPrivateAPI_REQEUST_URL command kwargs w)
    | PoloniexAPI | Poloniex =>
        (Raise KeyError, set_args (<["command" := VStr command]> kwargs) w)
    end.
Proof.
  unfold __call__. cbn [self set_args]. rewrite url_table_True.
  destruct (cls (self w)); reflexivity.
Qed.

(** C5: on a client whose class is [Poloniex], [__call__] raises [KeyError]
    at the URL lookup for every command and every argument dictionary.  The
    only change is the [args] dictionary of the call: the trace (no permit,
    no sleep, no request), the gate, the nonce and the lock are as before.
    The lookup succeeds exactly for the classes [PoloniexPublicAPI] and
    [PoloniexPrivateAPI]; a client of any other class gets the same
    [KeyError]. *)
Theorem combined_client_call_raises_KeyError
    (w : world) (command : string) (kwargs : gmap string argval) :
  cls (self w) = Poloniex ->
  let w1 := set_args (<["command" := VStr command]> kwargs) w in
  __call__ command kwargs w = (Raise KeyError, w1) /\
  trace w1 = trace w /\ coach w1 = coach w /\
  _nonce w1 = _nonce w /\ nonce_lock w1 = nonce_lock w /\
  (forall c, is_Some (url_table c !! true) <->
             c = PoloniexPublicAPI \/ c = PoloniexPrivateAPI) /\
  (forall w' command' kwargs',
     cls (self w') <> PoloniexPublicAPI ->
     cls (self w') <> PoloniexPrivateAPI ->
     __call__ command' kwargs' w' =
       (Raise KeyError, set_args (<["command" := VStr command']> kwargs') w')).
Proof.
  intros Hcls w1.
  split; [rewrite call_unfold, Hcls; reflexivity|].
  repeat (split; [reflexivity|]).
  split.
  - intros c. rewrite url_table_True. destruct c; split;
      first [ intros [u Hu]; discriminate
            | intros [Hc|Hc]; discriminate
            | intros _; eauto ].
  - intros w' command' kwargs' Hpub Hpriv. rewrite call_unfold.
    destruct (cls (self w')); try reflexivity; contradiction.
Qed.

Lemma in_list_app item l1 l2 :
  PyStr.in_list item (l1 ++ l2) = PyStr.in_list item l1 || PyStr.in_list item l2.
Proof. unfold PyStr.in_list. apply existsb_app. Qed.

(** C6: looking up a name that is not in the COMMANDS of the client's class,
    looking up any name on a [PoloniexPrivateAPI] client whose key or secret
    is missing or empty, and looking up a private command on a [Poloniex]
    client in that state, all raise [AttributeError(PoloniexError(...))] in
    [__getattr__]; so does the whole invocation, and the world is unchanged:
    no permit taken, nothing sent, no nonce used. *)
Theorem lookup_fails_fast
    (w : world) (item : string) (kwargs : gmap string argval) :
  PyStr.in_list item (COMMANDS (cls (self w))) = false \/
  (cls (self w) = PoloniexPrivateAPI /\
   falsy (key (self w)) || falsy (secret (self w)) = true) \/
  (cls (self w) = Poloniex /\ PyStr.in_list item Commands.private = true /\
   falsy (key (self w)) || falsy (secret (self w)) = true) ->
  exists msg,
    __getattr__ item w = (Raise (AttributeError_of (PoloniexError msg)), w) /\
    invoke item kwargs w = (Raise (AttributeError_of (PoloniexError msg)), w).
Proof.
  intros Hcase.
  assert (Hget : exists msg,
    __getattr__ item w = (Raise (AttributeError_of (PoloniexError msg)), w)).
  { unfold __getattr__, Poloniex___getattr__, PoloniexPrivateAPI___getattr__,
      PoloniexAPI___getattr__.
    destruct Hcase as [Hno|[[Hc Hcred]|(Hc & Hin & Hcred)]].
    - destruct (cls (self w)) eqn:Hc; cbn [COMMANDS] in Hno |- *.
      + cbn. eauto.
      + rewrite Hno. eauto.
      + destruct (falsy (key (self w)) || falsy (secret (self w))); [eauto|].
        rewrite Hno. eauto.
      + rewrite in_list_app in Hno. apply orb_false_iff in Hno as [Hpub Hpriv].
        rewrite Hpriv, Hc. cbn [COMMANDS].
        rewrite in_list_app, Hpub, Hpriv. eauto.
    - rewrite Hc, Hcred. eauto.
    - rewrite Hc, Hin. cbn beta. rewrite Hcred. eauto. }
  destruct Hget as [msg Hget]. exists msg. split; [exact Hget|].
  unfold invoke, bind. rewrite Hget. reflexivity.
Qed.

End EntryPoints.

Lemma combined_client_call_raises_KeyError_witness :
  cls (self Examples.combined_client) = Poloniex /\
  @__call__ (Examples.env [] Examples.down) "returnTicker" ∅
    Examples.combined_client =
    (Raise KeyError,
     set_args (<["command" := VStr "returnTicker"]> ∅) Examples.combined_client).
Proof.
  split; [reflexivity|].
  exact (proj1 (@combined_client_call_raises_KeyError
                  (Examples.env [] Examples.down)
                  Examples.combined_client "returnTicker" ∅ eq_refl)).
Defined.

Lemma lookup_fails_fast_witness :
  (exists msg,
     __getattr__ "returnEverything" Examples.public_client =
       (Raise (AttributeError_of (PoloniexError msg)), Examples.public_client) /\
     @invoke (Examples.env [] Examples.down) "returnEverything" ∅ Examples.public_client =
       (Raise (AttributeError_of (PoloniexError msg)), Examples.public_client)) /\
  (exists msg,
     __getattr__ "returnBalances" Examples.anonymous_client =
       (Raise (AttributeError_of (PoloniexError msg)), Examples.anonymous_client) /\
     @invoke (Examples.env [] Examples.down) "returnBalances" ∅ Examples.anonymous_client =
       (Raise (AttributeError_of (PoloniexError msg)), Examples.anonymous_client)).
Proof.
  split.
  - apply (@lookup_fails_fast (Examples.env [] Examples.down) Examples.public_client "returnEverything" ∅).
    left. reflexivity.
  - apply (@lookup_fails_fast (Examples.env [] Examples.down) Examples.anonymous_client "returnBalances" ∅).
    right; left. split; reflexivity.
Defined.


(* --------------------------------------------------------------------- *)
(** ** A private client built without a lock *)
(* --------------------------------------------------------------------- *)

Lemma wait_raises_only_RuntimeError c e c' :
  RateLimit.wait c = (Raise e, c') -> e = RuntimeError.
Proof.
  unfold RateLimit.wait, RateLimit.RecurrentTimer_start, RateLimit.Semaphore_acquire.
  destruct (ident (timer c)); [intros [= <- _]; reflexivity|].
  destruct (value (semaphore c)); discriminate.
Qed.

Lemma retry_blocked {A} (func : M A) w w' :
  func w = (Blocked, w') -> _retry func w = (Blocked, w').
Proof.
  intros Hf. unfold _retry.
  destruct (retries (self w)); simpl; rewrite Hf; reflexivity.
Qed.

Section MissingLock.

Context `{External}.

Lemma private_request_without_lock w :
  nonce_lock w = None ->
  fails_at_lock_entry w (PoloniexPrivateAPI__make_request w).
Proof.
  intros Hlock.
  unfold fails_at_lock_entry, PoloniexPrivateAPI__make_request, bind, bind_data,
    with_, coach_enter, coach_exit, lock_enter, RateLimit.__enter__,
    RateLimit.__exit__.
  cbn [coach set_payload set_coach log_event nonce_lock].
  destruct (RateLimit.wait (coach w)) as [[[]|e|] c]; cbn; rewrite ?Hlock; cbn;
    repeat split; auto.
Qed.

Lemma fails_at_lock_entry_frame {A} w w0 (r : outcome A * world) :
  coach w0 = coach w -> trace w0 = trace w -> _nonce w0 = _nonce w ->
  self w0 = self w ->
  fails_at_lock_entry w0 r -> fails_at_lock_entry w r.
Proof.
  unfold fails_at_lock_entry. intros -> -> -> ->. auto.
Qed.

Lemma retry_without_lock (func : M json) w :
  fails_at_lock_entry w (func w) -> fails_at_lock_entry w (_retry func w).
Proof.
  destruct (func w) as [o w'] eqn:Hf.
  unfold fails_at_lock_entry. cbn [fst snd].
  intros (Hl & Hn & Hs & Hcase).
  destruct (RateLimit.wait (coach w)) as [[[]|e|] c] eqn:Hw;
    destruct Hcase as (-> & Hc & Ht).
  - rewrite (retry_propagates func w _ w' Hf) by (intros p; discriminate).
    cbn. repeat split; auto.
  - rewrite (wait_raises_only_RuntimeError _ _ _ Hw) in *.
    rewrite (retry_propagates func w _ w' Hf) by (intros p; discriminate).
    cbn. repeat split; auto.
  - rewrite (retry_blocked func w w' Hf). cbn. repeat split; auto.
Qed.

(** C10: the constructor stores [None] when no [nonce_lock] is given, for
    both classes.  On a client whose lock is [None], a request on the
    private path first asks the gate.  Once a permit is granted it raises
    [AttributeError] on entering [with self.nonce_lock]: the permit is
    taken, the stored nonce is unchanged, nothing is sent, and the lock is
    still [None] afterwards.  When the gate grants none, the request ends or
    waits at the gate, with no permit taken: with the timer not started and
    no permit left it waits there.  [__call__] on a [PoloniexPrivateAPI]
    client ends the same way, after this single attempt and without a
    sleep, and calls and callback firings never create a lock.  On a
    [Poloniex] client only [_make_request] itself, for a private command,
    gets as far: every call raises [KeyError] before the gate is asked. *)
Theorem missing_nonce_lock_fails_private_requests
    (w : world) (command : string) (kwargs : gmap string argval) :
  nonce_lock w = None ->
  (forall c now key secret timeout retries coach start_nonce,
     nonce_lock (PoloniexPrivateAPI_init c now key secret timeout retries
                   coach start_nonce None) = None) /\
  fails_at_lock_entry w (PoloniexPrivateAPI__make_request w) /\
  (ident (timer (coach w)) = None ->
   match value (semaphore (coach w)) with
   | S p =>
       exists w',
         PoloniexPrivateAPI__make_request w = (Raise AttributeError, w') /\
         trace w' = trace w ++ [EAcquire] /\
         value (semaphore (coach w')) = p /\
         _nonce w' = _nonce w /\ nonce_lock w' = None
   | O =>
       exists w',
         PoloniexPrivateAPI__make_request w = (Blocked, w') /\
         trace w' = trace w /\
         value (semaphore (coach w')) = 0 /\
         _nonce w' = _nonce w /\ nonce_lock w' = None
   end) /\
  (cls (self w) = PoloniexPrivateAPI ->
   fails_at_lock_entry w (__call__ command kwargs w) /\
   forall ops, nonce_lock (History.run ops w) = None) /\
  (cls (self w) = Poloniex ->
   (let w1 := set_args (<["command" := VStr command]> kwargs) w in
    __call__ command kwargs w = (Raise KeyError, w1) /\
    trace w1 = trace w /\ coach w1 = coach w) /\
   forall c, args w !! "command" = Some (VStr c) ->
             PyStr.in_list c Commands.private = true ->
             fails_at_lock_entry w (_make_request w)).
Proof.
  intros Hlock.
  split; [reflexivity|].
  split; [exact (private_request_without_lock w Hlock)|].
  split.
  { intros Hid. pose proof (private_request_without_lock w Hlock) as Hf.
    unfold fails_at_lock_entry in Hf. rewrite (wait_unstarted _ Hid) in Hf.
    destruct (PoloniexPrivateAPI__make_request w) as [o w'].
    cbn [fst snd] in Hf. destruct Hf as (Hl & Hn & _ & Hcase).
    destruct (value (semaphore (coach w))) as [|p] eqn:Hv;
      destruct Hcase as (-> & Hc & Ht); exists w'; rewrite Hc;
      repeat split; auto. }
  assert (Hcall : forall w0 command0 kwargs0,
            nonce_lock w0 = None -> cls (self w0) = PoloniexPrivateAPI ->
            fails_at_lock_entry w0 (__call__ command0 kwargs0 w0)).
  { intros w0 command0 kwargs0 Hl0 Hc0. rewrite call_unfold, Hc0.
    match goal with |- fails_at_lock_entry _ (_retry _ ?w1) =>
      apply (fails_at_lock_entry_frame w0 w1); try reflexivity;
      apply retry_without_lock; unfold _make_request;
      replace (cls (self w1)) with PoloniexPrivateAPI by (symmetry; exact Hc0);
      apply private_request_without_lock; exact Hl0
    end. }
  split.
  - intros Hcls. split; [exact (Hcall w command kwargs Hlock Hcls)|].
    intros ops. revert w Hlock Hcls.
    induction ops as [|o ops IH]; intros w Hlock Hcls; [exact Hlock|].
    cbn [History.run fold_left]. apply IH.
    + destruct o as [command0 kwargs0|]; cbn [History.step]; [|exact Hlock].
      exact (proj1 (Hcall w command0 kwargs0 Hlock Hcls)).
    + destruct o as [command0 kwargs0|]; cbn [History.step]; [|exact Hcls].
      destruct (Hcall w command0 kwargs0 Hlock Hcls) as (_ & _ & Hs & _).
      rewrite Hs. exact Hcls.
  - intros Hcls. split.
    { cbv zeta. rewrite call_unfold, Hcls. repeat split. }
    intros c Hcmd Hin. unfold _make_request, Poloniex__make_request.
    rewrite Hcls, Hcmd, Hin. exact (private_request_without_lock w Hlock).
Qed.

End MissingLock.

Lemma missing_nonce_lock_fails_private_requests_witness :
  nonce_lock Examples.unlocked_client = None /\
  let r := @__call__ (Examples.env [] Examples.down) "returnBalances" ∅
             Examples.unlocked_client in
  fails_at_lock_entry Examples.unlocked_client r /\
  fst r = Raise AttributeError /\
  trace (snd r) = [EAcquire] /\
  value (semaphore (coach (snd r))) = 5.
Proof.
  split; [reflexivity|]. cbv zeta.
  split; [|vm_compute; repeat split].
  apply (@missing_nonce_lock_fails_private_requests
           (Examples.env [] Examples.down) Examples.unlocked_client
           "returnBalances" ∅ eq_refl).
  reflexivity.
Defined.

(* --------------------------------------------------------------------- *)
(** ** Reading the server's minimum out of a nonce error *)
(* --------------------------------------------------------------------- *)







Lemma append_cons c s t : String c s +:+ t = String c (s +:+ t).
Proof. reflexivity. Qed.



Lemma split_on_dotless s rest :
  dotless s = true ->
  PyStr.split_on "." (s +:+ String "." rest) = s :: PyStr.split_on "." rest.
Proof.
  induction s as [|c s IH]; intros Hp; [reflexivity|].
  cbn [dotless] in Hp. apply andb_true_iff in Hp as [Hdot Hs].
  apply negb_true_iff in Hdot.
  rewrite append_cons. cbn [PyStr.split_on]. rewrite Hdot, (IH Hs). reflexivity.
Qed.




(* --------------------------------------------------------------------- *)
(** ** What one attempt changes *)
(* --------------------------------------------------------------------- *)

(** [_handleResponse] leaves the world alone, or assigns the nonce. *)
Lemma handle_frame resp w o w' :
  _handleResponse resp w = (o, w') ->
  w' = w \/
  (exists kvs e n,
     json_body resp = Some (JObject kvs) /\
     json_getitem "error" (JObject kvs) = Ok (JString e) /\
     PyStr.contains "Nonce must be greater" e = true /\
     reported_nonce e = Ok n /\
     o = Raise (RequestException ("PoloniexError " +:+ e)) /\
     w' = set_nonce n w).
Proof.
  unfold _handleResponse.
  destruct (json_body resp) as [out|] eqn:Hbody; [|intros [= _ <-]; auto].
  destruct (json_contains "error" out) as [[]|] eqn:Hin;
    try (intros [= _ <-]; auto; fail).
  destruct (json_getitem "error" out) as [err|x] eqn:Hget;
    try (intros [= _ <-]; auto; fail).
  destruct (json_contains "Nonce must be greater" err) as [[]|] eqn:Hnonce;
    try (intros [= _ <-]; auto; fail).
  - destruct err as [| | |e| |]; try (intros [= _ <-]; auto; fail).
    destruct (reported_nonce e) as [n|x] eqn:Hn;
      try (intros [= _ <-]; auto; fail).
    intros [= <- <-]. right.
    destruct out as [| | | | |kvs]; try discriminate.
    exists kvs, e, n. cbn [json_contains] in Hnonce.
    injection Hnonce as Hnonce. auto 10.
  - destruct err as [| | |e| |]; try (intros [= _ <-]; auto; fail).
    destruct (PyStr.contains "please try again" (PyStr.lower e));
      intros [= _ <-]; auto.
Qed.

Lemma handle_trace resp w : trace (snd (_handleResponse resp w)) = trace w.
Proof.
  destruct (_handleResponse resp w) as [o w'] eqn:Hh.
  destruct (handle_frame _ _ _ _ Hh) as [->|(kvs & e & n & _ & _ & _ & _ & _ & ->)];
    reflexivity.
Qed.

Lemma extends_ret {A} (a : A) : extends (ret a).
Proof. intros w o w' [= _ <-]. exists []. symmetry; apply app_nil_r. Qed.

Lemma extends_bind {A B} (m : M A) (k : A -> M B) :
  extends m -> (forall a, extends (k a)) -> extends (bind m k).
Proof.
  intros Hm Hk w o w'. unfold bind.
  destruct (m w) as [[a|e|] w1] eqn:Hmw; destruct (Hm _ _ _ Hmw) as [l1 Hl1].
  - intros Hkw. destruct (Hk a _ _ _ Hkw) as [l2 Hl2].
    exists (l1 ++ l2). rewrite Hl2, Hl1, <- app_assoc. reflexivity.
  - intros [= _ <-]. eauto.
  - intros [= _ <-]. eauto.
Qed.

Lemma extends_with {A} (enter exit : M unit) (body : M A) :
  extends enter -> extends exit -> extends body -> extends (with_ enter exit body).
Proof.
  intros He Hx Hb w o w'. unfold with_.
  destruct (enter w) as [[[]|e|] w1] eqn:Hew; destruct (He _ _ _ Hew) as [l1 Hl1];
    try (intros [= _ <-]; eauto; fail).
  destruct (body w1) as [ob w2] eqn:Hbw. destruct (Hb _ _ _ Hbw) as [l2 Hl2].
  assert (Hw2 : trace w2 = trace w ++ (l1 ++ l2))
    by (rewrite Hl2, Hl1, <- app_assoc; reflexivity).
  destruct (exit w2) as [ox w3] eqn:Hxw. destruct (Hx _ _ _ Hxw) as [l3 Hl3].
  assert (Hw3 : trace w3 = trace w ++ ((l1 ++ l2) ++ l3))
    by (rewrite Hl3, Hw2, <- !app_assoc; reflexivity).
  destruct ob as [a|e|]; destruct ox as [[]|e'|]; intros [= _ <-]; eauto.
Qed.

Lemma extends_sleep d : extends (sleep d).
Proof. intros w o w' [= _ <-]. exists [ESleep d]. reflexivity. Qed.

Lemma extends_coach_enter : extends coach_enter.
Proof.
  intros w o w'. unfold coach_enter.
  destruct (RateLimit.__enter__ (coach w)) as [[[]|e|] c]; intros [= _ <-].
  - exists [EAcquire]. reflexivity.
  - exists []. symmetry; apply app_nil_r.
  - exists []. symmetry; apply app_nil_r.
Qed.

Lemma extends_silent {A} (m : M A) :
  (forall w, trace (snd (m w)) = trace w) -> extends m.
Proof.
  intros Hm w o w' Hmw. exists []. rewrite app_nil_r.
  specialize (Hm w). rewrite Hmw in Hm. exact Hm.
Qed.

Lemma extends_retrying_loop {A} (func : M A) delays :
  extends func -> extends (retrying_loop func delays).
Proof.
  intros Hf. induction delays as [|delay rest IH]; [apply extends_ret|].
  intros w o w'. cbn [retrying_loop].
  destruct (func w) as [[a|e|] w1] eqn:Hfw; destruct (Hf _ _ _ Hfw) as [l1 Hl1];
    try (intros [= _ <-]; eauto; fail).
  destruct e; try (intros [= _ <-]; eauto; fail).
  destruct delay as [d|]; [|intros [= _ <-]; eauto].
  intros Hrest.
  destruct (extends_bind (sleep d) (fun _ => retrying_loop func rest)
              (extends_sleep d) (fun _ => IH) _ _ _ Hrest) as [l2 Hl2].
  exists (l1 ++ l2). rewrite Hl2, Hl1, <- app_assoc. reflexivity.
Qed.

Section Attempts.

Context `{External}.

Lemma extends_session_request method : extends (session_request method).
Proof.
  intros w o w'. unfold session_request.
  destruct (transport (trace w) (request_of method w)); intros [= _ <-];
    eexists; reflexivity.
Qed.

Lemma extends_locked_section : extends locked_section.
Proof.
  unfold locked_section.
  apply extends_bind; [apply extends_silent; reflexivity|intros _].
  apply extends_bind; [apply extends_silent; reflexivity|intros _].
  apply extends_bind.
  { apply extends_silent. intros w. unfold attach_headers.
    destruct (secret (self w)); [destruct hmac_accepts_str|]; reflexivity. }
  intros _. apply extends_bind; [apply extends_session_request|].
  intros resp. apply extends_silent. apply handle_trace.
Qed.

Lemma extends_lock_enter : extends lock_enter.
Proof.
  apply extends_silent. intros w. unfold lock_enter.
  destruct (nonce_lock w) as [[]|]; reflexivity.
Qed.

Lemma extends_private : extends PoloniexPrivateAPI__make_request.
Proof.
  unfold PoloniexPrivateAPI__make_request.
  apply extends_bind; [apply extends_silent; reflexivity|intros _].
  apply extends_with;
    [apply extends_coach_enter|apply extends_silent; reflexivity|].
  apply extends_with;
    [apply extends_lock_enter|apply extends_silent; reflexivity|].
  apply extends_locked_section.
Qed.

Lemma extends_public : extends PoloniexPublicAPI__make_request.
Proof.
  unfold PoloniexPublicAPI__make_request.
  apply extends_bind; [apply extends_silent; reflexivity|intros _].
  apply extends_with;
    [apply extends_coach_enter|apply extends_silent; reflexivity|].
  apply extends_bind; [apply extends_session_request|].
  intros resp. apply extends_silent. apply handle_trace.
Qed.

Lemma extends_make_request : extends _make_request.
Proof.
  intros w o w'. unfold _make_request, Poloniex__make_request.
  destruct (cls (self w)).
  - intros [= _ <-]. exists []. symmetry; apply app_nil_r.
  - apply extends_public.
  - apply extends_private.
  - destruct (args w !! "command") as [[c|z]|].
    + destruct (PyStr.in_list c Commands.private);
        [apply extends_private|apply extends_public].
    + apply extends_public.
    + intros [= _ <-]. exists []. symmetry; apply app_nil_r.
Qed.

End Attempts.

(* --------------------------------------------------------------------- *)
(** ** A nonce error: resynchronisation and retry *)
(* --------------------------------------------------------------------- *)

Lemma handle_never_blocks resp w : fst (_handleResponse resp w) <> Blocked.
Proof.
  unfold _handleResponse.
  repeat match goal with
         | |- context [match ?x with _ => _ end] => destruct x
         end; cbn; discriminate.
Qed.

Lemma handle_nonce_error resp w kvs e n :
  json_body resp = Some (JObject kvs) ->
  json_getitem "error" (JObject kvs) = Ok (JString e) ->
  PyStr.contains "Nonce must be greater" e = true ->
  reported_nonce e = Ok n ->
  _handleResponse resp w =
    (Raise (RequestException ("PoloniexError " +:+ e)), set_nonce n w).
Proof.
  intros Hb Hget Hin Hn. unfold _handleResponse.
  rewrite Hb, (getitem_contains _ _ _ Hget), Hget.
  cbn [json_contains]. rewrite Hin, Hn. reflexivity.
Qed.

Lemma retrying_loop_after_first {A} (func : M A) delay rest w o1 w1 o w' :
  extends func ->
  func w = (o1, w1) ->
  retrying_loop func (delay :: rest) w = (o, w') ->
  exists more, trace w' = trace w1 ++ more.
Proof.
  intros Hext Hf. cbn [retrying_loop]. rewrite Hf.
  destruct o1 as [a|e|]; try (intros [= _ <-]; exists []; symmetry; apply app_nil_r).
  destruct e; try (intros [= _ <-]; exists []; symmetry; apply app_nil_r).
  destruct delay as [d|]; [|intros [= _ <-]; exists []; symmetry; apply app_nil_r].
  apply (extends_bind (sleep d) (fun _ => retrying_loop func rest)
           (extends_sleep d) (fun _ => extends_retrying_loop func rest Hext)).
Qed.

Section NonceError.

Context `{External}.

Lemma private_attempt w sec p :
  nonce_lock w = Some false ->
  secret (self w) = Some sec ->
  hmac_accepts_str = true ->
  ident (timer (coach w)) = None ->
  value (semaphore (coach w)) = S p ->
  let w1 := before_send w sec p in
  let r := request_of PoloniexPrivateAPI_REQEUST_METHOD w1 in
  PoloniexPrivateAPI__make_request w =
    match transport (trace w1) r with
    | Responds resp =>
        (fst (_handleResponse resp (log_event (ESend r) w1)),
         set_nonce_lock (Some false)
           (snd (_handleResponse resp (log_event (ESend r) w1))))
    | Fails e => (Raise e, set_nonce_lock (Some false) (log_event (ESend r) w1))
    end.
Proof.
  intros Hlock Hsec Hsign Hid Hval w1 r.
  unfold PoloniexPrivateAPI__make_request, bind, bind_data, with_, coach_enter,
    RateLimit.__enter__.
  cbn [coach set_payload]. rewrite (wait_unstarted _ Hid), Hval.
  unfold lock_enter, locked_section, bind, incr_nonce, attach_nonce,
    attach_headers, session_request, lock_exit, coach_exit, RateLimit.__exit__.
  cbn -[_handleResponse transport request_of].
  rewrite Hlock. cbn -[_handleResponse transport request_of].
  rewrite Hsec, Hsign. cbn -[_handleResponse transport request_of].
  change (transport _ _) with (transport (trace w1) r).
  destruct (transport (trace w1) r) as [resp|e]; [|reflexivity].
  pose proof (handle_never_blocks resp (log_event (ESend r) w1)) as Hnb.
  change (_handleResponse resp _) with (_handleResponse resp (log_event (ESend r) w1)).
  destruct (_handleResponse resp (log_event (ESend r) w1)) as [[a|e|] wh];
    [reflexivity|reflexivity|exfalso; apply Hnb; reflexivity].
Qed.

End NonceError.


(* --------------------------------------------------------------------- *)
(** ** The nonce sequence of a private client *)
(* --------------------------------------------------------------------- *)

Lemma sent_nonces_app tr1 tr2 :
  sent_nonces (tr1 ++ tr2) = sent_nonces tr1 ++ sent_nonces tr2.
Proof.
  induction tr1 as [|ev tr1 IH]; [reflexivity|].
  destruct ev as [|d|r]; cbn [app sent_nonces]; auto.
  destruct (data_nonce r); cbn [app]; rewrite IH; reflexivity.
Qed.

Lemma increasing_snoc l k x :
  increasing l = true ->
  Forall (fun n => (n <= k)%Z) l ->
  (k < x)%Z ->
  increasing (l ++ [x]) = true.
Proof.
  induction l as [|a l IH]; intros Hinc Hall Hlt; [reflexivity|].
  apply Forall_cons in Hall as [Ha Hall].
  destruct l as [|b l'].
  - cbn. rewrite andb_true_r. apply Z.ltb_lt. lia.
  - cbn [increasing] in Hinc. apply andb_true_iff in Hinc as [Hab Hinc].
    change (increasing ((a :: b :: l') ++ [x]))
      with ((a <? b)%Z && increasing ((b :: l') ++ [x])).
    rewrite Hab. apply IH; assumption.
Qed.

Lemma Forall_le_mono (l : list Z) k k' :
  (k <= k')%Z -> Forall (fun n => (n <= k)%Z) l -> Forall (fun n => (n <= k')%Z) l.
Proof.
  intros Hk Hall. eapply Forall_impl; [exact Hall|]. cbn; intros; lia.
Qed.

Section NonceSequence.

Context `{External}.

(** One run of the locked section: the nonce goes up by one; when a request
    is sent it carries that nonce, and a conforming server's answer does not
    bring the stored nonce below it. *)
Lemma locked_section_nonce w o w' :
  p_data (payload w) = true ->
  locked_section w = (o, w') ->
  self w' = self w /\ nonce_lock w' = nonce_lock w /\ coach w' = coach w /\
  (History.conforming -> (_nonce w + 1 <= _nonce w')%Z) /\
  (trace w' = trace w \/
   exists r, trace w' = trace w ++ [ESend r] /\
             data_nonce r = Some (_nonce w + 1)%Z).
Proof.
  intros Hdata.
  unfold locked_section, bind, incr_nonce, attach_nonce, attach_headers.
  cbn -[_handleResponse transport request_of session_request].
  destruct (secret (self w)) as [sec|];
    [|intros [= <- <-]; cbn; repeat split; auto; intros _; lia].
  destruct hmac_accepts_str;
    [|intros [= <- <-]; cbn; repeat split; auto; intros _; lia].
  cbn -[_handleResponse transport request_of session_request].
  match goal with
  | |- context [session_request ?m ?w0] =>
      set (w1 := w0); set (r := request_of m w1);
      assert (Hr : data_nonce r = Some (_nonce w + 1)%Z)
  end.
  { unfold data_nonce, r, request_of, w1. cbn. rewrite Hdata.
    rewrite lookup_insert_eq. reflexivity. }
  unfold session_request. fold r.
  destruct (transport (trace w1) r) as [resp|x] eqn:Hreply.
  - destruct (_handleResponse resp (log_event (ESend r) w1)) as [oh wh] eqn:Hh.
    intros [= <- <-].
    destruct (handle_frame _ _ _ _ Hh)
      as [->|(kvs & e & n & Hbody & Hget & Hin & Hrep & _ & ->)].
    + cbn. repeat split; auto; [intros _; lia|].
      right. exists r. split; [reflexivity|exact Hr].
    + cbn. repeat split; auto.
      * intros Hconf. unfold data_nonce in Hr.
        destruct (r_data r) as [a|] eqn:Ha; [|discriminate].
        destruct (a !! "nonce") as [[s|z]|] eqn:Hz; try discriminate.
        injection Hr as ->.
        exact (Hconf _ _ _ _ _ _ _ _ Hreply Hbody Hget Hin Hrep Ha Hz).
      * right. exists r. split; [reflexivity|exact Hr].
  - intros [= <- <-]. cbn. repeat split; auto; [intros _; lia|].
    right. exists r. split; [reflexivity|exact Hr].
Qed.

Lemma private_request_nonce w o w' :
  PoloniexPrivateAPI__make_request w = (o, w') ->
  self w' = self w /\
  (History.conforming ->
   (_nonce w <= _nonce w')%Z /\
   (sent_nonces (trace w') = sent_nonces (trace w) \/
    (sent_nonces (trace w') = sent_nonces (trace w) ++ [(_nonce w + 1)%Z] /\
     (_nonce w + 1 <= _nonce w')%Z))).
Proof.
  unfold PoloniexPrivateAPI__make_request, bind, bind_data, with_, coach_enter,
    coach_exit, lock_enter, lock_exit, RateLimit.__exit__.
  cbn -[locked_section RateLimit.__enter__ sent_nonces].
  destruct (RateLimit.__enter__ (coach w)) as [[[]|e|] c];
    cbn -[locked_section sent_nonces];
    try (intros [= <- <-]; cbn -[sent_nonces]; repeat split; auto; lia).
  destruct (nonce_lock w) as [[]|]; cbn -[locked_section sent_nonces];
    try (intros [= <- <-]; cbn -[sent_nonces];
         rewrite ?sent_nonces_app, ?app_nil_r; repeat split; auto; lia).
  match goal with
  | |- context [locked_section ?w0] =>
      destruct (locked_section w0) as [ol wl] eqn:Hl;
      destruct (locked_section_nonce w0 ol wl eq_refl Hl)
        as (Hs & _ & _ & Hn & Htr)
  end.
  cbn [self _nonce trace set_nonce_lock log_event set_coach set_payload]
    in Hs, Hn, Htr.
  assert (Hgoal : self wl = self w /\
            (History.conforming ->
             (_nonce w <= _nonce wl)%Z /\
             (sent_nonces (trace wl) = sent_nonces (trace w) \/
              (sent_nonces (trace wl) = sent_nonces (trace w) ++ [(_nonce w + 1)%Z] /\
               (_nonce w + 1 <= _nonce wl)%Z)))).
  { split; [exact Hs|]. intros Hconf. specialize (Hn Hconf). split; [lia|].
    destruct Htr as [->|(r & -> & Hr)].
    - left. rewrite sent_nonces_app, app_nil_r. reflexivity.
    - right. split; [|exact Hn].
      rewrite !sent_nonces_app. cbn [sent_nonces]. rewrite Hr, app_nil_r.
      reflexivity. }
  destruct ol as [a|e|]; intros [= <- <-]; exact Hgoal.
Qed.

Lemma private_request_keeps_inv w o w' :
  History.conforming ->
  PoloniexPrivateAPI__make_request w = (o, w') ->
  nonce_inv w -> nonce_inv w' /\ (_nonce w <= _nonce w')%Z.
Proof.
  intros Hconf Hreq (Hcls & Hinc & Hall).
  destruct (private_request_nonce w o w' Hreq) as (Hs & Hrest).
  destruct (Hrest Hconf) as (Hle & Hsent).
  split; [|exact Hle]. unfold nonce_inv. rewrite Hs. split; [exact Hcls|].
  destruct Hsent as [->|[-> Hnew]].
  - split; [exact Hinc|]. exact (Forall_le_mono _ _ _ Hle Hall).
  - split.
    + apply (increasing_snoc _ (_nonce w)); [assumption|assumption|lia].
    + apply Forall_app. split; [exact (Forall_le_mono _ _ _ Hle Hall)|].
      constructor; [exact Hnew|constructor].
Qed.

Lemma retrying_loop_keeps_inv delays : forall w o w',
  History.conforming ->
  retrying_loop PoloniexPrivateAPI__make_request delays w = (o, w') ->
  nonce_inv w -> nonce_inv w' /\ (_nonce w <= _nonce w')%Z.
Proof.
  induction delays as [|delay rest IH]; intros w o w' Hconf.
  - intros [= _ <-] Hinv. split; [exact Hinv|lia].
  - cbn [retrying_loop].
    destruct (PoloniexPrivateAPI__make_request w) as [o1 w1] eqn:Hreq.
    intros Hloop Hinv.
    destruct (private_request_keeps_inv w o1 w1 Hconf Hreq Hinv) as [Hinv1 Hle1].
    destruct o1 as [a|e|]; try (injection Hloop as _ <-; auto; fail).
    destruct e; try (injection Hloop as _ <-; auto; fail).
    destruct delay as [d|]; [|injection Hloop as _ <-; auto].
    unfold bind, sleep in Hloop.
    assert (Hinv2 : nonce_inv (log_event (ESleep d) w1)).
    { destruct Hinv1 as (Hc & Hi & Ha). unfold nonce_inv.
      cbn [self trace _nonce log_event].
      rewrite sent_nonces_app, app_nil_r. auto. }
    destruct (IH _ _ _ Hconf Hloop Hinv2) as [Hinv' Hle'].
    split; [exact Hinv'|]. cbn [_nonce log_event] in Hle'. lia.
Qed.

Lemma retrying_loop_private delays : forall w,
  cls (self w) = PoloniexPrivateAPI ->
  retrying_loop _make_request delays w =
  retrying_loop PoloniexPrivateAPI__make_request delays w.
Proof.
  induction delays as [|delay rest IH]; intros w Hcls; [reflexivity|].
  cbn [retrying_loop]. unfold _make_request at 1. rewrite Hcls.
  destruct (PoloniexPrivateAPI__make_request w) as [o1 w1] eqn:Hreq.
  destruct o1 as [a|e|]; try reflexivity.
  destruct e; try reflexivity.
  destruct delay as [d|]; [|reflexivity].
  unfold bind, sleep. apply IH. cbn [self log_event].
  rewrite (proj1 (private_request_nonce _ _ _ Hreq)). exact Hcls.
Qed.

Lemma step_keeps_inv w op :
  History.conforming ->
  nonce_inv w ->
  nonce_inv (History.step w op) /\ (_nonce w <= _nonce (History.step w op))%Z.
Proof.
  intros Hconf Hinv. destruct op as [command kwargs|]; cbn [History.step].
  - destruct (__call__ command kwargs w) as [o w'] eqn:Hcall. cbn [snd].
    rewrite call_unfold in Hcall.
    pose proof Hinv as (Hcls & Hinc & Hall). rewrite Hcls in Hcall.
    unfold _retry in Hcall.
    rewrite retrying_loop_private in Hcall by exact Hcls.
    apply (retrying_loop_keeps_inv _ _ _ _ Hconf Hcall).
    unfold nonce_inv. cbn. auto.
  - split; [|cbn; lia]. exact Hinv.
Qed.

Lemma run_keeps_inv ops : forall w,
  History.conforming ->
  nonce_inv w ->
  nonce_inv (History.run ops w) /\ (_nonce w <= _nonce (History.run ops w))%Z.
Proof.
  induction ops as [|op ops IH]; intros w Hconf Hinv; [split; [exact Hinv|cbn; lia]|].
  cbn [History.run fold_left].
  destruct (step_keeps_inv w op Hconf Hinv) as [Hinv1 Hle1].
  destruct (IH _ Hconf Hinv1) as [Hinv2 Hle2].
  split; [exact Hinv2|]. unfold History.run in Hle2. lia.
Qed.

Lemma new_private_client_inv now key secret timeout retries coach start lock :
  nonce_inv (PoloniexPrivateAPI_init PoloniexPrivateAPI now key secret timeout
               retries coach start lock).
Proof. split; [reflexivity|]. split; [reflexivity|]. constructor. Qed.

(** C4 (amended): take a [PoloniexPrivateAPI] client whose sent nonces so
    far increase strictly and do not exceed the stored nonce (a new client
    has sent none), and a server whose nonce errors never report a minimum
    below the nonce of the request they answer.  Then over every sequence of
    calls (each issuing requests and handling nonce errors by assigning the
    reported value) and refills of the gate, the stored nonce never
    decreases, every nonce handed out is strictly greater than every nonce
    handed out before, and none exceeds the stored nonce. *)
Theorem nonces_increase_when_server_conforms
    (w : world) (ops : list History.op) :
  History.conforming ->
  nonce_inv w ->
  let w' := History.run ops w in
  increasing (sent_nonces (trace w')) = true /\
  Forall (fun n => (n <= _nonce w')%Z) (sent_nonces (trace w')) /\
  (_nonce w <= _nonce w')%Z.
Proof.
  intros Hconf Hinv w'.
  destruct (run_keeps_inv ops w Hconf Hinv) as [(_ & Hinc & Hall) Hle].
  auto.
Qed.

End NonceSequence.

Lemma strict_server_conforms : @History.conforming Examples.strict_env.
Proof.
  unfold History.conforming. cbn [transport Examples.strict_env].
  unfold Examples.strict_server.
  intros tr r resp kvs e m a n Hreply Hbody Hget Hin Hrep Ha Hn.
  assert (Hd : data_nonce r = Some n) by (unfold data_nonce; rewrite Ha, Hn; reflexivity).
  rewrite Hd in Hreply.
  destruct (n <=? 12345)%Z eqn:Hle.
  - apply Z.leb_le in Hle.
    injection Hreply as <-. injection Hbody as <-.
    injection Hget as <-.
    vm_compute in Hrep. injection Hrep as <-. exact Hle.
  - injection Hreply as <-. injection Hbody as <-. discriminate Hget.
Qed.

Lemma nonces_increase_when_server_conforms_witness :
  let ops := [History.Call "returnBalances" ∅; History.Tick;
              History.Call "returnOpenOrders" ∅] in
  let w' := @History.run Examples.strict_env ops Examples.private_client in
  increasing (sent_nonces (trace w')) = true /\
  Forall (fun n => (n <= _nonce w')%Z) (sent_nonces (trace w')) /\
  (_nonce Examples.private_client <= _nonce w')%Z.
Proof.
  intros ops.
  apply (@nonces_increase_when_server_conforms Examples.strict_env
           Examples.private_client ops strict_server_conforms).
  apply new_private_client_inv.
Defined.

(** The run of that history: the first request carries 12300 and is
    rejected, the retry carries 12346, the next call 12347. *)
Example strict_server_run :
  let ops := [History.Call "returnBalances" ∅; History.Tick;
              History.Call "returnOpenOrders" ∅] in
  sent_nonces (trace (@History.run Examples.strict_env ops Examples.private_client))
  = [12300; 12346; 12347]%Z.
Proof. vm_compute. reflexivity. Qed.


(* --------------------------------------------------------------------- *)
(** ** Concurrent callers: the lock and the order of sends *)
(* --------------------------------------------------------------------- *)

Lemma in_order_consumed_last tid n : forall k l,
  length l <= k ->
  Threads.in_consumption_order (l ++ [Threads.Consumed tid n]) =
  Threads.in_consumption_order l.
Proof.
  induction k as [|k IH]; intros l Hlen.
  - destruct l; [reflexivity|cbn in Hlen; lia].
  - destruct l as [|[t1 n1|t1 o1] l']; [reflexivity| |reflexivity].
    destruct l' as [|[t2 n2|t2 [n2|]] l''].
    + reflexivity.
    + change (Threads.in_consumption_order
                ((Threads.Consumed t2 n2 :: l'') ++ [Threads.Consumed tid n]) =
              Threads.in_consumption_order (Threads.Consumed t2 n2 :: l'')).
      apply IH. cbn in Hlen |- *. lia.
    + change ((t1 =? t2)%nat && (n1 =? n2)%Z &&
              Threads.in_consumption_order (l'' ++ [Threads.Consumed tid n]) =
              (t1 =? t2)%nat && (n1 =? n2)%Z && Threads.in_consumption_order l'').
      rewrite IH; [reflexivity|]. cbn in Hlen. lia.
    + reflexivity.
Qed.

Lemma in_order_sent_after_consumed tid n : forall k l,
  length l <= k ->
  Threads.in_consumption_order (l ++ [Threads.Consumed tid n]) = true ->
  Threads.in_consumption_order
    (l ++ [Threads.Consumed tid n; Threads.Sent tid (Some n)]) = true.
Proof.
  induction k as [|k IH]; intros l Hlen.
  - destruct l; [|cbn in Hlen; lia]. intros _. cbn.
    rewrite Nat.eqb_refl, Z.eqb_refl. reflexivity.
  - destruct l as [|[t1 n1|t1 o1] l'].
    + intros _. cbn. rewrite Nat.eqb_refl, Z.eqb_refl. reflexivity.
    + destruct l' as [|[t2 n2|t2 [n2|]] l''].
      * intros _. cbn. rewrite Nat.eqb_refl, Z.eqb_refl. reflexivity.
      * change (Threads.in_consumption_order
                  ((Threads.Consumed t2 n2 :: l'') ++ [Threads.Consumed tid n]) = true ->
                Threads.in_consumption_order
                  ((Threads.Consumed t2 n2 :: l'') ++
                   [Threads.Consumed tid n; Threads.Sent tid (Some n)]) = true).
        apply IH. cbn in Hlen |- *. lia.
      * change ((t1 =? t2)%nat && (n1 =? n2)%Z &&
                Threads.in_consumption_order (l'' ++ [Threads.Consumed tid n]) = true ->
                (t1 =? t2)%nat && (n1 =? n2)%Z &&
                Threads.in_consumption_order
                  (l'' ++ [Threads.Consumed tid n; Threads.Sent tid (Some n)]) = true).
        intros Hb. apply andb_true_iff in Hb as [Hb1 Hb2].
        rewrite Hb1. apply IH; [cbn in Hlen; lia|exact Hb2].
      * intros Hb. discriminate Hb.
    + intros Hb. discriminate Hb.
Qed.

Section ThreadsInvariant.

Context `{External}.

(** What a step of caller [tid] must establish for the invariant to carry
    over to the new state. *)
Lemma threads_inv_update s tid th th' w' ls :
  threads_inv s ->
  Threads.threads s !! tid = Some th ->
  let s' := {| Threads.shared := w';
               Threads.threads := <[tid := th']> (Threads.threads s);
               Threads.observed := Threads.observed s ++ ls |} in
  Threads.in_consumption_order (Threads.observed s ++ ls) = true ->
  (data_bound (Threads.t_pc th') = true -> p_data (Threads.t_payload th') = true) ->
  (Threads.in_locked_section (Threads.t_pc th') = true ->
   nonce_lock w' = Some true /\
   (Threads.in_locked_section (Threads.t_pc th) = true \/
    nonce_lock (Threads.shared s) = Some false)) ->
  pending tid th' s' ->
  (Threads.in_locked_section (Threads.t_pc th) = false ->
   _nonce w' = _nonce (Threads.shared s) /\ ls = [] /\
   (nonce_lock w' = nonce_lock (Threads.shared s) \/
    nonce_lock (Threads.shared s) = Some false)) ->
  threads_inv s'.
Proof.
  intros Hinv Hth s' Horder Hdata Hlock Hpend Hout.
  assert (Hlt : tid < length (Threads.threads s)) by (eapply lookup_lt_Some; eauto).
  assert (Hlook : forall t x, Threads.threads s' !! t = Some x ->
            (t = tid /\ x = th') \/ (t <> tid /\ Threads.threads s !! t = Some x)).
  { intros t x. cbn [s' Threads.threads]. destruct (decide (t = tid)) as [->|Hne].
    - rewrite list_lookup_insert_eq by exact Hlt. intros [= <-]. auto.
    - rewrite list_lookup_insert_ne by congruence. auto. }
  assert (Hother : forall t x, t <> tid -> Threads.threads s !! t = Some x ->
            Threads.in_locked_section (Threads.t_pc x) = true ->
            Threads.in_locked_section (Threads.t_pc th) = false /\
            nonce_lock (Threads.shared s) = Some true).
  { intros t x Hne Hx Hin. split; [|exact (inv_lock s Hinv t x Hx Hin)].
    destruct (Threads.in_locked_section (Threads.t_pc th)) eqn:Hin'; [|reflexivity].
    exfalso. apply Hne. exact (inv_excl s Hinv _ _ _ _ Hx Hth Hin Hin'). }
  constructor.
  - exact Horder.
  - intros t x Hx Hb. destruct (Hlook t x Hx) as [[-> ->]|[Hne Hx']]; [auto|].
    exact (inv_data s Hinv t x Hx' Hb).
  - intros t x Hx Hin. cbn [s' Threads.shared].
    destruct (Hlook t x Hx) as [[-> ->]|[Hne Hx']]; [exact (proj1 (Hlock Hin))|].
    destruct (Hother t x Hne Hx' Hin) as [Hout' Hheld].
    destruct (Hout Hout') as (_ & _ & [Hsame|Hfree]); congruence.
  - intros t1 x1 t2 x2 Hx1 Hx2 Hin1 Hin2.
    destruct (Hlook t1 x1 Hx1) as [[-> ->]|[Hne1 Hx1']];
      destruct (Hlook t2 x2 Hx2) as [[-> ->]|[Hne2 Hx2']]; [reflexivity| | |].
    + exfalso. destruct (Hother t2 x2 Hne2 Hx2' Hin2) as [Hout' Hheld].
      destruct (Hlock Hin1) as [_ [Hwas|Hfree]]; congruence.
    + exfalso. destruct (Hother t1 x1 Hne1 Hx1' Hin1) as [Hout' Hheld].
      destruct (Hlock Hin2) as [_ [Hwas|Hfree]]; congruence.
    + exact (inv_excl s Hinv _ _ _ _ Hx1' Hx2' Hin1 Hin2).
  - intros t x Hx. destruct (Hlook t x Hx) as [[-> ->]|[Hne Hx']]; [exact Hpend|].
    pose proof (inv_pending s Hinv t x Hx') as Hp.
    unfold pending in Hp |- *. cbn [s' Threads.observed Threads.shared].
    destruct (Threads.t_pc x) eqn:Hpc; try exact I;
      (destruct (Hother t x Hne Hx') as [Hout' _]; [rewrite Hpc; reflexivity|];
       destruct (Hout Hout') as (Hn & -> & _); rewrite app_nil_r, ?Hn; exact Hp).
Qed.

Lemma step_keeps_threads_inv s c :
  threads_inv s -> threads_inv (Threads.step s c).
Proof.
  intros Hinv. destruct c as [tid|]; cbn [Threads.step].
  2: { destruct Hinv as [Ho Hd Hl He Hp]. constructor; auto. }
  destruct (Threads.threads s !! tid) as [th|] eqn:Hth; [|exact Hinv].
  destruct (Threads.thread_step tid th (Threads.shared s))
    as [[[th' w'] ls]|] eqn:Hstep; [|exact Hinv].
  pose proof (inv_order s Hinv) as Horder.
  pose proof (inv_data s Hinv tid th Hth) as Hdata.
  pose proof (inv_lock s Hinv tid th Hth) as Hlock.
  pose proof (inv_pending s Hinv tid th Hth) as Hpend.
  unfold pending in Hpend.
  destruct th as [pc0 args0 payload0 delays0].
  cbn [Threads.t_pc Threads.t_args Threads.t_payload Threads.t_delays] in *.
  destruct pc0; cbn [data_bound Threads.in_locked_section] in *;
    step_cases Hstep;
    apply (threads_inv_update s tid _ _ _ _ Hinv Hth);
    unfold pending;
    cbn [Threads.t_pc Threads.t_args Threads.t_payload Threads.shared
         Threads.observed Threads.threads data_bound Threads.in_locked_section
         p_data nonce_lock _nonce log_event set_coach set_payload set_args
         set_nonce set_nonce_lock].
  all: try exact I.
  all: try (intros Hf; discriminate Hf).
  all: try (rewrite app_nil_r; exact Horder).
  all: try (intros _; reflexivity).
  all: try (intros _; apply Hdata; reflexivity).
  all: try (intros _; repeat split; auto; fail).
  - (* the increment is observed *)
    rewrite (in_order_consumed_last _ _ _ _ (le_n _)). exact Horder.
  - eexists; reflexivity.
  - (* the nonce attached is the nonce consumed *)
    destruct Hpend as [l Hl]. exists l, (_nonce (Threads.shared s)).
    rewrite app_nil_r. split; [exact Hl|apply lookup_insert_eq].
  - destruct Hpend as (l & n & Hl & Hn). exists l, n.
    rewrite app_nil_r. auto.
  - (* the request sent carries the nonce consumed just before *)
    destruct Hpend as (l & n & Hl & Hn).
    unfold data_nonce, request_of. cbn [payload args set_payload set_args r_data].
    rewrite (Hdata eq_refl), Hn, Hl, <- app_assoc.
    apply (in_order_sent_after_consumed tid n (length l) l (le_n _)).
    rewrite <- Hl. exact Horder.
  - destruct Hpend as (l & n & Hl & Hn).
    unfold data_nonce, request_of. cbn [payload args set_payload set_args r_data].
    rewrite (Hdata eq_refl), Hn, Hl, <- app_assoc.
    apply (in_order_sent_after_consumed tid n (length l) l (le_n _)).
    rewrite <- Hl. exact Horder.
  - (* handling the response leaves the lock alone *)
    intros _. split; [|left; reflexivity].
    match goal with
    | Hh : _handleResponse _ _ = (_, ?w1) |- nonce_lock ?w1 = _ =>
        destruct (handle_frame _ _ _ _ Hh)
          as [->|(? & ? & ? & _ & _ & _ & _ & _ & ->)]
    end; cbn; exact (Hlock eq_refl).
Qed.

Lemma run_keeps_threads_inv schedule : forall s,
  threads_inv s -> threads_inv (Threads.run schedule s).
Proof.
  induction schedule as [|c schedule IH]; intros s Hinv; [exact Hinv|].
  cbn [Threads.run fold_left]. apply IH, step_keeps_threads_inv, Hinv.
Qed.

Lemma start_threads_inv w calls : threads_inv (Threads.start w calls).
Proof.
  assert (Hfresh : forall tid th,
            Threads.threads (Threads.start w calls) !! tid = Some th ->
            Threads.t_pc th = Threads.AtAttempt).
  { intros tid th. cbn [Threads.start Threads.threads].
    rewrite list_lookup_fmap.
    destruct (calls !! tid); [|discriminate]. intros [= <-]. reflexivity. }
  constructor.
  - reflexivity.
  - intros tid th Hth. rewrite (Hfresh tid th Hth). discriminate.
  - intros tid th Hth. rewrite (Hfresh tid th Hth). discriminate.
  - intros t1 th1 t2 th2 Hth1 _. rewrite (Hfresh t1 th1 Hth1). discriminate.
  - intros tid th Hth. unfold pending. rewrite (Hfresh tid th Hth). exact I.
Qed.

(** C9: any number of callers use one [PoloniexPrivateAPI] client, in any
    interleaving of their atomic steps and of refills of the gate.  At every
    moment, a caller that stands anywhere from the increment of the nonce,
    through attaching it and signing, to the call that sends the request
    (and until it leaves the [with] block) holds the lock: the lock is
    taken, and no other caller stands in that stretch.  Every request sent
    carries the nonce that was consumed last, by the same caller, with no
    other consumption and no other send in between: requests leave in the
    order in which their nonces were consumed. *)
Theorem sends_follow_consumption_order
    (w : world) (calls : list (string * gmap string argval))
    (schedule : list Threads.choice) :
  let s := Threads.run schedule (Threads.start w calls) in
  (forall tid th,
     Threads.threads s !! tid = Some th ->
     Threads.in_locked_section (Threads.t_pc th) = true ->
     nonce_lock (Threads.shared s) = Some true) /\
  (forall t1 th1 t2 th2,
     Threads.threads s !! t1 = Some th1 ->
     Threads.threads s !! t2 = Some th2 ->
     Threads.in_locked_section (Threads.t_pc th1) = true ->
     Threads.in_locked_section (Threads.t_pc th2) = true ->
     t1 = t2) /\
  Threads.in_consumption_order (Threads.observed s) = true.
Proof.
  intros s.
  destruct (run_keeps_threads_inv schedule _ (start_threads_inv w calls))
    as [Ho _ Hl He _].
  auto.
Qed.

End ThreadsInvariant.

(* --------------------------------------------------------------------- *)
(** ** A caller alone takes the steps of the sequential code *)
(* --------------------------------------------------------------------- *)

Section Agreement.

Context `{External}.

Lemma alone_stuck n tid th w :
  Threads.thread_step tid th w = None -> alone n tid th w = (th, w).
Proof. intros Hs. destruct n; cbn [alone]; rewrite ?Hs; reflexivity. Qed.

Lemma alone_add n1 : forall n2 tid th w th1 w1,
  alone n1 tid th w = (th1, w1) ->
  alone (n1 + n2) tid th w = alone n2 tid th1 w1.
Proof.
  induction n1 as [|n1 IH]; intros n2 tid th w th1 w1 Hrun.
  - injection Hrun as -> ->. reflexivity.
  - cbn [alone Nat.add] in Hrun |- *.
    destruct (Threads.thread_step tid th w) as [[[th' w'] ls]|] eqn:Hstep.
    + exact (IH n2 tid th' w' th1 w1 Hrun).
    + injection Hrun as <- <-. symmetry. exact (alone_stuck n2 tid th w Hstep).
Qed.

(** One attempt: from the head of the loop a caller alone arrives, in at most
    nine steps, at the [except] clause with the outcome and the world of
    [PoloniexPrivateAPI._make_request]. *)
Lemma alone_attempt tid delay rest w o w1 :
  PoloniexPrivateAPI__make_request w = (o, w1) ->
  o <> Blocked ->
  exists n,
    alone n tid {| Threads.t_pc := Threads.AtAttempt; Threads.t_args := args w;
                   Threads.t_payload := payload w;
                   Threads.t_delays := delay :: rest |} w =
    ({| Threads.t_pc := Threads.AtExcept o; Threads.t_args := args w1;
        Threads.t_payload := payload w1;
        Threads.t_delays := delay :: rest |}, w1).
Proof.
  destruct w as [sf n lk co ar pl tr].
  unfold PoloniexPrivateAPI__make_request, locked_section.
  unfold bind, bind_data, with_, coach_enter, coach_exit, lock_enter, lock_exit,
    RateLimit.__exit__, incr_nonce, attach_nonce, attach_headers,
    session_request.
  flatten_worlds.
  destruct (RateLimit.__enter__ co) as [[[]|e|] c] eqn:Hw; flatten_worlds.
  - destruct lk as [[]|]; flatten_worlds.
    + intros [= <- <-] Hnb. contradiction.
    + destruct (secret sf) as [sec|] eqn:Hsec; flatten_worlds.
      * destruct hmac_accepts_str eqn:Hsign; flatten_worlds.
        -- match goal with
           | |- context [transport ?t ?r] =>
               destruct (transport t r) as [resp|x] eqn:Hreply
           end; flatten_worlds.
           ++ match goal with
              | |- context [_handleResponse ?rs ?wx] =>
                  destruct (_handleResponse rs wx) as [oh wh] eqn:Hh
              end.
              destruct oh as [a|e|]; intros [= <- <-] Hnb; [| |contradiction];
                exists 9; alone_run; destruct wh; reflexivity.
           ++ intros [= <- <-] _. exists 8. alone_run. reflexivity.
        -- intros [= <- <-] _. exists 7. alone_run. reflexivity.
      * intros [= <- <-] _. exists 7. alone_run. reflexivity.
    + intros [= <- <-] _. exists 3. alone_run. reflexivity.
  - intros [= <- <-] _. exists 1. alone_run. reflexivity.
  - intros [= <- <-] Hnb. contradiction.
Qed.

Lemma load_same th w :
  Threads.t_args th = args w -> Threads.t_payload th = payload w ->
  Threads.load th w = w.
Proof.
  destruct w. unfold Threads.load. cbn. intros -> ->. reflexivity.
Qed.

(** The whole retry loop: a caller alone ends at [Done] with the outcome and
    the world of the sequential [retrying], whenever that does not block. *)
Lemma alone_agrees tid delays : forall w,
  fst (retrying_loop PoloniexPrivateAPI__make_request delays w) <> Blocked ->
  exists n th',
    alone n tid {| Threads.t_pc := Threads.AtAttempt; Threads.t_args := args w;
                   Threads.t_payload := payload w;
                   Threads.t_delays := delays |} w =
      (th', snd (retrying_loop PoloniexPrivateAPI__make_request delays w)) /\
    Threads.t_pc th' =
      Threads.Done (fst (retrying_loop PoloniexPrivateAPI__make_request delays w)).
Proof.
  induction delays as [|delay rest IH]; intros w.
  - intros _. exists 1. eexists. cbn [alone Threads.thread_step Threads.t_pc
                                      Threads.t_delays retrying_loop ret fst snd].
    rewrite load_same by reflexivity. split; reflexivity.
  - cbn [retrying_loop].
    destruct (PoloniexPrivateAPI__make_request w) as [o w1] eqn:Hreq.
    destruct o as [a|e|].
    + intros _. destruct (alone_attempt tid delay rest w _ w1 Hreq) as [n1 Hn1];
        [discriminate|].
      exists (n1 + 1). eexists. rewrite (alone_add n1 1 _ _ _ _ _ Hn1).
      cbn [alone Threads.thread_step Threads.t_pc Threads.t_delays fst snd].
      rewrite load_same by reflexivity. split; reflexivity.
    + destruct (alone_attempt tid delay rest w _ w1 Hreq) as [n1 Hn1];
        [discriminate|].
      destruct e as [problem| | | | | | | | |];
        try (intros _; exists (n1 + 1); eexists;
             rewrite (alone_add n1 1 _ _ _ _ _ Hn1);
             cbn [alone Threads.thread_step Threads.t_pc Threads.t_delays fst snd];
             rewrite load_same by reflexivity; split; reflexivity).
      destruct delay as [d|].
      * unfold bind, sleep. intros Hnb.
        destruct (IH (log_event (ESleep d) w1) Hnb) as (n2 & th' & Hn2 & Hpc).
        exists (n1 + (1 + n2)), th'.
        rewrite (alone_add n1 (1 + n2) _ _ _ _ _ Hn1).
        cbn [alone Nat.add Threads.thread_step Threads.t_pc Threads.t_delays].
        rewrite load_same by reflexivity.
        unfold sleep. split; [exact Hn2|exact Hpc].
      * intros _. exists (n1 + 1). eexists.
        rewrite (alone_add n1 1 _ _ _ _ _ Hn1).
        cbn [alone Threads.thread_step Threads.t_pc Threads.t_delays fst snd].
        rewrite load_same by reflexivity. split; reflexivity.
    + intros Hnb. exfalso. apply Hnb. reflexivity.
Qed.

Lemma thread_step_load tid th w :
  Threads.thread_step tid th (Threads.load th w) = Threads.thread_step tid th w.
Proof. reflexivity. Qed.

(** A caller that steps alone through a call on a [PoloniexPrivateAPI]
    client ends with the outcome and the world of [__call__], whenever the
    call does not block: the steps of the concurrent model are the
    sequential code cut into pieces. *)
Theorem a_caller_alone_computes_the_call
    (tid : nat) (w : world) (command : string) (kwargs : gmap string argval) :
  cls (self w) = PoloniexPrivateAPI ->
  fst (__call__ command kwargs w) <> Blocked ->
  exists n th',
    alone n tid (Threads.fresh_thread w command kwargs) w =
      (th', snd (__call__ command kwargs w)) /\
    Threads.t_pc th' = Threads.Done (fst (__call__ command kwargs w)).
Proof.
  intros Hcls. rewrite call_unfold, Hcls. unfold _retry.
  set (wc := call_frame PoloniexPrivateAPI_REQEUST_URL command kwargs w).
  rewrite retrying_loop_private by exact Hcls.
  intros Hnb.
  destruct (alone_agrees tid _ wc Hnb) as (n & th' & Hn & Hpc).
  exists n, th'. split; [|exact Hpc].
  destruct n as [|n].
  - cbn [alone] in Hn. injection Hn as <- _. discriminate Hpc.
  - cbn [alone] in Hn |- *.
    rewrite <- (thread_step_load tid (Threads.fresh_thread w command kwargs) w).
    change (Threads.thread_step tid _ wc)
      with (Threads.thread_step tid (Threads.fresh_thread w command kwargs)
              (Threads.load (Threads.fresh_thread w command kwargs) w)) in Hn.
    destruct (Threads.thread_step tid (Threads.fresh_thread w command kwargs)
                (Threads.load (Threads.fresh_thread w command kwargs) w))
      as [[[th1 w1] ls]|]; [exact Hn|].
    injection Hn as <- _. discriminate Hpc.
Qed.

End Agreement.

Lemma a_caller_alone_computes_the_call_witness :
  let E := Examples.env [Responds (Examples.error_body Examples.nonce_error)]
                        (Responds (Examples.body Examples.balances)) in
  exists n th',
    @alone E n 0 (Threads.fresh_thread Examples.private_client "returnBalances" ∅)
      Examples.private_client =
      (th', snd (@__call__ E "returnBalances" ∅ Examples.private_client)) /\
    Threads.t_pc th' =
      Threads.Done (fst (@__call__ E "returnBalances" ∅ Examples.private_client)).
Proof.
  intros E.
  apply (@a_caller_alone_computes_the_call E 0 Examples.private_client
           "returnBalances" ∅ eq_refl).
  vm_compute. discriminate.
Defined.
(* ===================================================================== *)
(** * Further properties of the client *)
(* ===================================================================== *)

(* --------------------------------------------------------------------- *)
(** ** One attempt *)
(* --------------------------------------------------------------------- *)

Lemma handle_returns `{External} resp w out w' :
  _handleResponse resp w = (Return out, w') ->
  json_body resp = Some out /\ json_contains "error" out = Some false /\ w' = w.
Proof.
  unfold _handleResponse.
  destruct (json_body resp) as [b|]; [|discriminate].
  destruct (json_contains "error" b) as [[]|] eqn:Hin; try discriminate.
  - repeat match goal with
           | |- context [match ?x with _ => _ end] => destruct x
           end; discriminate.
  - intros [= <- <-]. auto.
Qed.

Lemma wait_effect c o c' :
  RateLimit.wait c = (o, c') ->
  timer c' = timer c /\
  initial_value (semaphore c') = initial_value (semaphore c) /\
  ((o = Return tt /\ value (semaphore c) = value (semaphore c') + 1) \/
   (o <> Return tt /\ value (semaphore c) = value (semaphore c'))).
Proof.
  unfold RateLimit.wait, RateLimit.RecurrentTimer_start, RateLimit.Semaphore_acquire.
  destruct (ident (timer c)) as [i|] eqn:Hid.
  - intros [= <- <-]. cbn. split; [reflexivity|]. split; [reflexivity|].
    right. split; [discriminate|reflexivity].
  - destruct (value (semaphore c)) as [|n] eqn:Hv; intros [= <- <-]; cbn;
      (split; [reflexivity|]); (split; [reflexivity|]).
    + right. split; [discriminate|lia].
    + left. split; [reflexivity|lia].
Qed.

Section AttemptEffect.

Context `{External}.

Lemma locked_section_never_blocks w : fst (locked_section w) <> Blocked.
Proof.
  unfold locked_section, bind, incr_nonce, attach_nonce, attach_headers,
    session_request.
  cbn -[_handleResponse transport request_of].
  destruct (secret (self w)); [|cbn; discriminate].
  destruct hmac_accepts_str; [|cbn; discriminate].
  cbn -[_handleResponse transport request_of].
  match goal with
  | |- context [transport ?tr ?r] => destruct (transport tr r) as [resp|e]
  end; [|cbn; discriminate].
  apply handle_never_blocks.
Qed.

(** The gate did not grant a permit: the attempt ends there. *)
Lemma gate_refused_effect w (og : outcome unit) c p :
  timer c = timer (coach w) ->
  initial_value (semaphore c) = initial_value (semaphore (coach w)) ->
  (og = Return tt /\ value (semaphore (coach w)) = value (semaphore c) + 1) \/
  (og <> Return tt /\ value (semaphore (coach w)) = value (semaphore c)) ->
  og <> Return tt ->
  forall o : outcome json, (forall out, o <> Return out) ->
  attempt_effect w o (set_coach c (set_payload p w)).
Proof.
  intros Ht Hi Hv Hog o Ho.
  split; [reflexivity|]. split; [reflexivity|].
  exists []. split; [cbn; rewrite app_nil_r; reflexivity|].
  split; [constructor|]. cbn [coach set_coach].
  split; [exact Ht|]. split; [exact Hi|]. split.
  - destruct Hv as [[Hx _]|[_ Hv]]; [contradiction|cbn; lia].
  - intros out Hout. exfalso. exact (Ho out Hout).
Qed.

Lemma public_request_effect w o w' :
  PoloniexPublicAPI__make_request w = (o, w') -> attempt_effect w o w'.
Proof.
  unfold PoloniexPublicAPI__make_request, bind, bind_params, with_, coach_enter,
    coach_exit, session_request, RateLimit.__exit__, RateLimit.__enter__.
  cbn -[_handleResponse transport request_of RateLimit.wait].
  destruct (RateLimit.wait (coach w)) as [og c] eqn:Hgate.
  destruct (wait_effect _ _ _ Hgate) as (Ht & Hi & Hv).
  destruct og as [[]|e|]; cbn -[_handleResponse transport request_of].
  - match goal with
    | |- context [transport ?tr ?r] =>
        destruct (transport tr r) as [resp|e] eqn:Hreply
    end; cbn -[_handleResponse transport request_of].
    + match goal with
      | |- context [_handleResponse resp ?w0] =>
          destruct (_handleResponse resp w0) as [oh wh] eqn:Hh;
          pose proof (handle_never_blocks resp w0) as Hnb; rewrite Hh in Hnb;
          pose proof (handle_frame _ _ _ _ Hh) as Hfr
      end.
      assert (Hwh : self wh = self w /\ nonce_lock wh = nonce_lock w /\
                    coach wh = c /\
                    trace wh = trace w ++ [EAcquire; ESend (request_of PoloniexPublicAPI_REQUEST_METHOD
                       (log_event EAcquire (set_coach c (set_payload
                          {| p_timeout := p_timeout (payload w); p_url := p_url (payload w);
                             p_params := true; p_data := p_data (payload w);
                             p_headers := p_headers (payload w) |} w))))]).
      { destruct Hfr as [->|(kvs & e & n & _ & _ & _ & _ & _ & ->)];
          cbn -[request_of]; rewrite <- app_assoc; auto. }
      destruct Hwh as (Hs & Hl & Hco & Htr).
      assert (Hres : attempt_effect w oh wh).
      { split; [exact Hs|]. split; [exact Hl|].
        eexists. split; [exact Htr|]. split; [constructor|].
        rewrite Hco. split; [exact Ht|]. split; [exact Hi|]. split.
        - destruct Hv as [[_ Hv]|[Hx _]]; [cbn; lia|congruence].
        - intros out ->. destruct (handle_returns _ _ _ _ Hh) as (Hb & Hno & _).
          eexists _, resp. split; [reflexivity|]. split; [exact Hreply|]. auto. }
      destruct oh as [a|e|]; [| |exfalso; apply Hnb; reflexivity];
        intros [= <- <-]; exact Hres.
    + intros [= <- <-]. split; [reflexivity|]. split; [reflexivity|].
      eexists. split; [cbn -[request_of]; rewrite <- app_assoc; reflexivity|].
      split; [constructor|]. cbn [coach log_event set_coach].
      split; [exact Ht|]. split; [exact Hi|]. split.
      * destruct Hv as [[_ Hv]|[Hx _]]; [cbn; lia|congruence].
      * intros out [=].
  - intros [= <- <-]. apply (gate_refused_effect w _ c _ Ht Hi Hv); discriminate.
  - intros [= <- <-]. apply (gate_refused_effect w _ c _ Ht Hi Hv); discriminate.
Qed.

Lemma locked_section_effect w o w' :
  locked_section w = (o, w') ->
  self w' = self w /\ nonce_lock w' = nonce_lock w /\ coach w' = coach w /\
  o <> Blocked /\
  ((trace w' = trace w /\ forall out, o <> Return out) \/
   (exists r, trace w' = trace w ++ [ESend r] /\
      forall out, o = Return out ->
        exists resp, transport (trace w) r = Responds resp /\
                     json_body resp = Some out /\
                     json_contains "error" out = Some false)).
Proof.
  intros Hl.
  pose proof (locked_section_never_blocks w) as Hnb. rewrite Hl in Hnb.
  revert Hl.
  unfold locked_section, bind, incr_nonce, attach_nonce, attach_headers,
    session_request.
  cbn -[_handleResponse transport request_of].
  destruct (secret (self w)) as [sec|];
    [|intros [= <- <-]; cbn;
      split; [reflexivity|]; split; [reflexivity|]; split; [reflexivity|];
      split; [discriminate|]; left; split; [reflexivity|discriminate]].
  destruct hmac_accepts_str;
    [|intros [= <- <-]; cbn;
      split; [reflexivity|]; split; [reflexivity|]; split; [reflexivity|];
      split; [discriminate|]; left; split; [reflexivity|discriminate]].
  cbn -[_handleResponse transport request_of].
  match goal with
  | |- context [transport ?tr ?r] =>
      destruct (transport tr r) as [resp|e] eqn:Hreply
  end; cbn -[_handleResponse transport request_of].
  - match goal with
    | |- context [_handleResponse resp ?w0] =>
        destruct (_handleResponse resp w0) as [oh wh] eqn:Hh;
        pose proof (handle_frame _ _ _ _ Hh) as Hfr
    end.
    intros [= <- <-].
    assert (Hret : forall out, oh = Return out ->
              json_body resp = Some out /\ json_contains "error" out = Some false).
    { intros out ->. destruct (handle_returns _ _ _ _ Hh) as (Hb & Hno & _). auto. }
    destruct Hfr as [->|(kvs & e & n & _ & _ & _ & _ & _ & ->)];
      cbn -[request_of transport];
      (split; [reflexivity|]); (split; [reflexivity|]); (split; [reflexivity|]);
      (split; [exact Hnb|]);
      right; eexists; (split; [reflexivity|]);
      intros out Ho; exists resp; (split; [exact Hreply|]); apply Hret; exact Ho.
  - intros [= <- <-]. cbn -[request_of transport].
    split; [reflexivity|]. split; [reflexivity|]. split; [reflexivity|].
    split; [discriminate|].
    right. eexists. split; [reflexivity|]. intros out [=].
Qed.

Lemma private_request_effect w o w' :
  PoloniexPrivateAPI__make_request w = (o, w') -> attempt_effect w o w'.
Proof.
  unfold PoloniexPrivateAPI__make_request, bind, bind_data, with_, coach_enter,
    coach_exit, lock_enter, lock_exit, RateLimit.__exit__, RateLimit.__enter__.
  cbn -[locked_section RateLimit.wait].
  destruct (RateLimit.wait (coach w)) as [og c] eqn:Hgate.
  destruct (wait_effect _ _ _ Hgate) as (Ht & Hi & Hv).
  assert (Htaken : og = Return tt ->
            timer c = timer (coach w) /\
            initial_value (semaphore c) = initial_value (semaphore (coach w)) /\
            value (semaphore (coach w)) = value (semaphore c) + 1).
  { intros ->. destruct Hv as [[_ Hv]|[Hx _]]; [auto|congruence]. }
  destruct og as [[]|e|]; cbn -[locked_section].
  - destruct (nonce_lock w) as [[]|] eqn:Hlock; cbn -[locked_section].
    + intros [= <- <-]. split; [reflexivity|]. split; [cbn; auto|].
      exists [EAcquire]. split; [reflexivity|]. split; [constructor|].
      destruct (Htaken eq_refl) as (Ht' & Hi' & Hv').
      repeat (split; [assumption|]). intros out [=].
    + match goal with
      | |- context [locked_section ?w0] =>
          destruct (locked_section w0) as [ol wl] eqn:Hl;
          destruct (locked_section_effect _ _ _ Hl) as (Hs & _ & Hco & Hnb & Htr)
      end.
      cbn in Hs, Hco, Htr.
      assert (Hres : attempt_effect w ol (set_coach (coach wl) (set_nonce_lock (Some false) wl))).
      { split; [exact Hs|]. split; [cbn; auto|].
        destruct Htr as [[Htr Hno]|(r & Htr & Hret)].
        - exists [EAcquire]. split; [exact Htr|]. split; [constructor|].
          destruct (Htaken eq_refl) as (Ht' & Hi' & Hv').
          cbn [coach set_coach]. rewrite Hco.
          repeat (split; [assumption|]).
          intros out ->. exfalso. exact (Hno out eq_refl).
        - exists [EAcquire; ESend r].
          split; [cbn; rewrite Htr, <- app_assoc; reflexivity|].
          split; [constructor|].
          destruct (Htaken eq_refl) as (Ht' & Hi' & Hv').
          cbn [coach set_coach]. rewrite Hco.
          repeat (split; [assumption|]).
          intros out Ho. destruct (Hret out Ho) as (resp & Hreply & Hb & Hno).
          exists r, resp. auto. }
      destruct ol as [a|e|]; [| |exfalso; apply Hnb; reflexivity];
        intros [= <- <-]; exact Hres.
    + intros [= <- <-]. split; [reflexivity|]. split; [cbn; auto|].
      exists [EAcquire]. split; [reflexivity|]. split; [constructor|].
      destruct (Htaken eq_refl) as (Ht' & Hi' & Hv').
      repeat (split; [assumption|]). intros out [=].
  - intros [= <- <-]. apply (gate_refused_effect w _ c _ Ht Hi Hv); discriminate.
  - intros [= <- <-]. apply (gate_refused_effect w _ c _ Ht Hi Hv); discriminate.
Qed.

Lemma nothing_done_effect w e : attempt_effect w (Raise e) w.
Proof.
  split; [reflexivity|]. split; [reflexivity|].
  exists []. split; [rewrite app_nil_r; reflexivity|]. split; [constructor|].
  cbn. repeat split; try lia. intros out [=].
Qed.

Lemma make_request_effect w o w' :
  _make_request w = (o, w') -> attempt_effect w o w'.
Proof.
  unfold _make_request, Poloniex__make_request.
  destruct (cls (self w)).
  - intros [= <- <-]. apply nothing_done_effect.
  - apply public_request_effect.
  - apply private_request_effect.
  - destruct (args w !! "command") as [[c|z]|].
    + destruct (PyStr.in_list c Commands.private);
        [apply private_request_effect|apply public_request_effect].
    + apply public_request_effect.
    + intros [= <- <-]. apply nothing_done_effect.
Qed.

End AttemptEffect.

(* --------------------------------------------------------------------- *)
(** ** A whole call *)
(* --------------------------------------------------------------------- *)

Lemma permits_taken_app tr1 tr2 :
  permits_taken (tr1 ++ tr2) = permits_taken tr1 + permits_taken tr2.
Proof. unfold permits_taken. rewrite flat_map_app, length_app. reflexivity. Qed.

Lemma requests_sent_app tr1 tr2 :
  requests_sent (tr1 ++ tr2) = requests_sent tr1 ++ requests_sent tr2.
Proof. apply flat_map_app. Qed.

Lemma delays_slept_app tr1 tr2 :
  delays_slept (tr1 ++ tr2) = delays_slept tr1 ++ delays_slept tr2.
Proof. apply flat_map_app. Qed.

Lemma attempt_events_counts more :
  attempt_events more ->
  delays_slept more = [] /\
  length (requests_sent more) <= permits_taken more /\ permits_taken more <= 1.
Proof. intros []; cbn; repeat split; lia. Qed.

Section CallEffect.

Context `{External}.

Lemma call_effect_of_attempt delays w o w' :
  attempt_effect w o w' ->
  (forall a, o <> Return a) \/ (exists a, o = Return a) ->
  forall o' : outcome (option json),
    (forall x, o' = Return x -> exists a, o = Return a /\ x = Some a) ->
    call_effect delays w o' w'.
Proof.
  intros (Hs & Hl & more & Htr & Hev & Ht & Hi & Hv & Hret) _ o' Ho'.
  destruct (attempt_events_counts more Hev) as (Hsl & Hreq & Hper).
  split; [exact Hs|]. split; [exact Hl|].
  exists more. split; [exact Htr|]. rewrite Hsl.
  split; [apply prefix_nil|]. split; [exact Hreq|]. split; [cbn; lia|].
  split; [exact Ht|]. split; [exact Hi|]. split; [exact Hv|].
  intros x Hx. right. destruct (Ho' x Hx) as (a & -> & ->).
  destruct (Hret a eq_refl) as (r & resp & -> & Hreply & Hb & Hno).
  exists a, (trace w ++ [EAcquire]), r, resp.
  split; [reflexivity|]. split; [rewrite Htr, <- app_assoc; reflexivity|]. auto.
Qed.

Lemma retrying_loop_effect (func : M json) :
  (forall w o w', func w = (o, w') -> attempt_effect w o w') ->
  forall delays w o w',
    retrying_loop func delays w = (o, w') -> call_effect delays w o w'.
Proof.
  intros Hfunc. induction delays as [|delay rest IH]; intros w o w'.
  - intros [= <- <-]. split; [reflexivity|]. split; [reflexivity|].
    exists []. rewrite app_nil_r. cbn.
    split; [reflexivity|]. split; [apply prefix_nil|].
    repeat (split; [lia || reflexivity|]).
    intros x [= <-]. left. split; [reflexivity|]. intros [].
  - cbn [retrying_loop].
    destruct (func w) as [o1 w1] eqn:Hf. pose proof (Hfunc _ _ _ Hf) as Heff.
    destruct o1 as [a|e|].
    + intros [= <- <-]. apply (call_effect_of_attempt _ _ _ _ Heff); [eauto|].
      intros x [= <-]. eauto.
    + destruct e;
        try (intros [= <- <-];
             apply (call_effect_of_attempt _ _ _ _ Heff);
             [left; discriminate|intros x; discriminate]).
      destruct delay as [d|];
        [|intros [= <- <-];
          apply (call_effect_of_attempt _ _ _ _ Heff);
          [left; discriminate|intros x; discriminate]].
      unfold bind, sleep. intros Hloop.
      destruct Heff as (Hs & Hl & more1 & Htr1 & Hev & Ht1 & Hi1 & Hv1 & _).
      destruct (attempt_events_counts more1 Hev) as (Hsl1 & Hreq1 & Hper1).
      destruct (IH _ _ _ Hloop)
        as (Hs2 & Hl2 & more2 & Htr2 & Hpre & Hreq2 & Hper2 & Ht2 & Hi2 & Hv2 & Hret).
      cbn [self nonce_lock coach trace log_event] in Hs2, Hl2, Htr2, Ht2, Hi2, Hv2.
      split; [congruence|]. split; [congruence|].
      exists (more1 ++ [ESleep d] ++ more2).
      split; [rewrite Htr2, Htr1, <- !app_assoc; reflexivity|].
      rewrite !delays_slept_app, !requests_sent_app, !permits_taken_app, Hsl1.
      rewrite !length_app. cbn [delays_slept requests_sent permits_taken flat_map
        app length map].
      split; [apply prefix_cons; exact Hpre|].
      split; [lia|]. split; [lia|].
      split; [congruence|]. split; [congruence|]. split; [lia|].
      intros x Hx. destruct (Hret x Hx) as [[-> Hno]|Hsome].
      * left. split; [reflexivity|]. intros [Hin|Hin]; [discriminate|auto].
      * right. exact Hsome.
    + intros [= <- <-]. apply (call_effect_of_attempt _ _ _ _ Heff);
        [left; discriminate|intros x; discriminate].
Qed.

Lemma retry_make_request_effect w o w' :
  _retry _make_request w = (o, w') ->
  call_effect (map Some (retries (self w)) ++ [None]) w o w'.
Proof. apply retrying_loop_effect. exact make_request_effect. Qed.

End CallEffect.

Lemma prefix_map_Some (sl rs : list N) :
  map Some sl `prefix_of` map Some rs ++ [None] -> sl `prefix_of` rs.
Proof.
  revert rs. induction sl as [|a sl IH]; intros rs Hpre; [apply prefix_nil|].
  destruct rs as [|b rs]; cbn in Hpre.
  - apply prefix_cons_inv_1 in Hpre. discriminate.
  - pose proof (prefix_cons_inv_1 _ _ _ _ Hpre) as [= ->].
    apply prefix_cons, IH. exact (prefix_cons_inv_2 _ _ _ _ Hpre).
Qed.

Section Calls.

Context `{External}.

(** What [__call__] does on a client of any class, seen from the world it
    started in. *)
Lemma call_effect_of_call command kwargs w o w' :
  __call__ command kwargs w = (o, w') ->
  call_effect (map Some (retries (self w)) ++ [None]) w o w'.
Proof.
  rewrite call_unfold.
  assert (Hkey : call_effect (map Some (retries (self w)) ++ [None]) w
                   (Raise KeyError)
                   (set_args (<["command" := VStr command]> kwargs) w)).
  { split; [reflexivity|]. split; [reflexivity|].
    exists []. cbn. rewrite app_nil_r.
    split; [reflexivity|]. split; [apply prefix_nil|].
    repeat (split; [lia || reflexivity|]). intros x [=]. }
  destruct (cls (self w));
    try (intros [= <- <-]; exact Hkey);
    intros Hcall; exact (retry_make_request_effect _ _ _ Hcall).
Qed.

(** X2: whatever the class of the client, the arguments and the answers of
    the server, a call sleeps only delays of [self.retries], from the first
    on and in order; it takes at most one permit per attempt, attempts once
    more than it sleeps, and never sends a request without having taken a
    permit for it: at most [len(self.retries) + 1] requests leave. *)
Theorem call_keeps_to_the_retry_budget
    (w : world) (command : string) (kwargs : gmap string argval) :
  exists more,
    trace (snd (__call__ command kwargs w)) = trace w ++ more /\
    delays_slept more `prefix_of` retries (self w) /\
    length (requests_sent more) <= permits_taken more /\
    permits_taken more <= length (delays_slept more) + 1 /\
    length (requests_sent more) <= length (retries (self w)) + 1.
Proof.
  destruct (__call__ command kwargs w) as [o w'] eqn:Hcall.
  destruct (call_effect_of_call _ _ _ _ _ Hcall)
    as (_ & _ & more & Htr & Hpre & Hreq & Hper & _).
  apply prefix_map_Some in Hpre.
  exists more. split; [exact Htr|]. split; [exact Hpre|].
  split; [exact Hreq|]. split; [lia|].
  apply prefix_length in Hpre. lia.
Qed.

Lemma step_effect w op :
  self (History.step w op) = self w /\
  nonce_lock (History.step w op) = nonce_lock w /\
  timer (coach (History.step w op)) = timer (coach w) /\
  initial_value (semaphore (coach (History.step w op))) =
    initial_value (semaphore (coach w)) /\
  length (requests_sent (trace (History.step w op))) +
    value (semaphore (coach (History.step w op))) <=
  length (requests_sent (trace w)) + value (semaphore (coach w)) +
    refills [op] * initial_value (semaphore (coach w)).
Proof.
  destruct op as [command kwargs|]; cbn [History.step].
  - destruct (__call__ command kwargs w) as [o w'] eqn:Hcall. cbn [snd].
    destruct (call_effect_of_call _ _ _ _ _ Hcall)
      as (Hs & Hl & more & Htr & _ & Hreq & _ & Ht & Hi & Hv & _).
    repeat (split; [assumption|]).
    rewrite Htr, requests_sent_app, length_app. lia.
  - unfold refills. cbn -[requests_sent]. repeat (split; [reflexivity|]). lia.
Qed.

Lemma refills_cons op ops : refills (op :: ops) = refills [op] + refills ops.
Proof. unfold refills. destruct op; cbn; lia. Qed.

Lemma run_effect ops : forall w,
  self (History.run ops w) = self w /\
  nonce_lock (History.run ops w) = nonce_lock w /\
  timer (coach (History.run ops w)) = timer (coach w) /\
  initial_value (semaphore (coach (History.run ops w))) =
    initial_value (semaphore (coach w)) /\
  length (requests_sent (trace (History.run ops w))) +
    value (semaphore (coach (History.run ops w))) <=
  length (requests_sent (trace w)) + value (semaphore (coach w)) +
    refills ops * initial_value (semaphore (coach w)).
Proof.
  induction ops as [|op ops IH]; intros w.
  - cbn. repeat (split; [reflexivity|]). lia.
  - cbn [History.run fold_left].
    destruct (step_effect w op) as (Hs1 & Hl1 & Ht1 & Hi1 & Hb1).
    destruct (IH (History.step w op)) as (Hs2 & Hl2 & Ht2 & Hi2 & Hb2).
    unfold History.run in *.
    split; [congruence|]. split; [congruence|]. split; [congruence|].
    split; [congruence|].
    rewrite (refills_cons op ops). rewrite Hi1 in Hb2. nia.
Qed.

(** X3: over every history of calls and firings of the gate's callback, on
    a client of any class and whatever the server answers, the requests sent
    plus the permits left never exceed the requests sent before plus the
    permits there were plus [callLimit] (the capacity) for each firing: a
    request leaves only against a permit, and permits come back only by the
    callback.  The permit pool is the spec's ([Semaphore] is not among the
    sources). *)
Theorem requests_never_exceed_permits (ops : list History.op) (w : world) :
  let w' := History.run ops w in
  length (requests_sent (trace w')) + value (semaphore (coach w')) <=
  length (requests_sent (trace w)) + value (semaphore (coach w)) +
    refills ops * initial_value (semaphore (coach w)).
Proof. intros w'. exact (proj2 (proj2 (proj2 (proj2 (run_effect ops w))))). Qed.

(** X4: a call leaves the lock, the timer and the client as it found them,
    whether it returned, raised or was retried, and so does every history
    of calls and callback firings: a lock taken in
    [with self.nonce_lock:] is released on every way out of the block, no
    call starts the timer, and no call changes the credentials, the timeout
    or the delays. *)
Theorem calls_release_the_lock (ops : list History.op) (w : world) :
  let w' := History.run ops w in
  nonce_lock w' = nonce_lock w /\
  timer (coach w') = timer (coach w) /\
  self w' = self w.
Proof.
  intros w'. destruct (run_effect ops w) as (Hs & Hl & Ht & _). auto.
Qed.

(** X5: a call never returns [None], and what it returns is the decoded
    body of the response to the last request it sent, which has no [error]
    member: the [for] loop of [retrying] is never left by falling through,
    and [_handleResponse] returns only bodies without an error. *)
Theorem call_returns_error_free_body
    (w : world) (command : string) (kwargs : gmap string argval)
    (x : option json) (w' : world) :
  __call__ command kwargs w = (Return x, w') ->
  exists out tr r resp,
    x = Some out /\
    trace w' = tr ++ [ESend r] /\
    transport tr r = Responds resp /\
    json_body resp = Some out /\
    json_contains "error" out = Some false.
Proof.
  intros Hcall.
  destruct (call_effect_of_call _ _ _ _ _ Hcall)
    as (_ & _ & more & _ & _ & _ & _ & _ & _ & _ & Hret).
  destruct (Hret x eq_refl) as [[_ Hno]|Hsome]; [|exact Hsome].
  exfalso. apply Hno. apply in_or_app. right. left. reflexivity.
Qed.

End Calls.

Lemma call_returns_error_free_body_witness :
  let E := Examples.env [Fails (RequestException "timed out")]
             (Responds (Examples.body Examples.balances)) in
  let res := @__call__ E "returnTicker" ∅ Examples.public_client in
  res = (Return (Some Examples.balances), snd res) /\
  exists out tr r resp,
    Some Examples.balances = Some out /\
    trace (snd res) = tr ++ [ESend r] /\
    @transport E tr r = Responds resp /\
    json_body resp = Some out /\
    json_contains "error" out = Some false.
Proof.
  intros E res.
  assert (Hres : res = (Return (Some Examples.balances), snd res))
    by (vm_compute; reflexivity).
  split; [exact Hres|].
  exact (@call_returns_error_free_body E Examples.public_client "returnTicker" ∅
           _ _ Hres).
Defined.

(* --------------------------------------------------------------------- *)
(** ** The first attempt of a call *)
(* --------------------------------------------------------------------- *)

Lemma retry_returns {A} (func : M A) w a w' :
  func w = (Return a, w') -> _retry func w = (Return (Some a), w').
Proof.
  intros Hf. unfold _retry.
  destruct (retries (self w)); simpl; rewrite Hf; reflexivity.
Qed.

Lemma handle_success `{External} resp w out :
  json_body resp = Some out ->
  json_contains "error" out = Some false ->
  _handleResponse resp w = (Return out, w).
Proof. intros Hb Hno. unfold _handleResponse. rewrite Hb, Hno. reflexivity. Qed.

Lemma handle_malformed_nonce_error `{External} resp w kvs e x :
  json_body resp = Some (JObject kvs) ->
  json_getitem "error" (JObject kvs) = Ok (JString e) ->
  PyStr.contains "Nonce must be greater" e = true ->
  reported_nonce e = Error x ->
  _handleResponse resp w = (Raise x, w).
Proof.
  intros Hb Hget Hin Hn. unfold _handleResponse.
  rewrite Hb, (getitem_contains _ _ _ Hget), Hget.
  cbn [json_contains]. rewrite Hin, Hn. reflexivity.
Qed.

Lemma reported_nonce_error e x :
  reported_nonce e = Error x -> x = ValueError \/ x = IndexError.
Proof.
  unfold reported_nonce.
  destruct (PyStr.last_item _) as [tok|]; [|intros [= <-]; auto].
  destruct (PyStr.py_int tok); [discriminate|intros [= <-]; auto].
Qed.

Section FirstAttempt.

Context `{External}.

(** The first attempt of a call on a [PoloniexPrivateAPI] client that has a
    free lock, a secret, a timer that is not running and a permit. *)
Lemma first_private_attempt w command kwargs sec p :
  cls (self w) = PoloniexPrivateAPI ->
  nonce_lock w = Some false ->
  secret (self w) = Some sec ->
  hmac_accepts_str = true ->
  ident (timer (coach w)) = None ->
  value (semaphore (coach w)) = S p ->
  let wc := call_frame PoloniexPrivateAPI_REQEUST_URL command kwargs w in
  let r := signed_request (self w) sec
             (<["nonce" := VInt (_nonce w + 1)]> (<["command" := VStr command]> kwargs)) in
  let ws := log_event (ESend r) (before_send wc sec p) in
  _make_request wc =
    match transport (trace w ++ [EAcquire]) r with
    | Responds resp =>
        (fst (_handleResponse resp ws),
         set_nonce_lock (Some false) (snd (_handleResponse resp ws)))
    | Fails e => (Raise e, set_nonce_lock (Some false) ws)
    end.
Proof.
  intros Hcls Hlock Hsec Hsign Hid Hval wc r ws.
  unfold _make_request. replace (cls (self wc)) with PoloniexPrivateAPI
    by (symmetry; exact Hcls).
  rewrite (private_attempt wc sec p Hlock Hsec Hsign Hid Hval). reflexivity.
Qed.

(** The first attempt of a call on a [PoloniexPublicAPI] client whose gate
    has a timer that is not running and a permit. *)
Lemma first_public_attempt w command kwargs p :
  cls (self w) = PoloniexPublicAPI ->
  ident (timer (coach w)) = None ->
  value (semaphore (coach w)) = S p ->
  let wc := call_frame PoloniexPublicAPI_REQEUST_URL command kwargs w in
  let r := unsigned_request (self w) (<["command" := VStr command]> kwargs) in
  let c := {| semaphore := {| value := p;
                              initial_value := initial_value (semaphore (coach w)) |};
              timer := timer (coach w) |} in
  let ws := log_event (ESend r) (log_event EAcquire (set_coach c
              (set_payload {| p_timeout := timeout (self w);
                              p_url := PoloniexPublicAPI_REQEUST_URL;
                              p_params := true; p_data := false;
                              p_headers := None |} wc))) in
  _make_request wc =
    match transport (trace w ++ [EAcquire]) r with
    | Responds resp => _handleResponse resp ws
    | Fails e => (Raise e, ws)
    end.
Proof.
  intros Hcls Hid Hval wc r c ws.
  unfold _make_request. replace (cls (self wc)) with PoloniexPublicAPI
    by (symmetry; exact Hcls).
  unfold PoloniexPublicAPI__make_request, bind, bind_params, with_, coach_enter,
    coach_exit, session_request, RateLimit.__exit__, RateLimit.__enter__.
  cbn -[_handleResponse transport request_of RateLimit.wait].
  rewrite (wait_unstarted _ Hid), Hval.
  cbn -[_handleResponse transport].
  change (transport _ _) with (transport (trace w ++ [EAcquire]) r).
  destruct (transport (trace w ++ [EAcquire]) r) as [resp|e]; [|reflexivity].
  change (_handleResponse resp _) with (_handleResponse resp ws).
  pose proof (handle_never_blocks resp ws) as Hnb.
  destruct (_handleResponse resp ws) as [[a|e|] wh] eqn:Hh;
    [| |exfalso; apply Hnb; reflexivity].
  - destruct (handle_frame _ _ _ _ Hh) as [->|(kvs & e & n & _ & _ & _ & _ & _ & ->)];
      reflexivity.
  - destruct (handle_frame _ _ _ _ Hh) as [->|(kvs & e0 & n & _ & _ & _ & _ & _ & ->)];
      reflexivity.
Qed.

End FirstAttempt.

Section Answers.

Context `{External}.

(** X6: a call on a [PoloniexPublicAPI] client whose gate has a permit (and
    a timer that is not running) takes that permit and sends one request: a
    [get] to the public URL with the client's timeout, whose [params] are
    the keyword arguments together with [command], and with neither [data]
    nor [headers]; this for every command name, listed in [COMMANDS] or not.
    When the server answers with a body that has no [error] member, the call
    returns that body after this single request, with no sleep, and leaves
    the stored nonce and the lock untouched. *)
Theorem public_call_returns_the_body
    (w : world) (command : string) (kwargs : gmap string argval) (p : nat)
    (resp : response) (out : json) :
  cls (self w) = PoloniexPublicAPI ->
  ident (timer (coach w)) = None ->
  value (semaphore (coach w)) = S p ->
  let r := {| r_method := "get";
              r_url := "http://poloniex.com/public";
              r_timeout := timeout (self w);
              r_params := Some (<["command" := VStr command]> kwargs);
              r_data := None;
              r_headers := None |} in
  transport (trace w ++ [EAcquire]) r = Responds resp ->
  json_body resp = Some out ->
  json_contains "error" out = Some false ->
  exists w',
    __call__ command kwargs w = (Return (Some out), w') /\
    trace w' = trace w ++ [EAcquire; ESend r] /\
    value (semaphore (coach w')) = p /\
    _nonce w' = _nonce w /\
    nonce_lock w' = nonce_lock w.
Proof.
  intros Hcls Hid Hval r Hreply Hbody Hno.
  pose proof (first_public_attempt w command kwargs p Hcls Hid Hval) as Hfirst.
  cbv zeta in Hfirst.
  change (unsigned_request (self w) (<["command" := VStr command]> kwargs))
    with r in Hfirst.
  rewrite Hreply, (handle_success _ _ _ Hbody Hno) in Hfirst.
  eexists. split.
  - rewrite call_unfold, Hcls. exact (retry_returns _ _ _ _ Hfirst).
  - cbn. rewrite <- app_assoc. auto.
Qed.

(** X7: on an interpreter whose [hmac.new] signs text (Python 2; with that
    of Python 3 the call raises [TypeError] instead), a call on a
    [PoloniexPrivateAPI] client with a free lock, a secret, a permit and a
    timer that is not running takes the permit and the lock,
    raises the stored nonce by one and sends one request: a [post] to the
    trading URL whose [data] are the keyword arguments with [command] and
    the new nonce (a [nonce] among the keyword arguments is overwritten),
    signed with the secret over the encoding of exactly these data, with
    the key in the [Key] header.  When the server answers with a body that
    has no [error] member, the call returns that body after this single
    request, the lock is free again and the stored nonce is the one sent. *)
Theorem private_call_returns_the_body
    (w : world) (command : string) (kwargs : gmap string argval)
    (sec : string) (p : nat) (resp : response) (out : json) :
  cls (self w) = PoloniexPrivateAPI ->
  nonce_lock w = Some false ->
  secret (self w) = Some sec ->
  hmac_accepts_str = true ->
  ident (timer (coach w)) = None ->
  value (semaphore (coach w)) = S p ->
  let a := <["nonce" := VInt (_nonce w + 1)]> (<["command" := VStr command]> kwargs) in
  let r := {| r_method := "post";
              r_url := "http://poloniex.com/tradingApi";
              r_timeout := timeout (self w);
              r_params := None;
              r_data := Some a;
              r_headers := Some {| Sign := hmac_sha512_hexdigest sec (urlencode a);
                                   Key := key (self w) |} |} in
  transport (trace w ++ [EAcquire]) r = Responds resp ->
  json_body resp = Some out ->
  json_contains "error" out = Some false ->
  exists w',
    __call__ command kwargs w = (Return (Some out), w') /\
    trace w' = trace w ++ [EAcquire; ESend r] /\
    value (semaphore (coach w')) = p /\
    _nonce w' = (_nonce w + 1)%Z /\
    data_nonce r = Some (_nonce w + 1)%Z /\
    nonce_lock w' = Some false.
Proof.
  intros Hcls Hlock Hsec Hsign Hid Hval a r Hreply Hbody Hno.
  pose proof (first_private_attempt w command kwargs sec p Hcls Hlock Hsec Hsign
                Hid Hval) as Hfirst.
  cbv zeta in Hfirst.
  change (signed_request (self w) sec
            (<["nonce" := VInt (_nonce w + 1)]> (<["command" := VStr command]> kwargs)))
    with r in Hfirst.
  rewrite Hreply, (handle_success _ _ _ Hbody Hno) in Hfirst.
  eexists. split.
  - rewrite call_unfold, Hcls. exact (retry_returns _ _ _ _ Hfirst).
  - cbn. rewrite <- app_assoc. repeat split.
    unfold data_nonce, r, a. cbn [r_data]. rewrite lookup_insert_eq. reflexivity.
Qed.

(** X8: when the error text of a response contains "Nonce must be greater"
    but the last word before its first full stop is not an integer for
    [int] (or there is no word there), [_handleResponse] raises the
    [ValueError] of [int] (or the [IndexError] of [[-1]]) before it gets to
    its [RequestException], on a client of any class: the stored nonce is
    not assigned.  The call of a [PoloniexPublicAPI] client that gets such
    a response ends with that exception after this one request, without a
    sleep and without a retry. *)
Theorem malformed_nonce_error_is_not_retried
    (w : world) (command : string) (kwargs : gmap string argval)
    (p : nat) (resp : response) (kvs : list (string * json))
    (e : string) (x : exn) :
  cls (self w) = PoloniexPublicAPI ->
  ident (timer (coach w)) = None ->
  value (semaphore (coach w)) = S p ->
  let r := {| r_method := "get";
              r_url := "http://poloniex.com/public";
              r_timeout := timeout (self w);
              r_params := Some (<["command" := VStr command]> kwargs);
              r_data := None;
              r_headers := None |} in
  transport (trace w ++ [EAcquire]) r = Responds resp ->
  json_body resp = Some (JObject kvs) ->
  json_getitem "error" (JObject kvs) = Ok (JString e) ->
  PyStr.contains "Nonce must be greater" e = true ->
  reported_nonce e = Error x ->
  (x = ValueError \/ x = IndexError) /\
  (forall w0, _handleResponse resp w0 = (Raise x, w0)) /\
  exists w',
    __call__ command kwargs w = (Raise x, w') /\
    trace w' = trace w ++ [EAcquire; ESend r] /\
    value (semaphore (coach w')) = p /\
    _nonce w' = _nonce w.
Proof.
  intros Hcls Hid Hval r Hreply Hbody Hget Hin Hrep.
  pose proof (reported_nonce_error e x Hrep) as Hx.
  split; [exact Hx|].
  split; [intros w0; exact (handle_malformed_nonce_error _ _ _ _ _ Hbody Hget Hin Hrep)|].
  pose proof (first_public_attempt w command kwargs p Hcls Hid Hval) as Hfirst.
  cbv zeta in Hfirst.
  change (unsigned_request (self w) (<["command" := VStr command]> kwargs))
    with r in Hfirst.
  rewrite Hreply, (handle_malformed_nonce_error _ _ _ _ _ Hbody Hget Hin Hrep) in Hfirst.
  eexists. split.
  - rewrite call_unfold, Hcls. apply (retry_propagates _ _ _ _ Hfirst).
    intros problem. destruct Hx as [-> | ->]; discriminate.
  - cbn. rewrite <- app_assoc. auto.
Qed.

End Answers.

Lemma public_call_returns_the_body_witness :
  let E := Examples.env [] (Responds (Examples.body Examples.balances)) in
  let w := Examples.public_client in
  let r := unsigned_request (self w) (<["command" := VStr "returnTicker"]> ∅) in
  exists w',
    @__call__ E "returnTicker" ∅ w = (Return (Some Examples.balances), w') /\
    trace w' = trace w ++ [EAcquire; ESend r] /\
    value (semaphore (coach w')) = 5 /\
    _nonce w' = _nonce w /\
    nonce_lock w' = nonce_lock w.
Proof.
  intros E w r.
  exact (@public_call_returns_the_body E w "returnTicker" ∅ 5
           (Examples.body Examples.balances) Examples.balances
           eq_refl eq_refl eq_refl eq_refl eq_refl eq_refl).
Defined.

Lemma private_call_returns_the_body_witness :
  let E := Examples.env [] (Responds (Examples.body Examples.balances)) in
  let w := Examples.private_client in
  let r := @signed_request E (self w) "secret"
             (<["nonce" := VInt 12300]> (<["command" := VStr "returnBalances"]> ∅)) in
  exists w',
    @__call__ E "returnBalances" ∅ w = (Return (Some Examples.balances), w') /\
    trace w' = trace w ++ [EAcquire; ESend r] /\
    value (semaphore (coach w')) = 5 /\
    _nonce w' = 12300%Z /\
    data_nonce r = Some 12300%Z /\
    nonce_lock w' = Some false.
Proof.
  intros E w r.
  exact (@private_call_returns_the_body E w "returnBalances" ∅ "secret" 5
           (Examples.body Examples.balances) Examples.balances
           eq_refl eq_refl eq_refl eq_refl eq_refl eq_refl eq_refl eq_refl
           eq_refl).
Defined.

Lemma malformed_nonce_error_is_not_retried_witness :
  let E := Examples.python3
             [Responds (Examples.error_body "Nonce must be greater than before.")]
             (Responds (Examples.body Examples.balances)) in
  let w := Examples.public_client in
  let r := unsigned_request (self w) (<["command" := VStr "returnTicker"]> ∅) in
  exists w',
    @__call__ E "returnTicker" ∅ w = (Raise ValueError, w') /\
    trace w' = trace w ++ [EAcquire; ESend r] /\
    value (semaphore (coach w')) = 5 /\
    _nonce w' = _nonce w.
Proof.
  intros E w r.
  exact (proj2 (proj2
    (@malformed_nonce_error_is_not_retried E w "returnTicker" ∅ 5
       (Examples.error_body "Nonce must be greater than before.")
       [("error", JString "Nonce must be greater than before.")]
       "Nonce must be greater than before." ValueError
       eq_refl eq_refl eq_refl eq_refl eq_refl eq_refl eq_refl eq_refl))).
Defined.

(* --------------------------------------------------------------------- *)
(** ** Every request of a call *)
(* --------------------------------------------------------------------- *)

(** An invariant of the attempts that sleeping keeps is kept by [retrying],
    and what holds of the events of every attempt and of a sleep, and of two
    traces put end to end, holds of the events of the whole. *)
Lemma retrying_loop_invariant {A} (func : M A) (I : world -> Prop)
    (P : list event -> Prop) :
  (forall w o w', I w -> func w = (o, w') ->
                  I w' /\ exists more, trace w' = trace w ++ more /\ P more) ->
  (forall w d, I w -> I (log_event (ESleep d) w)) ->
  P [] -> (forall d, P [ESleep d]) ->
  (forall l1 l2, P l1 -> P l2 -> P (l1 ++ l2)) ->
  forall delays w o w',
    I w -> retrying_loop func delays w = (o, w') ->
    I w' /\ exists more, trace w' = trace w ++ more /\ P more.
Proof.
  intros Hfunc Hsleep Hnil Hd Happ.
  induction delays as [|delay rest IH]; intros w o w' Hw.
  - intros [= _ <-]. split; [exact Hw|]. exists []. rewrite app_nil_r. auto.
  - cbn [retrying_loop]. destruct (func w) as [o1 w1] eqn:Hf.
    destruct (Hfunc _ _ _ Hw Hf) as (Hw1 & more1 & Htr1 & Hp1).
    destruct o1 as [a|e|]; try (intros [= _ <-]; eauto; fail).
    destruct e; try (intros [= _ <-]; eauto; fail).
    destruct delay as [d|]; [|intros [= _ <-]; eauto].
    unfold bind, sleep. intros Hloop.
    destruct (IH _ _ _ (Hsleep _ d Hw1) Hloop) as (Hw' & more2 & Htr2 & Hp2).
    split; [exact Hw'|]. exists (more1 ++ [ESleep d] ++ more2).
    split; [cbn [trace log_event] in Htr2; rewrite Htr2, Htr1, <- !app_assoc; reflexivity|].
    auto.
Qed.

Lemma Forall_requests_sent_app (Q : request -> Prop) l1 l2 :
  Forall Q (requests_sent l1) -> Forall Q (requests_sent l2) ->
  Forall Q (requests_sent (l1 ++ l2)).
Proof. intros H1 H2. rewrite requests_sent_app. apply Forall_app. auto. Qed.

Section Frames.

Context `{External}.

Lemma public_request_frame c a w o w' :
  public_frame c a w ->
  PoloniexPublicAPI__make_request w = (o, w') ->
  public_frame c a w' /\
  exists more, trace w' = trace w ++ more /\
               Forall (eq (unsigned_request c a)) (requests_sent more).
Proof.
  intros (Hs & Ha & Hu & Ht & Hd & Hh).
  destruct w as [c0 n0 l0 co0 a0 [pt pu pp pd ph] tr0].
  cbn in Hs, Ha, Hu, Ht, Hd, Hh. subst c a pu pt pd ph.
  unfold PoloniexPublicAPI__make_request, bind, bind_params, with_, coach_enter,
    coach_exit, session_request, RateLimit.__exit__, RateLimit.__enter__.
  cbn -[_handleResponse transport RateLimit.wait].
  destruct (RateLimit.wait co0) as [[[]|e|] c1];
    cbn -[_handleResponse transport];
    try (intros [= <- <-]; split; [repeat split|];
         exists []; rewrite app_nil_r; split; [reflexivity|constructor]).
  match goal with
  | |- context [transport ?t ?r] => destruct (transport t r) as [resp|e]
  end; cbn -[_handleResponse transport].
  - match goal with
    | |- context [_handleResponse resp ?w0] =>
        destruct (_handleResponse resp w0) as [oh wh] eqn:Hh;
        pose proof (handle_never_blocks resp w0) as Hnb; rewrite Hh in Hnb;
        pose proof (handle_frame _ _ _ _ Hh) as Hfr
    end.
    assert (Hres : public_frame c0 a0 wh /\
              exists more, trace wh = tr0 ++ more /\
                Forall (eq (unsigned_request c0 a0)) (requests_sent more)).
    { destruct Hfr as [->|(kvs & e & n & _ & _ & _ & _ & _ & ->)];
        (split; [repeat split|]);
        exists [EAcquire; ESend (unsigned_request c0 a0)];
        (split; [cbn; rewrite <- app_assoc; reflexivity|]);
        repeat constructor. }
    destruct oh as [x|e|]; [| |exfalso; apply Hnb; reflexivity];
      intros [= <- <-]; exact Hres.
  - intros [= <- <-]. split; [repeat split|].
    exists [EAcquire; ESend (unsigned_request c0 a0)].
    split; [cbn; rewrite <- app_assoc; reflexivity|]. repeat constructor.
Qed.

Lemma private_request_frame c a w o w' :
  private_frame c a w ->
  PoloniexPrivateAPI__make_request w = (o, w') ->
  private_frame c a w' /\
  exists more, trace w' = trace w ++ more /\
               Forall (signed_over_its_body c a) (requests_sent more).
Proof.
  intros (Hs & Ha & Hu & Ht & Hp).
  destruct w as [c0 n0 l0 co0 a0 [pt pu pp pd ph] tr0].
  cbn in Hs, Ha, Hu, Ht, Hp. subst c pu pt pp.
  assert (Hnew : exists n, <["nonce" := VInt (n0 + 1)]> a0 = <["nonce" := VInt n]> a).
  { destruct Ha as [->|[n ->]]; [eauto|].
    exists (n0 + 1)%Z. apply insert_insert_eq. }
  unfold PoloniexPrivateAPI__make_request, locked_section, bind, bind_data, with_,
    coach_enter, coach_exit, lock_enter, lock_exit, incr_nonce, attach_nonce,
    attach_headers, session_request, RateLimit.__exit__, RateLimit.__enter__.
  cbn -[_handleResponse transport RateLimit.wait].
  destruct (RateLimit.wait co0) as [[[]|e|] c1];
    cbn -[_handleResponse transport];
    try (intros [= <- <-]; split; [repeat split; exact Ha|];
         exists []; rewrite app_nil_r; split; [reflexivity|constructor]).
  destruct l0 as [[]|]; cbn -[_handleResponse transport];
    try (intros [= <- <-]; split; [repeat split; exact Ha|];
         exists [EAcquire]; split; [reflexivity|constructor]).
  destruct (secret c0) as [sec|] eqn:Hsec; cbn -[_handleResponse transport];
    [destruct hmac_accepts_str; cbn -[_handleResponse transport];
     [|intros [= <- <-]; split; [repeat split; right; exact Hnew|];
       exists [EAcquire]; split; [reflexivity|constructor]]|].
  - assert (Hsigned : forall r,
              r = signed_request c0 sec (<["nonce" := VInt (n0 + 1)]> a0) ->
              Forall (signed_over_its_body c0 a) (requests_sent [EAcquire; ESend r])).
    { intros r ->. destruct Hnew as [n Hn]. repeat constructor.
      exists sec, n. rewrite Hn. auto. }
    match goal with
    | |- context [transport ?t ?r] => destruct (transport t r) as [resp|e]
    end; cbn -[_handleResponse transport].
    + match goal with
      | |- context [_handleResponse resp ?w0] =>
          destruct (_handleResponse resp w0) as [oh wh] eqn:Hh;
          pose proof (handle_never_blocks resp w0) as Hnb; rewrite Hh in Hnb;
          pose proof (handle_frame _ _ _ _ Hh) as Hfr
      end.
      assert (Hres : private_frame c0 a
                (set_coach (RateLimit.__exit__ (coach wh))
                   (set_nonce_lock (Some false) wh)) /\
              exists more, trace wh = tr0 ++ more /\
                Forall (signed_over_its_body c0 a) (requests_sent more)).
      { destruct Hfr as [->|(kvs & e & n & _ & _ & _ & _ & _ & ->)];
          (split; [repeat split; right; exact Hnew|]);
          (eexists; split; [cbn; rewrite <- app_assoc; reflexivity|]);
          apply Hsigned; reflexivity. }
      destruct oh as [x|e|]; [| |exfalso; apply Hnb; reflexivity];
        intros [= <- <-]; exact Hres.
    + intros [= <- <-]. split; [repeat split; right; exact Hnew|].
      eexists. split; [cbn; rewrite <- app_assoc; reflexivity|].
      apply Hsigned; reflexivity.
  - intros [= <- <-]. split; [repeat split; right; exact Hnew|].
    exists [EAcquire]. split; [reflexivity|constructor].
Qed.

Lemma sleep_keeps_public_frame c a w d :
  public_frame c a w -> public_frame c a (log_event (ESleep d) w).
Proof. intros Hw. exact Hw. Qed.

Lemma sleep_keeps_private_frame c a w d :
  private_frame c a w -> private_frame c a (log_event (ESleep d) w).
Proof. intros Hw. exact Hw. Qed.

Lemma retrying_loop_public delays : forall w,
  cls (self w) = PoloniexPublicAPI ->
  retrying_loop _make_request delays w =
  retrying_loop PoloniexPublicAPI__make_request delays w.
Proof.
  induction delays as [|delay rest IH]; intros w Hcls; [reflexivity|].
  cbn [retrying_loop]. unfold _make_request at 1. rewrite Hcls.
  destruct (PoloniexPublicAPI__make_request w) as [o1 w1] eqn:Hreq.
  destruct o1 as [a|e|]; try reflexivity.
  destruct e; try reflexivity.
  destruct delay as [d|]; [|reflexivity].
  unfold bind, sleep. apply IH. cbn [self log_event].
  destruct (public_request_effect _ _ _ Hreq) as (Hs & _). rewrite Hs. exact Hcls.
Qed.

(** X9: every request a call on a [PoloniexPublicAPI] client sends, the
    first and each retry alike, whatever the server answered in between, is
    the same one: a [get] to the public URL with the client's timeout,
    whose [params] are the keyword arguments with [command], without [data]
    and without [headers] (so with no signature, no key and no nonce). *)
Theorem public_requests_are_unsigned
    (w : world) (command : string) (kwargs : gmap string argval) :
  cls (self w) = PoloniexPublicAPI ->
  let r := {| r_method := "get";
              r_url := "http://poloniex.com/public";
              r_timeout := timeout (self w);
              r_params := Some (<["command" := VStr command]> kwargs);
              r_data := None;
              r_headers := None |} in
  exists more,
    trace (snd (__call__ command kwargs w)) = trace w ++ more /\
    Forall (eq r) (requests_sent more).
Proof.
  intros Hcls r.
  destruct (__call__ command kwargs w) as [o w'] eqn:Hcall. cbn [snd].
  rewrite call_unfold, Hcls in Hcall. unfold _retry in Hcall.
  rewrite retrying_loop_public in Hcall by exact Hcls.
  refine (proj2 (retrying_loop_invariant PoloniexPublicAPI__make_request
            (public_frame (self w) (<["command" := VStr command]> kwargs))
            (fun more => Forall (eq r) (requests_sent more))
            _ _ _ _ _ _ _ _ _ _ Hcall)).
  - intros w0 o0 w0'. apply public_request_frame.
  - intros w0 d. apply sleep_keeps_public_frame.
  - constructor.
  - intros d. constructor.
  - apply Forall_requests_sent_app.
  - repeat split.
Qed.

(** X10: every request a call on a [PoloniexPrivateAPI] client sends, the
    first and each retry alike, is a [post] to the trading URL with the
    client's timeout and without [params], whose [data] are the keyword
    arguments with [command] and one nonce, and whose [Sign] header is the
    digest, under the client's secret, of the encoding of exactly these
    data, with the client's key as [Key]: the signature is always over the
    nonce that is sent, a nonce left in [args] by an earlier attempt or
    given by the caller is replaced, and a client without a secret sends
    nothing. *)
Theorem private_requests_are_signed_over_their_body
    (w : world) (command : string) (kwargs : gmap string argval) :
  cls (self w) = PoloniexPrivateAPI ->
  exists more,
    trace (snd (__call__ command kwargs w)) = trace w ++ more /\
    Forall (fun r =>
              exists sec n,
                secret (self w) = Some sec /\
                let a := <["nonce" := VInt n]> (<["command" := VStr command]> kwargs) in
                r = {| r_method := "post";
                       r_url := "http://poloniex.com/tradingApi";
                       r_timeout := timeout (self w);
                       r_params := None;
                       r_data := Some a;
                       r_headers :=
                         Some {| Sign := hmac_sha512_hexdigest sec (urlencode a);
                                 Key := key (self w) |} |})
           (requests_sent more).
Proof.
  intros Hcls.
  destruct (__call__ command kwargs w) as [o w'] eqn:Hcall. cbn [snd].
  rewrite call_unfold, Hcls in Hcall. unfold _retry in Hcall.
  rewrite retrying_loop_private in Hcall by exact Hcls.
  refine (proj2 (retrying_loop_invariant PoloniexPrivateAPI__make_request
            (private_frame (self w) (<["command" := VStr command]> kwargs))
            (fun more => Forall (signed_over_its_body (self w)
                                   (<["command" := VStr command]> kwargs))
                           (requests_sent more))
            _ _ _ _ _ _ _ _ _ _ Hcall)).
  - intros w0 o0 w0'. apply private_request_frame.
  - intros w0 d. apply sleep_keeps_private_frame.
  - constructor.
  - intros d. constructor.
  - apply Forall_requests_sent_app.
  - repeat split. left. reflexivity.
Qed.

End Frames.

Lemma public_requests_are_unsigned_witness :
  let E := Examples.env [] Examples.down in
  let w := Examples.public_client in
  let r := unsigned_request (self w) (<["command" := VStr "returnTicker"]> ∅) in
  exists more,
    trace (snd (@__call__ E "returnTicker" ∅ w)) = trace w ++ more /\
    Forall (eq r) (requests_sent more).
Proof.
  intros E w r.
  exact (@public_requests_are_unsigned E w "returnTicker" ∅ eq_refl).
Defined.

Lemma private_requests_are_signed_over_their_body_witness :
  let E := Examples.strict_env in
  let w := Examples.private_client in
  exists more,
    trace (snd (@__call__ E "returnBalances" ∅ w)) = trace w ++ more /\
    Forall (signed_over_its_body (self w) (<["command" := VStr "returnBalances"]> ∅))
      (requests_sent more).
Proof.
  intros E w.
  exact (@private_requests_are_signed_over_their_body E w "returnBalances" ∅ eq_refl).
Defined.

(* --------------------------------------------------------------------- *)
(** ** Attribute lookup *)
(* --------------------------------------------------------------------- *)

Section Lookup.

Context `{External}.

(** X11: the three refusals of [__getattr__] are the only ones.  A lookup
    raises [AttributeError(PoloniexError(...))] when the name is not among
    the commands of the client's class, when the client is a
    [PoloniexPrivateAPI] without key or secret, or when it is a [Poloniex]
    without them and the name is a private command; in every other case it
    returns [partial(self, item)], so that [client.item( **kwargs )] is
    [__call__(item, **kwargs)].  Either way the lookup itself changes
    nothing.  On a [Poloniex] client a public command therefore needs no
    credentials, except [returnTradeHistory], which is in both lists and
    is treated as private. *)
Theorem lookup_succeeds_unless_denied
    (w : world) (item : string) (kwargs : gmap string argval) :
  (lookup_denied w item <->
   exists msg,
     __getattr__ item w = (Raise (AttributeError_of (PoloniexError msg)), w)) /\
  (~ lookup_denied w item <->
   __getattr__ item w = (Return item, w) /\
   invoke item kwargs w = __call__ item kwargs w) /\
  (cls (self w) = Poloniex ->
   falsy (key (self w)) || falsy (secret (self w)) = true ->
   (lookup_denied w "returnTradeHistory" /\ ~ lookup_denied w "returnTicker")).
Proof.
  assert (Hcases :
    (lookup_denied w item /\
     exists msg,
       __getattr__ item w = (Raise (AttributeError_of (PoloniexError msg)), w)) \/
    (~ lookup_denied w item /\ __getattr__ item w = (Return item, w))).
  { unfold lookup_denied, __getattr__, Poloniex___getattr__,
      PoloniexPrivateAPI___getattr__, PoloniexAPI___getattr__.
    destruct (cls (self w)) eqn:Hc; cbn [COMMANDS].
    - left. split; [left; reflexivity|]. cbn. eauto.
    - destruct (PyStr.in_list item Commands.public) eqn:Hin.
      + right. split; [|reflexivity].
        intros [Hno|[[Hx _]|[Hx _]]]; discriminate.
      + left. split; [left; reflexivity|eauto].
    - destruct (falsy (key (self w)) || falsy (secret (self w))) eqn:Hcred.
      + left. split; [right; left; auto|eauto].
      + destruct (PyStr.in_list item Commands.private) eqn:Hin.
        * right. split; [|reflexivity].
          intros [Hno|[[_ Hx]|[Hx _]]]; discriminate.
        * left. split; [left; reflexivity|eauto].
    - rewrite in_list_app.
      destruct (PyStr.in_list item Commands.private) eqn:Hpriv.
      + rewrite Hc. cbn [COMMANDS]. rewrite in_list_app, Hpriv, orb_true_r.
        destruct (falsy (key (self w)) || falsy (secret (self w))) eqn:Hcred.
        * left. split; [right; right; auto|eauto].
        * right. split; [|reflexivity].
          intros [Hno|[[Hx _]|(_ & _ & Hx)]]; discriminate.
      + rewrite Hc. cbn [COMMANDS]. rewrite in_list_app, Hpriv, orb_false_r.
        destruct (PyStr.in_list item Commands.public) eqn:Hpub.
        * right. split; [|reflexivity].
          intros [Hno|[[Hx _]|(_ & Hx & _)]]; discriminate.
        * left. split; [left; reflexivity|eauto]. }
  split; [|split].
  - split.
    + intros Hden. destruct Hcases as [[_ Hr]|[Hno _]]; [exact Hr|contradiction].
    + intros [msg Hr]. destruct Hcases as [[Hden _]|[_ Hok]]; [exact Hden|].
      rewrite Hok in Hr. discriminate.
  - split.
    + intros Hno. destruct Hcases as [[Hden _]|[_ Hok]]; [contradiction|].
      split; [exact Hok|]. unfold invoke, bind. rewrite Hok. reflexivity.
    + intros [Hok _] Hden. destruct Hcases as [[_ [msg Hr]]|[Hno _]]; [|contradiction].
      rewrite Hok in Hr. discriminate.
  - intros Hc Hcred. unfold lookup_denied. rewrite Hc, Hcred. split.
    + right; right. repeat split.
    + intros [Hno|[[Hx _]|(_ & Hx & _)]]; discriminate.
Qed.

End Lookup.

(* --------------------------------------------------------------------- *)
(** ** Nonces without gaps *)
(* --------------------------------------------------------------------- *)

Lemma consecutive_app n k1 : forall k2,
  consecutive n (k1 + k2) = consecutive n k1 ++ consecutive (n + Z.of_nat k1) k2.
Proof.
  revert n. induction k1 as [|k1 IH]; intros n k2.
  - cbn. rewrite Z.add_0_r. reflexivity.
  - cbn [Nat.add consecutive app]. rewrite IH. do 3 f_equal. lia.
Qed.

Lemma consumed_and_sent_refl w : consumed_and_sent w w.
Proof.
  split; [reflexivity|]. exists 0. cbn. rewrite Z.add_0_r, app_nil_r. auto.
Qed.

Lemma consumed_and_sent_trans w1 w2 w3 :
  consumed_and_sent w1 w2 -> consumed_and_sent w2 w3 -> consumed_and_sent w1 w3.
Proof.
  intros (Hs1 & k1 & Hn1 & Ht1) (Hs2 & k2 & Hn2 & Ht2).
  split; [congruence|]. exists (k1 + k2).
  split; [lia|]. rewrite Ht2, Ht1, Hn1, consecutive_app, app_assoc. reflexivity.
Qed.

Section Consecutive.

Context `{External}.

Lemma private_request_consecutive sec w o w' :
  never_nonce_error ->
  secret (self w) = Some sec ->
  hmac_accepts_str = true ->
  PoloniexPrivateAPI__make_request w = (o, w') ->
  consumed_and_sent w w'.
Proof.
  intros Hnever Hsec Hsign.
  destruct w as [c0 n0 l0 co0 a0 [pt pu pp pd ph] tr0]. cbn in Hsec.
  assert (Hnone : forall (w1 : world),
            self w1 = c0 -> _nonce w1 = n0 ->
            sent_nonces (trace w1) = sent_nonces tr0 ->
            consumed_and_sent
              {| self := c0; _nonce := n0; nonce_lock := l0; coach := co0;
                 args := a0;
                 payload := {| p_timeout := pt; p_url := pu; p_params := pp;
                               p_data := pd; p_headers := ph |};
                 trace := tr0 |} w1).
  { intros w1 Hs Hn Ht. split; [exact Hs|]. exists 0. cbn.
    rewrite Z.add_0_r, app_nil_r. auto. }
  assert (Hone : forall (w1 : world),
            self w1 = c0 -> _nonce w1 = (n0 + 1)%Z ->
            sent_nonces (trace w1) = sent_nonces tr0 ++ [(n0 + 1)%Z] ->
            consumed_and_sent
              {| self := c0; _nonce := n0; nonce_lock := l0; coach := co0;
                 args := a0;
                 payload := {| p_timeout := pt; p_url := pu; p_params := pp;
                               p_data := pd; p_headers := ph |};
                 trace := tr0 |} w1).
  { intros w1 Hs Hn Ht. split; [exact Hs|]. exists 1. cbn. auto. }
  unfold PoloniexPrivateAPI__make_request, locked_section, bind, bind_data, with_,
    coach_enter, coach_exit, lock_enter, lock_exit, incr_nonce, attach_nonce,
    attach_headers, session_request, RateLimit.__exit__, RateLimit.__enter__.
  cbn -[_handleResponse transport RateLimit.wait].
  destruct (RateLimit.wait co0) as [[[]|e|] c1];
    cbn -[_handleResponse transport];
    try (intros [= <- <-]; apply Hnone; reflexivity).
  destruct l0 as [[]|]; cbn -[_handleResponse transport];
    try (intros [= <- <-]; apply Hnone; cbn;
         rewrite ?sent_nonces_app, ?app_nil_r; reflexivity).
  rewrite Hsec, Hsign. cbn -[_handleResponse transport].
  match goal with
  | |- context [transport ?t ?r] =>
      destruct (transport t r) as [resp|e] eqn:Hreply
  end; cbn -[_handleResponse transport].
  - match goal with
    | |- context [_handleResponse resp ?w0] =>
        destruct (_handleResponse resp w0) as [oh wh] eqn:Hh;
        pose proof (handle_never_blocks resp w0) as Hnb; rewrite Hh in Hnb;
        pose proof (handle_frame _ _ _ _ Hh) as Hfr
    end.
    destruct Hfr as [->|(kvs & e & n & Hb & Hget & Hin & _)].
    + destruct oh as [x|e|]; [| |exfalso; apply Hnb; reflexivity];
        intros [= <- <-]; apply Hone; cbn -[sent_nonces]; try reflexivity;
        rewrite !sent_nonces_app; cbn; rewrite lookup_insert_eq, app_nil_r;
        reflexivity.
    + rewrite (Hnever _ _ _ _ _ Hreply Hb Hget) in Hin. discriminate.
  - intros [= <- <-]. apply Hone; cbn -[sent_nonces]; try reflexivity.
    rewrite !sent_nonces_app. cbn. rewrite lookup_insert_eq, app_nil_r.
    reflexivity.
Qed.

Lemma call_consecutive sec w command kwargs :
  never_nonce_error ->
  cls (self w) = PoloniexPrivateAPI ->
  secret (self w) = Some sec ->
  hmac_accepts_str = true ->
  consumed_and_sent w (snd (__call__ command kwargs w)).
Proof.
  intros Hnever Hcls Hsec Hsign.
  destruct (__call__ command kwargs w) as [o w'] eqn:Hcall. cbn [snd].
  rewrite call_unfold, Hcls in Hcall. unfold _retry in Hcall.
  rewrite retrying_loop_private in Hcall by exact Hcls.
  refine (proj1 (retrying_loop_invariant PoloniexPrivateAPI__make_request
            (fun w1 => consumed_and_sent w w1) (fun _ => True)
            _ _ I (fun _ => I) (fun _ _ _ _ => I) _ _ _ _ _ Hcall)).
  - intros w0 o0 w0' Hw0 Hreq. split.
    + apply (consumed_and_sent_trans _ _ _ Hw0).
      apply (private_request_consecutive sec w0 o0 w0' Hnever);
        [|exact Hsign|exact Hreq].
      rewrite (proj1 Hw0). exact Hsec.
    + destruct (private_request_effect _ _ _ Hreq) as (_ & _ & more & Htr & _).
      eauto.
  - intros w0 d (Hs & k & Hn & Ht). split; [exact Hs|]. exists k.
    split; [exact Hn|]. cbn [trace log_event].
    rewrite sent_nonces_app, app_nil_r. exact Ht.
  - split; [reflexivity|]. exists 0. cbn. rewrite Z.add_0_r, app_nil_r. auto.
Qed.

Lemma run_consecutive sec ops : forall w,
  never_nonce_error ->
  cls (self w) = PoloniexPrivateAPI ->
  secret (self w) = Some sec ->
  hmac_accepts_str = true ->
  consumed_and_sent w (History.run ops w).
Proof.
  induction ops as [|op ops IH]; intros w Hnever Hcls Hsec Hsign;
    [apply consumed_and_sent_refl|].
  cbn [History.run fold_left].
  assert (Hstep : consumed_and_sent w (History.step w op)).
  { destruct op as [command kwargs|]; cbn [History.step].
    - exact (call_consecutive sec w command kwargs Hnever Hcls Hsec Hsign).
    - split; [reflexivity|]. exists 0. cbn. rewrite Z.add_0_r, app_nil_r. auto. }
  apply (consumed_and_sent_trans _ _ _ Hstep).
  apply IH; [exact Hnever| | |exact Hsign]; rewrite (proj1 Hstep); assumption.
Qed.

(** X12: a [PoloniexPrivateAPI] client with a secret, on an interpreter
    whose [hmac.new] signs text (Python 2; that of Python 3 raises
    [TypeError], and then every nonce taken is lost), talks to a
    server that never answers with a nonce error (it may fail, time out, or
    report any other error, and calls may be retried, blocked or refused at
    the lock).  Then over every history of calls and callback firings each
    nonce taken from the counter is sent, and the nonces of the requests
    sent are the integers that follow the starting nonce, one by one: none
    is skipped and none is used twice; the stored nonce is the last one
    sent. *)
Theorem nonces_are_consecutive
    (w : world) (sec : string) (ops : list History.op) :
  never_nonce_error ->
  cls (self w) = PoloniexPrivateAPI ->
  secret (self w) = Some sec ->
  hmac_accepts_str = true ->
  let w' := History.run ops w in
  exists k,
    _nonce w' = (_nonce w + Z.of_nat k)%Z /\
    sent_nonces (trace w') = sent_nonces (trace w) ++ consecutive (_nonce w) k.
Proof.
  intros Hnever Hcls Hsec Hsign w'.
  exact (proj2 (run_consecutive sec ops w Hnever Hcls Hsec Hsign)).
Qed.

End Consecutive.

Lemma flaky_server_never_nonce_error :
  @never_nonce_error
    (Examples.env [Fails (RequestException "timed out");
                   Responds (Examples.error_body "Please try again later.")]
                  (Responds (Examples.body Examples.balances))).
Proof.
  unfold never_nonce_error. cbn [transport Examples.env]. unfold Examples.scripted.
  intros tr r resp kvs e Hreply Hbody Hget.
  destruct (length (List.filter Examples.is_send tr)) as [|[|[|n]]];
    cbn in Hreply; try discriminate;
    injection Hreply as <-; injection Hbody as <-;
    first [discriminate Hget | injection Hget as <-; reflexivity].
Qed.

Lemma nonces_are_consecutive_witness :
  let E := Examples.env [Fails (RequestException "timed out");
                         Responds (Examples.error_body "Please try again later.")]
                        (Responds (Examples.body Examples.balances)) in
  let ops := [History.Call "returnBalances" ∅; History.Tick;
              History.Call "returnOpenOrders" ∅] in
  let w' := @History.run E ops Examples.private_client in
  exists k,
    _nonce w' = (12299 + Z.of_nat k)%Z /\
    sent_nonces (trace w') = consecutive 12299 k.
Proof.
  intros E ops w'.
  exact (@nonces_are_consecutive E Examples.private_client "secret" ops
           flaky_server_never_nonce_error eq_refl eq_refl eq_refl).
Defined.

(** The run of that history: the first call sends 12300 (no answer), 12301
    (try again) and 12302 (served), the second 12303. *)
Example flaky_server_run :
  let E := Examples.env [Fails (RequestException "timed out");
                         Responds (Examples.error_body "Please try again later.")]
                        (Responds (Examples.body Examples.balances)) in
  let ops := [History.Call "returnBalances" ∅; History.Tick;
              History.Call "returnOpenOrders" ∅] in
  sent_nonces (trace (@History.run E ops Examples.private_client))
  = [12300; 12301; 12302; 12303]%Z.
Proof. vm_compute. reflexivity. Qed.

(* --------------------------------------------------------------------- *)
(** ** Concurrent callers: the nonces handed out *)
(* --------------------------------------------------------------------- *)

Lemma consumed_nonces_app l1 l2 :
  consumed_nonces (l1 ++ l2) = consumed_nonces l1 ++ consumed_nonces l2.
Proof. apply flat_map_app. Qed.

Lemma nonces_sent_by_callers_app l1 l2 :
  nonces_sent_by_callers (l1 ++ l2) =
  nonces_sent_by_callers l1 ++ nonces_sent_by_callers l2.
Proof. apply flat_map_app. Qed.

Lemma Forall_lt_le (l : list Z) k k' :
  (k <= k')%Z -> Forall (fun n => (n < k)%Z) l -> Forall (fun n => (n <= k')%Z) l.
Proof.
  intros Hk Hall. eapply Forall_impl; [exact Hall|]. cbn; intros; lia.
Qed.

Lemma Forall_le_lt (l : list Z) k k' :
  (k < k')%Z -> Forall (fun n => (n <= k)%Z) l -> Forall (fun n => (n < k')%Z) l.
Proof.
  intros Hk Hall. eapply Forall_impl; [exact Hall|]. cbn; intros; lia.
Qed.

Lemma increasing_snoc_lt l x :
  increasing l = true -> Forall (fun n => (n < x)%Z) l ->
  increasing (l ++ [x]) = true.
Proof.
  intros Hinc Hall. apply (increasing_snoc l (x - 1)); [exact Hinc| |lia].
  eapply Forall_impl; [exact Hall|]. cbn; intros; lia.
Qed.

Section IssueInvariant.

Context `{External}.

(** What a step of caller [tid] must establish for the invariant of the
    nonces to carry over. *)
Lemma issue_inv_update s tid th th' w' ls :
  threads_inv s ->
  issue_inv s ->
  Threads.threads s !! tid = Some th ->
  let s' := {| Threads.shared := w';
               Threads.threads := <[tid := th']> (Threads.threads s);
               Threads.observed := Threads.observed s ++ ls |} in
  increasing (consumed_nonces (Threads.observed s ++ ls)) = true ->
  Forall (fun n => (n <= _nonce w')%Z) (consumed_nonces (Threads.observed s ++ ls)) ->
  increasing (nonces_sent_by_callers (Threads.observed s ++ ls)) = true ->
  Forall (fun n => (n <= _nonce w')%Z)
         (nonces_sent_by_callers (Threads.observed s ++ ls)) ->
  holds_stored_nonce th' w' ->
  (before_its_send (Threads.t_pc th') = true ->
   Forall (fun n => (n < _nonce w')%Z)
          (nonces_sent_by_callers (Threads.observed s ++ ls))) ->
  (Threads.in_locked_section (Threads.t_pc th) = false ->
   _nonce w' = _nonce (Threads.shared s) /\ nonces_sent_by_callers ls = []) ->
  issue_inv s'.
Proof.
  intros Hinv Hiss Hth s' Hinc Hbound Hsinc Hsbound Hheld Hunsent Hout.
  assert (Hlt : tid < length (Threads.threads s)) by (eapply lookup_lt_Some; eauto).
  assert (Hother : forall t x, t <> tid -> Threads.threads s !! t = Some x ->
            Threads.in_locked_section (Threads.t_pc x) = true ->
            _nonce w' = _nonce (Threads.shared s) /\ nonces_sent_by_callers ls = []).
  { intros t x Hne Hx Hin. apply Hout.
    destruct (Threads.in_locked_section (Threads.t_pc th)) eqn:Hin'; [|reflexivity].
    exfalso. apply Hne. exact (inv_excl s Hinv _ _ _ _ Hx Hth Hin Hin'). }
  constructor; [exact Hinc|exact Hbound|exact Hsinc|exact Hsbound| |].
  - intros t x. cbn [s' Threads.threads Threads.shared].
    destruct (decide (t = tid)) as [->|Hne].
    + rewrite list_lookup_insert_eq by exact Hlt. intros [= <-]. exact Hheld.
    + rewrite list_lookup_insert_ne by congruence. intros Hx.
      pose proof (ii_held s Hiss t x Hx) as Hold.
      unfold holds_stored_nonce in Hold |- *.
      destruct (Threads.t_pc x) eqn:Hpc; try exact I;
        (destruct (Hother t x Hne Hx) as [Hn _]; [rewrite Hpc; reflexivity|];
         rewrite Hn; exact Hold).
  - intros t x. cbn [s' Threads.threads Threads.shared Threads.observed].
    destruct (decide (t = tid)) as [->|Hne].
    + rewrite list_lookup_insert_eq by exact Hlt. intros [= <-]. exact Hunsent.
    + rewrite list_lookup_insert_ne by congruence. intros Hx Hb.
      pose proof (ii_unsent s Hiss t x Hx Hb) as Hold.
      destruct (Hother t x Hne Hx) as [Hn Hls].
      { destruct (Threads.t_pc x); try discriminate Hb; reflexivity. }
      rewrite nonces_sent_by_callers_app, Hls, app_nil_r, Hn. exact Hold.
Qed.

Lemma step_keeps_issue_inv s c :
  History.conforming ->
  threads_inv s -> issue_inv s -> issue_inv (Threads.step s c).
Proof.
  intros Hconf Hinv Hiss. destruct c as [tid|]; cbn [Threads.step].
  2: { destruct Hiss as [Hi Hb Hsi Hsb Hh Hu]. constructor; auto. }
  destruct (Threads.threads s !! tid) as [th|] eqn:Hth; [|exact Hiss].
  destruct (Threads.thread_step tid th (Threads.shared s))
    as [[[th' w'] ls]|] eqn:Hstep; [|exact Hiss].
  pose proof (ii_increasing s Hiss) as Hinc.
  pose proof (ii_bound s Hiss) as Hbound.
  pose proof (ii_sent_increasing s Hiss) as Hsinc.
  pose proof (ii_sent_bound s Hiss) as Hsbound.
  pose proof (ii_held s Hiss tid th Hth) as Hheld.
  pose proof (ii_unsent s Hiss tid th Hth) as Hunsent.
  pose proof (inv_data s Hinv tid th Hth) as Hdata.
  unfold holds_stored_nonce in Hheld.
  destruct th as [pc0 args0 payload0 delays0].
  cbn [Threads.t_pc Threads.t_args Threads.t_payload Threads.t_delays] in *.
  destruct pc0; cbn [data_bound Threads.in_locked_section before_its_send] in *;
    step_cases Hstep;
    apply (issue_inv_update s tid _ _ _ _ Hinv Hiss Hth);
    unfold holds_stored_nonce;
    cbn [Threads.t_pc Threads.t_args Threads.t_payload Threads.shared
         Threads.observed Threads.threads data_bound Threads.in_locked_section
         before_its_send
         p_data nonce_lock _nonce log_event set_coach set_payload set_args
         set_nonce set_nonce_lock args];
    rewrite ?consumed_nonces_app, ?nonces_sent_by_callers_app;
    cbn [consumed_nonces nonces_sent_by_callers flat_map app];
    rewrite ?app_nil_r.
  all: try exact I.
  all: try exact Hinc.
  all: try exact Hbound.
  all: try exact Hsinc.
  all: try exact Hsbound.
  all: try (intros _; split; reflexivity).
  all: try (intros Hf; discriminate Hf).
  all: try exact Hheld.
  all: try (intros _; exact (Hunsent eq_refl)).
  all: try (* handling the response: a conforming server does not bring the
              nonce below the one it was sent *)
    match goal with
    | Hh : _handleResponse _ _ = (_, ?w1) |- Forall _ ?l =>
        assert (Hle : (_nonce (Threads.shared s) <= _nonce w1)%Z);
        [ destruct (handle_frame _ _ _ _ Hh)
            as [->|(kvs & e & n & Hb & Hget & Hin & Hrep & _ & ->)];
          [cbn; lia|];
          destruct Hheld as (tr & r & Hreply & Hr);
          unfold data_nonce in Hr;
          destruct (r_data r) as [a|] eqn:Ha; [|discriminate];
          destruct (a !! "nonce") as [[x|z]|] eqn:Hz; try discriminate;
          injection Hr as ->;
          exact (Hconf _ _ _ _ _ _ _ _ Hreply Hb Hget Hin Hrep Ha Hz)
        | apply (Forall_le_mono _ (_nonce (Threads.shared s))); assumption ]
    end.
  all: try (* sending: the request carries the stored nonce, which is above
              every nonce sent before *)
    match goal with
    | |- context [data_nonce (request_of ?m ?w0)] =>
        assert (Hr : data_nonce (request_of m w0) = Some (_nonce (Threads.shared s)))
          by (unfold data_nonce, request_of;
              cbn [payload args set_payload set_args r_data];
              rewrite (Hdata eq_refl), Hheld; reflexivity);
        rewrite Hr
    end.
  - (* the increment hands out a nonce above all the earlier ones *)
    apply (increasing_snoc _ (_nonce (Threads.shared s))); [assumption|assumption|lia].
  - apply Forall_app. split.
    + apply (Forall_le_mono _ (_nonce (Threads.shared s))); [lia|exact Hbound].
    + repeat constructor. lia.
  - apply (Forall_le_mono _ (_nonce (Threads.shared s))); [lia|exact Hsbound].
  - intros _. apply (Forall_le_lt _ (_nonce (Threads.shared s))); [lia|exact Hsbound].
  - apply lookup_insert_eq.
  - apply increasing_snoc_lt; [exact Hsinc|exact (Hunsent eq_refl)].
  - apply Forall_app. split; [exact Hsbound|]. repeat constructor. lia.
  - (* the response answers a request that carried the stored nonce *)
    eexists _, _. split; [eassumption|].
    unfold data_nonce, request_of.
    cbn [payload args set_payload set_args r_data].
    rewrite (Hdata eq_refl), Hheld. reflexivity.
  - apply increasing_snoc_lt; [exact Hsinc|exact (Hunsent eq_refl)].
  - apply Forall_app. split; [exact Hsbound|]. repeat constructor. lia.
Qed.

Lemma run_keeps_issue_inv schedule : forall s,
  History.conforming ->
  threads_inv s -> issue_inv s -> issue_inv (Threads.run schedule s).
Proof.
  induction schedule as [|c schedule IH]; intros s Hconf Hinv Hiss; [exact Hiss|].
  cbn [Threads.run fold_left].
  apply IH; [exact Hconf|apply step_keeps_threads_inv, Hinv|].
  apply step_keeps_issue_inv; assumption.
Qed.

Lemma start_issue_inv w calls : issue_inv (Threads.start w calls).
Proof.
  constructor; [reflexivity|constructor|reflexivity|constructor| |];
    intros tid th; cbn [Threads.start Threads.threads];
    rewrite list_lookup_fmap;
    (destruct (calls !! tid); [|discriminate]); intros [= <-];
    [exact I|discriminate].
Qed.

(** X13: any number of callers use one [PoloniexPrivateAPI] client, in any
    interleaving of their atomic steps and of refills of the gate, with a
    server whose nonce errors never report a minimum below the nonce of the
    request they answer.  Then the nonces the increment hands out, taken in
    the order in which it hands them out over all callers, increase
    strictly (so no two callers ever get the same nonce), none exceeds the
    stored nonce, and the nonces of the requests, in the order in which
    the requests are handed to the session, increase strictly too. *)
Theorem concurrent_callers_get_increasing_nonces
    (w : world) (calls : list (string * gmap string argval))
    (schedule : list Threads.choice) :
  History.conforming ->
  let s := Threads.run schedule (Threads.start w calls) in
  increasing (consumed_nonces (Threads.observed s)) = true /\
  Forall (fun n => (n <= _nonce (Threads.shared s))%Z)
         (consumed_nonces (Threads.observed s)) /\
  increasing (nonces_sent_by_callers (Threads.observed s)) = true.
Proof.
  intros Hconf s.
  destruct (run_keeps_issue_inv schedule _ Hconf (start_threads_inv w calls)
              (start_issue_inv w calls)) as [Hi Hb Hsi _ _ _].
  auto.
Qed.

End IssueInvariant.

Lemma concurrent_callers_get_increasing_nonces_witness :
  let calls : list (string * gmap string argval) :=
    [("returnBalances", ∅); ("returnOpenOrders", ∅)] in
  let schedule := [Threads.Run 0; Threads.Run 1; Threads.Run 1; Threads.Run 0;
                   Threads.Run 1; Threads.Run 1; Threads.Run 1; Threads.Run 1;
                   Threads.Run 1; Threads.Run 1; Threads.Run 0; Threads.Run 0;
                   Threads.Run 0; Threads.Run 0; Threads.Run 0; Threads.Run 0] in
  let s := @Threads.run Examples.strict_env schedule
             (@Threads.start Examples.private_client calls) in
  increasing (consumed_nonces (Threads.observed s)) = true /\
  Forall (fun n => (n <= _nonce (Threads.shared s))%Z)
         (consumed_nonces (Threads.observed s)) /\
  increasing (nonces_sent_by_callers (Threads.observed s)) = true.
Proof.
  intros calls schedule.
  exact (@concurrent_callers_get_increasing_nonces Examples.strict_env
           Examples.private_client calls schedule strict_server_conforms).
Defined.

(** The run of that schedule: the second caller gets the lock first and
    consumes 12300, is told the minimum 12345; the first caller then
    consumes 12346. *)
Example two_callers_run :
  let calls : list (string * gmap string argval) :=
    [("returnBalances", ∅); ("returnOpenOrders", ∅)] in
  let schedule := [Threads.Run 0; Threads.Run 1; Threads.Run 1; Threads.Run 0;
                   Threads.Run 1; Threads.Run 1; Threads.Run 1; Threads.Run 1;
                   Threads.Run 1; Threads.Run 1; Threads.Run 0; Threads.Run 0;
                   Threads.Run 0; Threads.Run 0; Threads.Run 0; Threads.Run 0] in
  consumed_nonces
    (Threads.observed (@Threads.run Examples.strict_env schedule
                         (@Threads.start Examples.private_client calls)))
  = [12300; 12346]%Z.
Proof. vm_compute. reflexivity. Qed.

(* --------------------------------------------------------------------- *)
(** ** Concurrent callers: a lock that is taken has its holder *)
(* --------------------------------------------------------------------- *)

Section LockHolder.

Context `{External}.

Lemma lock_accounted_update s tid th th' w' ls :
  lock_accounted s ->
  Threads.threads s !! tid = Some th ->
  let s' := {| Threads.shared := w';
               Threads.threads := <[tid := th']> (Threads.threads s);
               Threads.observed := Threads.observed s ++ ls |} in
  (Threads.in_locked_section (Threads.t_pc th') = true /\
   nonce_lock w' = Some true) \/
  (Threads.in_locked_section (Threads.t_pc th') = false /\
   nonce_lock w' = Some false) \/
  (Threads.in_locked_section (Threads.t_pc th) = false /\
   nonce_lock w' = nonce_lock (Threads.shared s)) ->
  lock_accounted s'.
Proof.
  intros Hacc Hth s' Hcase.
  assert (Hlt : tid < length (Threads.threads s)) by (eapply lookup_lt_Some; eauto).
  unfold lock_accounted. cbn [s' Threads.shared Threads.threads].
  destruct Hcase as [[Hin Hl]|[[Hout Hl]|[Hout Hl]]].
  - right. split; [exact Hl|]. exists tid, th'.
    split; [apply list_lookup_insert_eq; exact Hlt|exact Hin].
  - left. exact Hl.
  - rewrite Hl. destruct Hacc as [Hfree|(Hheld & t & x & Hx & Hin)]; [left; exact Hfree|].
    right. split; [exact Hheld|]. exists t, x. split; [|exact Hin].
    rewrite list_lookup_insert_ne; [exact Hx|].
    intros <-. rewrite Hth in Hx. injection Hx as <-. congruence.
Qed.

Lemma step_keeps_lock_accounted s c :
  threads_inv s -> lock_accounted s -> lock_accounted (Threads.step s c).
Proof.
  intros Hinv Hacc. destruct c as [tid|]; cbn [Threads.step]; [|exact Hacc].
  destruct (Threads.threads s !! tid) as [th|] eqn:Hth; [|exact Hacc].
  destruct (Threads.thread_step tid th (Threads.shared s))
    as [[[th' w'] ls]|] eqn:Hstep; [|exact Hacc].
  pose proof (inv_lock s Hinv tid th Hth) as Hlock.
  destruct th as [pc0 args0 payload0 delays0].
  cbn [Threads.t_pc Threads.t_args Threads.t_payload Threads.t_delays] in *.
  destruct pc0; cbn [Threads.in_locked_section] in *;
    step_cases Hstep;
    apply (lock_accounted_update s tid _ _ _ _ Hacc Hth);
    cbn [Threads.t_pc Threads.t_args Threads.t_payload Threads.shared
         Threads.observed Threads.threads Threads.in_locked_section
         nonce_lock log_event set_coach set_payload set_args
         set_nonce set_nonce_lock].
  all: try (right; right; split; reflexivity).
  all: try (right; left; split; reflexivity).
  all: try (left; split; [reflexivity|exact (Hlock eq_refl)]).
  all: try (left; split; reflexivity).
  left. split; [reflexivity|].
  match goal with
  | Hh : _handleResponse _ _ = (_, ?w1) |- nonce_lock ?w1 = _ =>
      destruct (handle_frame _ _ _ _ Hh)
        as [->|(? & ? & ? & _ & _ & _ & _ & _ & ->)]
  end; cbn; exact (Hlock eq_refl).
Qed.

Lemma run_keeps_lock_accounted schedule : forall s,
  threads_inv s -> lock_accounted s -> lock_accounted (Threads.run schedule s).
Proof.
  induction schedule as [|c schedule IH]; intros s Hinv Hacc; [exact Hacc|].
  cbn [Threads.run fold_left].
  apply IH; [apply step_keeps_threads_inv, Hinv|].
  apply step_keeps_lock_accounted; assumption.
Qed.

(** X14: any number of callers use one [PoloniexPrivateAPI] client whose
    lock is free at the start, in any interleaving of their steps and of
    refills of the gate.  At every moment the lock is either free, or taken
    with a caller standing inside [with self.nonce_lock:] (exactly one, by
    the mutual exclusion of the callers): entering the block is the only way the lock is taken, and every
    way out of the block gives it back.  So a caller that finds the lock
    taken at the entry of the block always has another caller inside the
    block to wait for. *)
Theorem a_taken_lock_has_its_holder
    (w : world) (calls : list (string * gmap string argval))
    (schedule : list Threads.choice) :
  nonce_lock w = Some false ->
  let s := Threads.run schedule (Threads.start w calls) in
  (nonce_lock (Threads.shared s) = Some false \/
   (nonce_lock (Threads.shared s) = Some true /\
    exists tid th,
      Threads.threads s !! tid = Some th /\
      Threads.in_locked_section (Threads.t_pc th) = true)) /\
  (forall tid th,
     Threads.threads s !! tid = Some th ->
     Threads.t_pc th = Threads.AtLock ->
     Threads.thread_step tid th (Threads.shared s) = None ->
     exists tid' th',
       tid' <> tid /\
       Threads.threads s !! tid' = Some th' /\
       Threads.in_locked_section (Threads.t_pc th') = true).
Proof.
  intros Hfree s.
  assert (Hacc : lock_accounted s).
  { apply run_keeps_lock_accounted; [apply start_threads_inv|].
    left. exact Hfree. }
  split; [exact Hacc|].
  intros tid th Hth Hpc Hstuck.
  assert (Hheld : nonce_lock (Threads.shared s) = Some true).
  { revert Hstuck. destruct th as [pc0 args0 payload0 delays0].
    cbn [Threads.t_pc] in Hpc. subst pc0.
    unfold Threads.thread_step, Threads.load, lock_enter. cbn.
    destruct (nonce_lock (Threads.shared s)) as [[]|]; try discriminate.
    reflexivity. }
  destruct Hacc as [Hf|(_ & t & x & Hx & Hin)]; [congruence|].
  exists t, x. split; [|auto].
  intros ->. rewrite Hth in Hx. injection Hx as <-.
  rewrite Hpc in Hin. discriminate.
Qed.

End LockHolder.

Lemma a_taken_lock_has_its_holder_witness :
  let calls : list (string * gmap string argval) :=
    [("returnBalances", ∅); ("returnOpenOrders", ∅)] in
  let schedule := [Threads.Run 0; Threads.Run 1; Threads.Run 1] in
  let s := @Threads.run Examples.strict_env schedule
             (@Threads.start Examples.private_client calls) in
  nonce_lock (Threads.shared s) = Some false \/
  (nonce_lock (Threads.shared s) = Some true /\
   exists tid th,
     Threads.threads s !! tid = Some th /\
     Threads.in_locked_section (Threads.t_pc th) = true).
Proof.
  intros calls schedule s.
  exact (proj1 (@a_taken_lock_has_its_holder Examples.strict_env
                  Examples.private_client calls schedule eq_refl)).
Defined.

(* --------------------------------------------------------------------- *)
(** ** One attempt, for every class *)
(* --------------------------------------------------------------------- *)

Section Attempt.

Context `{External}.

(** X15: one run of [_make_request], on a client of any class (for
    [Poloniex] it goes the private or the public way by the command), leaves
    the client, the lock and the timer as they were, whatever happens in
    between.  It adds to the trace nothing at all, one permit, or one
    permit followed by one request, never a sleep and never two requests;
    the permits left go down by exactly the permits taken, since leaving
    [with self.coach:] gives nothing back.  When it returns, it has sent
    its request after taking a permit, the server answered it, and the
    value returned is the decoded body of that answer, which has no
    [error] member. *)
Theorem an_attempt_takes_one_permit_at_most (w : world) :
  let o := fst (_make_request w) in
  let w' := snd (_make_request w) in
  self w' = self w /\ nonce_lock w' = nonce_lock w /\
  timer (coach w') = timer (coach w) /\
  (exists more,
     trace w' = trace w ++ more /\
     (more = [] \/ more = [EAcquire] \/ exists r, more = [EAcquire; ESend r]) /\
     value (semaphore (coach w)) =
       value (semaphore (coach w')) + permits_taken more) /\
  (forall out, o = Return out ->
     exists r resp,
       trace w' = trace w ++ [EAcquire; ESend r] /\
       transport (trace w ++ [EAcquire]) r = Responds resp /\
       json_body resp = Some out /\
       json_contains "error" out = Some false).
Proof.
  intros o w'.
  destruct (make_request_effect w o w')
    as (Hs & Hl & more & Htr & Hev & Ht & _ & Hv & Hret).
  { unfold o, w'. destruct (_make_request w); reflexivity. }
  split; [exact Hs|]. split; [exact Hl|]. split; [exact Ht|]. split.
  - exists more. split; [exact Htr|]. split; [|exact Hv].
    destruct Hev; eauto.
  - intros out Ho. destruct (Hret out Ho) as (r & resp & -> & Hrest).
    exists r, resp. auto.
Qed.

Lemma call_goes_on_from_first_attempt w0 o1 w1 :
  _make_request w0 = (o1, w1) ->
  exists more, trace (snd (_retry _make_request w0)) = trace w1 ++ more.
Proof.
  intros Hfirst.
  destruct (_retry _make_request w0) as [o w'] eqn:Hretry. cbn [snd].
  unfold _retry in Hretry.
  destruct (retries (self w0)) as [|d ds]; cbn [map app] in Hretry;
    exact (retrying_loop_after_first _ _ _ _ _ _ _ _
             extends_make_request Hfirst Hretry).
Qed.

Lemma signing_fails w p :
  nonce_lock w = Some false ->
  secret (self w) = None \/ hmac_accepts_str = false ->
  ident (timer (coach w)) = None ->
  value (semaphore (coach w)) = S p ->
  exists w',
    PoloniexPrivateAPI__make_request w = (Raise TypeError, w') /\
    trace w' = trace w ++ [EAcquire] /\
    _nonce w' = (_nonce w + 1)%Z /\
    nonce_lock w' = Some false /\
    value (semaphore (coach w')) = p.
Proof.
  intros Hlock Hsign Hid Hval.
  unfold PoloniexPrivateAPI__make_request, bind, bind_data, with_, coach_enter,
    RateLimit.__enter__.
  cbn [coach set_payload]. rewrite (wait_unstarted _ Hid), Hval.
  unfold lock_enter, locked_section, bind, incr_nonce, attach_nonce,
    attach_headers, session_request, lock_exit, coach_exit, RateLimit.__exit__.
  cbn -[_handleResponse transport request_of].
  rewrite Hlock. cbn -[_handleResponse transport request_of].
  destruct Hsign as [Hsec|Hsign].
  - rewrite Hsec. eexists. split; [reflexivity|]. cbn. auto.
  - rewrite Hsign. destruct (secret (self w));
      (eexists; split; [reflexivity|]; cbn; auto).
Qed.

(** X16: the constructors and the first request.  A [PoloniexPrivateAPI]
    client built with a secret, a free lock and no gate of its own starts
    from [start_nonce], or from the current time when none is given, and
    gets a gate of its own with six permits.  Its first call takes a permit
    and raises the stored nonce to that starting value plus one.  Where
    [hmac.new] signs text (Python 2) it then sends, whatever the server
    does next, a [post] with that nonce, signed over its body, and the
    permits left after the call and the permits the call took make six;
    where [hmac.new] takes no text (Python 3) the call ends there with
    [TypeError], nothing sent and five permits left.  A [PoloniexPublicAPI]
    client built without a gate starts its first call with a permit and the
    unsigned [get], with the same account of its six permits. *)
Theorem first_request_of_a_new_client
    (now : Z) (k : option string) (sec : string) (t : option N)
    (delays : list N) (start_nonce : option Z)
    (command : string) (kwargs : gmap string argval) :
  (let w := PoloniexPrivateAPI_init PoloniexPrivateAPI now k (Some sec) t
              delays None start_nonce (Some false) in
   let n := match start_nonce with Some n => n | None => now end in
   let a := <["nonce" := VInt (n + 1)]> (<["command" := VStr command]> kwargs) in
   let r := {| r_method := "post";
               r_url := "http://poloniex.com/tradingApi";
               r_timeout := t;
               r_params := None;
               r_data := Some a;
               r_headers := Some {| Sign := hmac_sha512_hexdigest sec (urlencode a);
                                    Key := k |} |} in
   let w' := snd (__call__ command kwargs w) in
   (hmac_accepts_str = true ->
    exists more,
      trace w' = [EAcquire; ESend r] ++ more /\
      value (semaphore (coach w')) + permits_taken (trace w') = 6) /\
   (hmac_accepts_str = false ->
    fst (__call__ command kwargs w) = Raise TypeError /\
    trace w' = [EAcquire] /\
    _nonce w' = (n + 1)%Z /\
    value (semaphore (coach w')) = 5)) /\
  (let w := PoloniexPublicAPI_init t delays None in
   let r := {| r_method := "get";
               r_url := "http://poloniex.com/public";
               r_timeout := t;
               r_params := Some (<["command" := VStr command]> kwargs);
               r_data := None;
               r_headers := None |} in
   let w' := snd (__call__ command kwargs w) in
   exists more,
     trace w' = [EAcquire; ESend r] ++ more /\
     value (semaphore (coach w')) + permits_taken (trace w') = 6).
Proof.
  split.
  - intros w n a r w'. split.
    + intros Hsign.
      assert (Hgate : value (semaphore (coach w')) + permits_taken (trace w') = 6).
      { unfold w'. destruct (__call__ command kwargs w) as [o w1] eqn:Hcall.
        destruct (call_effect_of_call _ _ _ _ _ Hcall)
          as (_ & _ & more & Htr & _ & _ & _ & _ & _ & Hv & _).
        cbn [snd]. rewrite Htr. cbn [trace w PoloniexPrivateAPI_init app].
        cbn in Hv. lia. }
      pose proof (first_private_attempt w command kwargs sec 5
                    eq_refl eq_refl eq_refl Hsign eq_refl eq_refl) as Hfirst.
      cbv zeta in Hfirst.
      change (signed_request (self w) sec
                (<["nonce" := VInt (_nonce w + 1)]> (<["command" := VStr command]> kwargs)))
        with r in Hfirst.
      assert (Hgo : exists o1 w1,
                _make_request (call_frame PoloniexPrivateAPI_REQEUST_URL command kwargs w)
                  = (o1, w1) /\ trace w1 = [EAcquire; ESend r]).
      { rewrite Hfirst.
        destruct (transport (trace w ++ [EAcquire]) r) as [resp|e];
          eexists _, _; (split; [reflexivity|]);
          cbn [trace set_nonce_lock]; rewrite ?handle_trace; reflexivity. }
      destruct Hgo as (o1 & w1 & Hgo & Htr1).
      destruct (call_goes_on_from_first_attempt _ _ _ Hgo) as [more Hmore].
      exists more. split; [|exact Hgate].
      unfold w'. rewrite call_unfold. cbn [cls self w PoloniexPrivateAPI_init].
      rewrite <- Htr1. exact Hmore.
    + intros Hsign.
      destruct (signing_fails
                  (call_frame PoloniexPrivateAPI_REQEUST_URL command kwargs w) 5
                  eq_refl (or_intror Hsign) eq_refl eq_refl)
        as (w1 & Hreq & Htr & Hn & _ & Hv).
      assert (Hcall : __call__ command kwargs w = (Raise TypeError, w1)).
      { rewrite call_unfold. cbn [cls self w PoloniexPrivateAPI_init].
        apply retry_propagates; [|intros problem; discriminate].
        unfold _make_request. exact Hreq. }
      unfold w'. rewrite Hcall. cbn [fst snd]. auto.
  - intros w r w'.
    assert (Hgate : value (semaphore (coach w')) + permits_taken (trace w') = 6).
    { unfold w'. destruct (__call__ command kwargs w) as [o w1] eqn:Hcall.
      destruct (call_effect_of_call _ _ _ _ _ Hcall)
        as (_ & _ & more & Htr & _ & _ & _ & _ & _ & Hv & _).
      cbn [snd]. rewrite Htr. cbn [trace w PoloniexPublicAPI_init app].
      cbn in Hv. lia. }
    pose proof (first_public_attempt w command kwargs 5 eq_refl eq_refl eq_refl)
      as Hfirst.
    cbv zeta in Hfirst.
    change (unsigned_request (self w) (<["command" := VStr command]> kwargs))
      with r in Hfirst.
    assert (Hgo : exists o1 w1,
              _make_request (call_frame PoloniexPublicAPI_REQEUST_URL command kwargs w)
                = (o1, w1) /\ trace w1 = [EAcquire; ESend r]).
    { rewrite Hfirst.
      destruct (transport (trace w ++ [EAcquire]) r) as [resp|e].
      - match goal with
        | |- context [_handleResponse resp ?w0] =>
            pose proof (handle_trace resp w0) as Hht;
            destruct (_handleResponse resp w0) as [oh wh]
        end.
        eexists _, _. split; [reflexivity|]. exact Hht.
      - eexists _, _. split; reflexivity. }
    destruct Hgo as (o1 & w1 & Hgo & Htr1).
    destruct (call_goes_on_from_first_attempt _ _ _ Hgo) as [more Hmore].
    exists more. split; [|exact Hgate].
    unfold w'. rewrite call_unfold. cbn [cls self w PoloniexPublicAPI_init].
    rewrite <- Htr1. exact Hmore.
Qed.

End Attempt.

(* --------------------------------------------------------------------- *)
(** ** What is read from a nonce error *)
(* --------------------------------------------------------------------- *)

Lemma split_on_dotless_alone s :
  dotless s = true -> PyStr.split_on "." s = [s].
Proof.
  induction s as [|c s IH]; intros Hs; [reflexivity|].
  cbn [dotless] in Hs. apply andb_true_iff in Hs as [Hdot Hs].
  apply negb_true_iff in Hdot.
  cbn [PyStr.split_on]. rewrite Hdot, (IH Hs). reflexivity.
Qed.

(** X17: the minimum is read from the text before the first full stop
    only: whatever follows that full stop (the nonce the server says it was
    given, further sentences, the fraction of a number written with a
    decimal point) does not change what [int(...)] is applied to, so the
    same value is assigned or the same exception raised as for the text cut
    at the full stop. *)
Theorem reported_nonce_reads_up_to_the_first_stop (s rest : string) :
  dotless s = true ->
  reported_nonce (s +:+ "." +:+ rest) = reported_nonce s.
Proof.
  intros Hs. unfold reported_nonce.
  change ("." +:+ rest) with (String "." rest).
  rewrite (split_on_dotless s rest Hs), (split_on_dotless_alone s Hs).
  reflexivity.
Qed.

Lemma reported_nonce_reads_up_to_the_first_stop_witness :
  dotless "Nonce must be greater than 15" = true /\
  reported_nonce ("Nonce must be greater than 15" +:+ "." +:+ "7e3. You provided 3.") =
  reported_nonce "Nonce must be greater than 15".
Proof.
  split; [reflexivity|].
  apply (reported_nonce_reads_up_to_the_first_stop
           "Nonce must be greater than 15" "7e3. You provided 3.").
  reflexivity.
Defined.

(* --------------------------------------------------------------------- *)
(** ** What the exceptions of [_handleResponse] mean *)
(* --------------------------------------------------------------------- *)

Lemma json_getitem_error k v x :
  json_getitem k v = Error x -> x = KeyError \/ x = TypeError.
Proof.
  destruct v as [| | | | |kvs]; cbn; try (intros [= <-]; auto).
  destruct (find _ kvs); [discriminate|intros [= <-]; auto].
Qed.

Section Exceptions.

Context `{External}.

(** X18: the two exceptions [_handleResponse] raises on purpose, read
    backwards.  It raises [PoloniexError(msg)] exactly when the body could
    not be decoded (with the fixed message) or the body is an object whose
    [error] member is the string [msg], which contains neither "Nonce must
    be greater" nor, in any letter case, "please try again"; the client is
    then unchanged.  It raises [RequestException(msg)] exactly when the
    body is an object whose [error] member is a string [e] with
    [msg = 'PoloniexError ' + e], and either [e] is a nonce error whose
    minimum could be read, which is then the stored nonce, or [e] is no
    nonce error and asks to try again, the client being unchanged.  A body
    that is not an object, or whose [error] member is not a string, never
    gives either of them. *)
Theorem handle_exceptions_read_backwards (resp : response) (w : world) :
  (forall msg w',
     _handleResponse resp w = (Raise (PoloniexError msg), w') <->
     w' = w /\
     ((json_body resp = None /\ msg = "Invalid json response returned") \/
      (exists kvs,
         json_body resp = Some (JObject kvs) /\
         json_getitem "error" (JObject kvs) = Ok (JString msg) /\
         PyStr.contains "Nonce must be greater" msg = false /\
         PyStr.contains "please try again" (PyStr.lower msg) = false))) /\
  (forall msg w',
     _handleResponse resp w = (Raise (RequestException msg), w') <->
     exists kvs e,
       json_body resp = Some (JObject kvs) /\
       json_getitem "error" (JObject kvs) = Ok (JString e) /\
       msg = "PoloniexError " +:+ e /\
       ((PyStr.contains "Nonce must be greater" e = true /\
         exists n, reported_nonce e = Ok n /\ w' = set_nonce n w) \/
        (PyStr.contains "Nonce must be greater" e = false /\
         PyStr.contains "please try again" (PyStr.lower e) = true /\
         w' = w))).
Proof.
  split; intros msg w'; split.
  - unfold _handleResponse.
    destruct (json_body resp) as [out|] eqn:Hbody;
      [|intros [= <- <-]; split; [reflexivity|]; left; auto].
    destruct (json_contains "error" out) as [[]|] eqn:Hin; try discriminate.
    destruct (json_getitem "error" out) as [err|x] eqn:Hget.
    2: { destruct (json_getitem_error _ _ _ Hget) as [-> | ->]; discriminate. }
    destruct out as [| | | | |kvs]; try discriminate Hget.
    destruct err as [| | |e| |]; cbn [json_contains];
      try (repeat match goal with
                  | |- context [match ?x with _ => _ end] => destruct x
                  end; discriminate).
    destruct (PyStr.contains "Nonce must be greater" e) eqn:Hnonce.
    + destruct (reported_nonce e) as [n|x] eqn:Hrep; [discriminate|].
      intros [= -> <-]. destruct (reported_nonce_error e _ Hrep); discriminate.
    + destruct (PyStr.contains "please try again" (PyStr.lower e)) eqn:Hagain;
        [discriminate|].
      intros [= <- <-]. split; [reflexivity|]. right. exists kvs. auto.
  - intros [-> [[Hbody ->]|(kvs & Hbody & Hget & Hnonce & Hagain)]].
    + apply handle_undecodable. exact Hbody.
    + rewrite (handle_plain_error _ _ _ _ Hbody Hget Hnonce), Hagain. reflexivity.
  - unfold _handleResponse.
    destruct (json_body resp) as [out|] eqn:Hbody; [|discriminate].
    destruct (json_contains "error" out) as [[]|] eqn:Hin; try discriminate.
    destruct (json_getitem "error" out) as [err|x] eqn:Hget.
    2: { destruct (json_getitem_error _ _ _ Hget) as [-> | ->]; discriminate. }
    destruct out as [| | | | |kvs]; try discriminate Hget.
    destruct err as [| | |e| |]; cbn [json_contains];
      try (repeat match goal with
                  | |- context [match ?x with _ => _ end] => destruct x
                  end; discriminate).
    destruct (PyStr.contains "Nonce must be greater" e) eqn:Hnonce.
    + destruct (reported_nonce e) as [n|x] eqn:Hrep.
      * intros [= <- <-]. exists kvs, e. repeat split; auto. left. eauto.
      * intros [= -> <-]. destruct (reported_nonce_error e _ Hrep); discriminate.
    + destruct (PyStr.contains "please try again" (PyStr.lower e)) eqn:Hagain;
        [|discriminate].
      intros [= <- <-]. exists kvs, e. repeat split; auto.
  - intros (kvs & e & Hbody & Hget & -> & [[Hnonce (n & Hrep & ->)]|(Hnonce & Hagain & ->)]).
    + exact (handle_nonce_error _ _ _ _ _ Hbody Hget Hnonce Hrep).
    + rewrite (handle_plain_error _ _ _ _ Hbody Hget Hnonce), Hagain. reflexivity.
Qed.

(** X19: the other side of the timer test in [wait].  If the timer of the
    gate has been started (by whoever holds the gate: [wait] itself never
    starts it), [wait] calls [start()] again on every entry, which raises
    [RuntimeError]: every call of a [PoloniexPublicAPI] or
    [PoloniexPrivateAPI] client then ends with [RuntimeError] on its first
    attempt, before a permit is taken, with nothing sent, no nonce used, no
    sleep and no retry. *)
Theorem a_started_timer_fails_every_call
    (w : world) (command : string) (kwargs : gmap string argval) (i : positive) :
  ident (timer (coach w)) = Some i ->
  cls (self w) = PoloniexPublicAPI \/ cls (self w) = PoloniexPrivateAPI ->
  exists w',
    __call__ command kwargs w = (Raise RuntimeError, w') /\
    trace w' = trace w /\
    semaphore (coach w') = semaphore (coach w) /\
    timer (coach w') = timer (coach w) /\
    _nonce w' = _nonce w /\
    nonce_lock w' = nonce_lock w.
Proof.
  intros Hid Hcls.
  assert (Hwait : RateLimit.wait (coach w) =
            (Raise RuntimeError,
             {| semaphore := semaphore (coach w); timer := timer (coach w) |})).
  { unfold RateLimit.wait, RateLimit.RecurrentTimer_start. rewrite Hid. reflexivity. }
  destruct Hcls as [Hcls|Hcls]; rewrite call_unfold, Hcls.
  - eexists. split.
    + apply retry_propagates; [|intros problem; discriminate].
      unfold _make_request. cbn [self call_frame set_payload set_args].
      rewrite Hcls.
      unfold PoloniexPublicAPI__make_request, bind, bind_params, with_,
        coach_enter, RateLimit.__enter__.
      cbn [coach set_payload call_frame set_args]. rewrite Hwait. reflexivity.
    + cbn. auto.
  - eexists. split.
    + apply retry_propagates; [|intros problem; discriminate].
      unfold _make_request. cbn [self call_frame set_payload set_args].
      rewrite Hcls.
      unfold PoloniexPrivateAPI__make_request, bind, bind_data, with_,
        coach_enter, RateLimit.__enter__.
      cbn [coach set_payload call_frame set_args]. rewrite Hwait. reflexivity.
    + cbn. auto.
Qed.

End Exceptions.

Lemma a_started_timer_fails_every_call_witness :
  let started :=
    {| semaphore := RateLimit.Semaphore_init 6;
       timer := {| interval := 1000; ident := Some 1%positive; daemon := true |} |} in
  let w := set_coach started Examples.private_client in
  exists w',
    @__call__ (Examples.env [] Examples.down) "returnBalances" ∅ w =
      (Raise RuntimeError, w') /\
    trace w' = trace w /\
    semaphore (coach w') = semaphore (coach w) /\
    timer (coach w') = timer (coach w) /\
    _nonce w' = _nonce w /\
    nonce_lock w' = nonce_lock w.
Proof.
  intros started w.
  apply (@a_started_timer_fails_every_call (Examples.env [] Examples.down)
           w "returnBalances" ∅ 1%positive eq_refl).
  right. reflexivity.
Defined.

Section Exhausted.

Context `{External}.

(** X20: with no permit left (and a timer that is not running), a call of
    a [PoloniexPublicAPI] or [PoloniexPrivateAPI] client blocks in [wait],
    on its first attempt and before anything else: nothing is added to the
    trace, the lock is not taken, no nonce is used, the gate is as it was;
    and as long as the callback does not fire, every further call of any
    history ends the same way. *)
Theorem a_call_without_permits_blocks_at_the_gate
    (w : world) (command : string) (kwargs : gmap string argval) :
  ident (timer (coach w)) = None ->
  value (semaphore (coach w)) = 0 ->
  cls (self w) = PoloniexPublicAPI \/ cls (self w) = PoloniexPrivateAPI ->
  (exists w',
     __call__ command kwargs w = (Blocked, w') /\
     trace w' = trace w /\
     coach w' = coach w /\
     _nonce w' = _nonce w /\
     nonce_lock w' = nonce_lock w) /\
  (forall ops,
     refills ops = 0 ->
     trace (History.run ops w) = trace w /\
     _nonce (History.run ops w) = _nonce w /\
     value (semaphore (coach (History.run ops w))) = 0).
Proof.
  intros Hid Hval Hcls.
  assert (Hcall : forall w0 command0 kwargs0,
            ident (timer (coach w0)) = None ->
            value (semaphore (coach w0)) = 0 ->
            cls (self w0) = PoloniexPublicAPI \/ cls (self w0) = PoloniexPrivateAPI ->
            exists w',
              __call__ command0 kwargs0 w0 = (Blocked, w') /\
              trace w' = trace w0 /\ coach w' = coach w0 /\
              _nonce w' = _nonce w0 /\ nonce_lock w' = nonce_lock w0 /\
              self w' = self w0).
  { intros w0 command0 kwargs0 Hid0 Hval0 Hcls0.
    assert (Hwait : RateLimit.wait (coach w0) = (Blocked, coach w0))
      by (rewrite (wait_unstarted _ Hid0), Hval0; reflexivity).
    destruct Hcls0 as [Hcls0|Hcls0]; rewrite call_unfold, Hcls0.
    - eexists. split.
      + apply retry_blocked.
        unfold _make_request. cbn [self call_frame set_payload set_args].
        rewrite Hcls0.
        unfold PoloniexPublicAPI__make_request, bind, bind_params, with_,
          coach_enter, RateLimit.__enter__.
        cbn [coach set_payload call_frame set_args]. rewrite Hwait. reflexivity.
      + cbn. auto 10.
    - eexists. split.
      + apply retry_blocked.
        unfold _make_request. cbn [self call_frame set_payload set_args].
        rewrite Hcls0.
        unfold PoloniexPrivateAPI__make_request, bind, bind_data, with_,
          coach_enter, RateLimit.__enter__.
        cbn [coach set_payload call_frame set_args]. rewrite Hwait. reflexivity.
      + cbn. auto 10. }
  split.
  - destruct (Hcall w command kwargs Hid Hval Hcls)
      as (w' & Hc & Ht & Hco & Hn & Hl & _).
    exists w'. auto.
  - intros ops. revert w Hid Hval Hcls.
    induction ops as [|op ops IH]; intros w Hid Hval Hcls Hno; [auto|].
    rewrite refills_cons in Hno.
    destruct op as [command0 kwargs0|]; [|unfold refills in Hno; cbn in Hno; lia].
    cbn [History.run fold_left History.step].
    destruct (Hcall w command0 kwargs0 Hid Hval Hcls)
      as (w' & Hc & Ht & Hco & Hn & Hl & Hs).
    rewrite Hc. cbn [snd].
    destruct (IH w') as (Ht' & Hn' & Hv').
    + rewrite Hco. exact Hid.
    + rewrite Hco. exact Hval.
    + rewrite Hs. exact Hcls.
    + unfold refills in Hno |- *. cbn in Hno. lia.
    + unfold History.run in *. split; [congruence|]. split; [congruence|exact Hv'].
Qed.

End Exhausted.

Lemma a_call_without_permits_blocks_at_the_gate_witness :
  let spent :=
    {| semaphore := {| value := 0; initial_value := 6 |};
       timer := timer default_coach |} in
  let w := set_coach spent Examples.private_client in
  exists w',
    @__call__ (Examples.env [] Examples.down) "returnBalances" ∅ w = (Blocked, w') /\
    trace w' = trace w /\
    coach w' = coach w /\
    _nonce w' = _nonce w /\
    nonce_lock w' = nonce_lock w.
Proof.
  intros spent w.
  apply (@a_call_without_permits_blocks_at_the_gate (Examples.env [] Examples.down)
           w "returnBalances" ∅ eq_refl eq_refl).
  right. reflexivity.
Defined.

(* ===================================================================== *)
(** * The classification and the nonce error through a whole call *)
(* ===================================================================== *)

(* --------------------------------------------------------------------- *)
(** ** Attempts inside the retry loop *)
(* --------------------------------------------------------------------- *)

Lemma transient_failures_loop {A} (func : M A) used w w1 :
  transient_failures func used w w1 ->
  forall ds,
    retrying_loop func (map Some used ++ ds) w = retrying_loop func ds w1.
Proof.
  induction 1 as [w|d ds0 w problem w1 w2 Hf Htf IH]; intros ds; [reflexivity|].
  cbn [map app]. rewrite (retrying_loop_again func d _ w problem w1 Hf).
  apply IH.
Qed.


Lemma retrying_loop_last_raises {A} (func : M A) w problem w1 :
  func w = (Raise (RequestException problem), w1) ->
  retrying_loop func [None] w =
    (Raise (RetryException ("retries exhausted " +:+ problem)), w1).
Proof. intros Hf. cbn [retrying_loop]. rewrite Hf. reflexivity. Qed.

Lemma retrying_loop_first {A} (func : M A) delay rest w o w1 :
  func w = (o, w1) -> ~ transient o ->
  retrying_loop func (delay :: rest) w = (handed_on o, w1).
Proof.
  intros Hf Hnt. cbn [retrying_loop]. rewrite Hf.
  destruct o as [a|e|]; try reflexivity.
  destruct e; try reflexivity.
  exfalso. apply Hnt. eexists; reflexivity.
Qed.

Lemma handle_outcome_indep `{External} resp w1 w2 :
  fst (_handleResponse resp w1) = fst (_handleResponse resp w2).
Proof.
  unfold _handleResponse.
  repeat match goal with
         | |- context [match ?x with _ => _ end] => destruct x
         end; reflexivity.
Qed.

Section Answered.

Context `{External}.

Lemma not_sent_answered w (o : outcome json) w' more :
  trace w' = trace w ++ more ->
  more = [] \/ more = [EAcquire] ->
  (forall msg, o <> Raise (RequestException msg)) ->
  answered w o w'.
Proof.
  intros Htr Hmore Ho. split.
  - intros r Hr. rewrite Htr in Hr. apply app_inv_head in Hr.
    destruct Hmore as [-> | ->]; discriminate.
  - intros msg Hmsg. exfalso. exact (Ho msg Hmsg).
Qed.

Lemma sent_answered w (o : outcome json) w' r0 :
  trace w' = trace w ++ [EAcquire; ESend r0] ->
  match transport (trace w ++ [EAcquire]) r0 with
  | Responds resp => o = fst (_handleResponse resp w)
  | Fails e => o = Raise e
  end ->
  answered w o w'.
Proof.
  intros Htr Ho. split.
  - intros r Hr. rewrite Htr in Hr. apply app_inv_head in Hr.
    injection Hr as <-. exact Ho.
  - intros msg _. eauto.
Qed.

Lemma public_request_answered w o w' :
  PoloniexPublicAPI__make_request w = (o, w') -> answered w o w'.
Proof.
  unfold PoloniexPublicAPI__make_request, bind, bind_params, with_, coach_enter,
    coach_exit, session_request, RateLimit.__exit__, RateLimit.__enter__.
  cbn -[_handleResponse transport request_of RateLimit.wait].
  destruct (RateLimit.wait (coach w)) as [og c] eqn:Hgate.
  destruct og as [[]|e|]; cbn -[_handleResponse transport request_of].
  - match goal with
    | |- context [transport ?tr ?r] =>
        destruct (transport tr r) as [resp|e] eqn:Hreply
    end; cbn -[_handleResponse transport request_of].
    + match goal with
      | |- context [_handleResponse resp ?w0] =>
          pose proof (handle_never_blocks resp w0) as Hnb;
          pose proof (handle_trace resp w0) as Htr;
          pose proof (handle_outcome_indep resp w0 w) as Hind;
          destruct (_handleResponse resp w0) as [oh wh] eqn:Hh
      end.
      cbn [fst snd] in Hnb, Htr, Hind.
      assert (Hres : answered w oh (set_coach (coach wh) wh)).
      { eapply sent_answered.
        - cbn [trace set_coach]. rewrite Htr. cbn -[request_of].
          rewrite <- app_assoc. reflexivity.
        - cbn -[request_of transport] in Hreply. rewrite Hreply. exact Hind. }
      destruct oh as [a|e|]; [| |exfalso; apply Hnb; reflexivity];
        intros [= <- <-]; exact Hres.
    + intros [= <- <-]. eapply sent_answered.
      * cbn -[request_of]. rewrite <- app_assoc. reflexivity.
      * cbn -[request_of transport] in Hreply. rewrite Hreply. reflexivity.
  - intros [= <- <-].
    pose proof (wait_raises_only_RuntimeError _ _ _ Hgate) as ->.
    apply (not_sent_answered _ _ _ []); [cbn; rewrite app_nil_r; reflexivity|auto|].
    intros msg; discriminate.
  - intros [= <- <-].
    apply (not_sent_answered _ _ _ []); [cbn; rewrite app_nil_r; reflexivity|auto|].
    intros msg; discriminate.
Qed.

Lemma private_request_answered w o w' :
  PoloniexPrivateAPI__make_request w = (o, w') -> answered w o w'.
Proof.
  unfold PoloniexPrivateAPI__make_request, locked_section, bind, bind_data, with_,
    coach_enter, coach_exit, lock_enter, lock_exit, incr_nonce, attach_nonce,
    attach_headers, session_request, RateLimit.__exit__, RateLimit.__enter__.
  cbn -[_handleResponse transport request_of RateLimit.wait].
  destruct (RateLimit.wait (coach w)) as [og c] eqn:Hgate.
  destruct og as [[]|e|]; cbn -[_handleResponse transport request_of].
  - destruct (nonce_lock w) as [[]|]; cbn -[_handleResponse transport request_of];
      try (intros [= <- <-];
           apply (not_sent_answered _ _ _ [EAcquire]); [reflexivity|auto|];
           intros msg; discriminate).
    destruct (secret (self w)) as [sec|]; cbn -[_handleResponse transport request_of];
      [destruct hmac_accepts_str; cbn -[_handleResponse transport request_of]|];
      try (intros [= <- <-];
           apply (not_sent_answered _ _ _ [EAcquire]); [reflexivity|auto|];
           intros msg; discriminate).
    match goal with
    | |- context [transport ?tr ?r] =>
        destruct (transport tr r) as [resp|e] eqn:Hreply
    end; cbn -[_handleResponse transport request_of].
    + match goal with
      | |- context [_handleResponse resp ?w0] =>
          pose proof (handle_never_blocks resp w0) as Hnb;
          pose proof (handle_trace resp w0) as Htr;
          pose proof (handle_outcome_indep resp w0 w) as Hind;
          destruct (_handleResponse resp w0) as [oh wh] eqn:Hh
      end.
      cbn [fst snd] in Hnb, Htr, Hind.
      assert (Hres : answered w oh
                (set_coach (coach (set_nonce_lock (Some false) wh))
                   (set_nonce_lock (Some false) wh))).
      { eapply sent_answered.
        - cbn [trace set_coach set_nonce_lock]. rewrite Htr. cbn -[request_of].
          rewrite <- app_assoc. reflexivity.
        - cbn -[request_of transport] in Hreply. rewrite Hreply. exact Hind. }
      destruct oh as [a|e|]; [| |exfalso; apply Hnb; reflexivity];
        intros [= <- <-]; exact Hres.
    + intros [= <- <-]. eapply sent_answered.
      * cbn -[request_of]. rewrite <- app_assoc. reflexivity.
      * cbn -[request_of transport] in Hreply. rewrite Hreply. reflexivity.
  - intros [= <- <-].
    pose proof (wait_raises_only_RuntimeError _ _ _ Hgate) as ->.
    apply (not_sent_answered _ _ _ []); [cbn; rewrite app_nil_r; reflexivity|auto|].
    intros msg; discriminate.
  - intros [= <- <-].
    apply (not_sent_answered _ _ _ []); [cbn; rewrite app_nil_r; reflexivity|auto|].
    intros msg; discriminate.
Qed.

Lemma make_request_answered w o w' :
  _make_request w = (o, w') -> answered w o w'.
Proof.
  unfold _make_request, Poloniex__make_request.
  destruct (cls (self w)).
  - intros [= <- <-].
    apply (not_sent_answered _ _ _ []); [rewrite app_nil_r; reflexivity|auto|].
    intros msg; discriminate.
  - apply public_request_answered.
  - apply private_request_answered.
  - destruct (args w !! "command") as [[c|z]|].
    + destruct (PyStr.in_list c Commands.private);
        [apply private_request_answered|apply public_request_answered].
    + apply public_request_answered.
    + intros [= <- <-].
      apply (not_sent_answered _ _ _ []); [rewrite app_nil_r; reflexivity|auto|].
      intros msg; discriminate.
Qed.

End Answered.

(* --------------------------------------------------------------------- *)
(** ** Which failures are retried *)
(* --------------------------------------------------------------------- *)

Section Classification.

Context `{External}.

Lemma call_is_retrying w command kwargs :
  cls (self w) = PoloniexPublicAPI \/ cls (self w) = PoloniexPrivateAPI ->
  __call__ command kwargs w =
    retrying_loop _make_request (map Some (retries (self w)) ++ [None])
      (call_frame (REQEUST_URL (cls (self w))) command kwargs w).
Proof.
  intros Hcls. rewrite call_unfold.
  destruct Hcls as [Hcls|Hcls]; rewrite Hcls; reflexivity.
Qed.

Lemma call_after_transient_failures w command kwargs used rest w1 :
  cls (self w) = PoloniexPublicAPI \/ cls (self w) = PoloniexPrivateAPI ->
  retries (self w) = used ++ rest ->
  transient_failures _make_request used
    (call_frame (REQEUST_URL (cls (self w))) command kwargs w) w1 ->
  __call__ command kwargs w =
    retrying_loop _make_request (map Some rest ++ [None]) w1.
Proof.
  intros Hcls Hretries Htf.
  rewrite (call_is_retrying _ _ _ Hcls), Hretries, map_app, <- app_assoc.
  exact (transient_failures_loop _ _ _ _ Htf _).
Qed.

(** C2 (amended): which failures a call retries, at whichever attempt they
    happen.  (1) [_handleResponse] raises
    [PoloniexError('Invalid json response returned')] for a body that is
    not JSON; for an error string that does not contain "Nonce must be
    greater" it raises a [RequestException] when the string contains
    "please try again" in any letter case and a [PoloniexError] with the
    server's text otherwise, and changes nothing.  (2) Every attempt of
    [_make_request] hands this on unchanged: the outcome of an attempt that
    sent a request is what [_handleResponse] makes of the response to that
    very request, or the exception the transport raised for it, and no
    [RequestException] comes from anywhere else.  (3) A call is a run of
    attempts that each raised a [RequestException] and were followed by a
    sleep, and one last attempt.  (4) After any number of such attempts,
    an attempt whose outcome is not a [RequestException] ends the call with
    that outcome and the world the attempt left, with no sleep and no
    further attempt; one that raises a [RequestException] is followed by
    the next delay and the rest of the loop, or by [RetryException] when no
    delay is left. *)
Theorem only_transient_failures_are_retried
    (w : world) (command : string) (kwargs : gmap string argval) :
  cls (self w) = PoloniexPublicAPI \/ cls (self w) = PoloniexPrivateAPI ->
  let wc := call_frame (REQEUST_URL (cls (self w))) command kwargs w in
  (forall resp w0,
     json_body resp = None ->
     _handleResponse resp w0 =
       (Raise (PoloniexError "Invalid json response returned"), w0)) /\
  (forall resp w0 kvs e,
     json_body resp = Some (JObject kvs) ->
     json_getitem "error" (JObject kvs) = Ok (JString e) ->
     PyStr.contains "Nonce must be greater" e = false ->
     _handleResponse resp w0 =
       (Raise (if PyStr.contains "please try again" (PyStr.lower e)
               then RequestException ("PoloniexError " +:+ e)
               else PoloniexError e), w0)) /\
  (forall w0 o w0',
     _make_request w0 = (o, w0') ->
     (forall r,
        trace w0' = trace w0 ++ [EAcquire; ESend r] ->
        match transport (trace w0 ++ [EAcquire]) r with
        | Responds resp => o = fst (_handleResponse resp w0)
        | Fails e => o = Raise e
        end) /\
     (forall msg,
        o = Raise (RequestException msg) ->
        exists r, trace w0' = trace w0 ++ [EAcquire; ESend r])) /\
  (exists used rest w1 o w2,
     retries (self w) = used ++ rest /\
     transient_failures _make_request used wc w1 /\
     _make_request w1 = (o, w2) /\
     ((~ transient o /\ __call__ command kwargs w = (handed_on o, w2)) \/
      (exists problem,
         o = Raise (RequestException problem) /\ rest = [] /\
         __call__ command kwargs w =
           (Raise (RetryException ("retries exhausted " +:+ problem)), w2)))) /\
  (forall used rest w1 o w2,
     retries (self w) = used ++ rest ->
     transient_failures _make_request used wc w1 ->
     _make_request w1 = (o, w2) ->
     (~ transient o -> __call__ command kwargs w = (handed_on o, w2)) /\
     (forall problem,
        o = Raise (RequestException problem) ->
        match rest with
        | [] =>
            __call__ command kwargs w =
              (Raise (RetryException ("retries exhausted " +:+ problem)), w2)
        | d :: rest' =>
            __call__ command kwargs w =
              retrying_loop _make_request (map Some rest' ++ [None])
                (log_event (ESleep d) w2)
        end)).
Proof.
  intros Hcls wc.
  split; [intros resp w0; apply handle_undecodable|].
  split; [intros resp w0 kvs e; apply handle_plain_error|].
  split; [intros w0 o w0' Hreq; exact (make_request_answered _ _ _ Hreq)|].
  split.
  - destruct (retrying_loop_contract _make_request (retries (self w)) wc)
      as (used & rest & w1 & o & w2 & Hds & Htf & Hf & Hres).
    exists used, rest, w1, o, w2.
    rewrite (call_is_retrying _ _ _ Hcls). fold wc. auto.
  - intros used rest w1 o w2 Hretries Htf Hf.
    rewrite (call_after_transient_failures _ _ _ _ _ _ Hcls Hretries Htf).
    split.
    + intros Hnt. destruct rest as [|d rest']; cbn [map app];
        exact (retrying_loop_first _ _ _ _ _ _ Hf Hnt).
    + intros problem ->. destruct rest as [|d rest']; cbn [map app].
      * exact (retrying_loop_last_raises _ _ _ _ Hf).
      * exact (retrying_loop_again _ _ _ _ _ _ Hf).
Qed.

End Classification.

Lemma only_transient_failures_are_retried_witness :
  let E := Examples.python3
             [Responds (Examples.error_body "Please try again later.");
              Responds (Examples.error_body "Invalid order.")]
             (Responds (Examples.body Examples.balances)) in
  let w := Examples.public_client in
  let wc := call_frame PoloniexPublicAPI_REQEUST_URL "returnTicker" ∅ w in
  exists used rest w1 o w2,
    retries (self w) = used ++ rest /\
    transient_failures (@_make_request E) used wc w1 /\
    @_make_request E w1 = (o, w2) /\
    ((~ transient o /\ @__call__ E "returnTicker" ∅ w = (handed_on o, w2)) \/
     (exists problem,
        o = Raise (RequestException problem) /\ rest = [] /\
        @__call__ E "returnTicker" ∅ w =
          (Raise (RetryException ("retries exhausted " +:+ problem)), w2))).
Proof.
  intros E w wc.
  exact (proj1 (proj2 (proj2 (proj2
    (@only_transient_failures_are_retried E w "returnTicker" ∅
       (or_introl eq_refl)))))).
Defined.

(** The run of that call: the first answer asks to try again and is
    retried after the first delay; the second is an application error and
    ends the call at once, on the second attempt. *)
Example terminal_error_on_second_attempt :
  let E := Examples.python3
             [Responds (Examples.error_body "Please try again later.");
              Responds (Examples.error_body "Invalid order.")]
             (Responds (Examples.body Examples.balances)) in
  let r := unsigned_request (self Examples.public_client)
             (<["command" := VStr "returnTicker"]> ∅) in
  let res := @__call__ E "returnTicker" ∅ Examples.public_client in
  fst res = Raise (PoloniexError "Invalid order.") /\
  trace (snd res) = [EAcquire; ESend r; ESleep 0; EAcquire; ESend r].
Proof. vm_compute. repeat split. Qed.

(** C2 as stated fails on the nonce error: its text does not contain
    "please try again", yet [_handleResponse] raises a [RequestException],
    not a [PoloniexError], and assigns the nonce; the call that received it
    is retried: the client sleeps the first delay and sends the request a
    second time.  (A [PoloniexPublicAPI] client goes through the same
    [_handleResponse].) *)
Lemma nonce_error_is_retried :
  let E := Examples.python3 [Responds (Examples.error_body Examples.nonce_error)]
                            (Responds (Examples.body Examples.balances)) in
  let w := Examples.public_client in
  let r := unsigned_request (self w) (<["command" := VStr "returnTicker"]> ∅) in
  let res := @__call__ E "returnTicker" ∅ w in
  PyStr.contains "please try again" (PyStr.lower Examples.nonce_error) = false /\
  _handleResponse (Examples.error_body Examples.nonce_error) w =
    (Raise (RequestException ("PoloniexError " +:+ Examples.nonce_error)),
     set_nonce 12345 w) /\
  fst res = Return (Some Examples.balances) /\
  trace (snd res) = [EAcquire; ESend r; ESleep 0; EAcquire; ESend r] /\
  _nonce (snd res) = 12345%Z.
Proof. vm_compute. repeat split. Qed.

(** What [int] makes of the word before the first full stop: digits grouped
    by single underscores and a sign are read, a no-break space ends a word
    like any white space, and a misplaced underscore, a word that is no
    number and a missing word raise. *)
Example reported_nonce_readings :
  reported_nonce "Nonce must be greater than 1_000. You provided 7." = Ok 1000%Z /\
  reported_nonce "Nonce must be greater than +0_5. You provided 7." = Ok 5%Z /\
  reported_nonce ("Nonce must be greater than" +:+
                  String (ascii_of_nat 160) "12345. You provided 7.") = Ok 12345%Z /\
  reported_nonce "Nonce must be greater than 1__000. You provided 7." = Error ValueError /\
  reported_nonce "Nonce must be greater than 1000_. You provided 7." = Error ValueError /\
  reported_nonce "Nonce must be greater" = Error ValueError /\
  reported_nonce ". Nonce must be greater" = Error IndexError.
Proof. vm_compute. repeat split. Qed.

(* --------------------------------------------------------------------- *)
(** ** A nonce error at any attempt of a call *)
(* --------------------------------------------------------------------- *)


Section NonceRetry.

Context `{External}.




End NonceRetry.


(* --------------------------------------------------------------------- *)
(** ** A private client where [hmac.new] takes no text *)
(* --------------------------------------------------------------------- *)

Section Unsigned.

Context `{External}.

Lemma unsigned_attempt_sends_nothing w o w' :
  hmac_accepts_str = false ->
  PoloniexPrivateAPI__make_request w = (o, w') ->
  self w' = self w /\
  exists more, trace w' = trace w ++ more /\ requests_sent more = [].
Proof.
  intros Hsign.
  unfold PoloniexPrivateAPI__make_request, bind, bind_data, with_, coach_enter,
    RateLimit.__enter__, lock_enter, locked_section, bind, incr_nonce,
    attach_nonce, attach_headers, session_request, lock_exit, coach_exit,
    RateLimit.__exit__.
  cbn [coach set_payload set_coach log_event nonce_lock].
  rewrite Hsign.
  destruct (RateLimit.wait (coach w)) as [[[]|e|] c]; cbn -[RateLimit.wait];
    [destruct (nonce_lock w) as [[|]|]; cbn -[RateLimit.wait];
     [| destruct (secret (self w)); cbn -[RateLimit.wait] |] | |];
    intros [= <- <-]; cbn -[RateLimit.wait];
    (split; [reflexivity|]);
    first [ exists [EAcquire]; split; reflexivity
          | exists []; rewrite app_nil_r; split; reflexivity ].
Qed.

(** X21: a [PoloniexPrivateAPI] client on an interpreter whose [hmac.new]
    takes no text (Python 3, where the source passes [str]).  Over every
    sequence of calls and refills of the gate the client sends no request at
    all.  A call that finds the lock free and a permit takes the permit,
    raises the stored nonce by one and ends with the [TypeError] of
    [hmac.new], inside the two [with] blocks: the lock is free again, no
    retry follows and nothing has been sent. *)
Theorem private_requests_stop_at_signing
    (w : world) (command : string) (kwargs : gmap string argval) (p : nat) :
  cls (self w) = PoloniexPrivateAPI ->
  hmac_accepts_str = false ->
  (forall ops,
     requests_sent (trace (History.run ops w)) = requests_sent (trace w)) /\
  (nonce_lock w = Some false ->
   ident (timer (coach w)) = None ->
   value (semaphore (coach w)) = S p ->
   exists w',
     __call__ command kwargs w = (Raise TypeError, w') /\
     trace w' = trace w ++ [EAcquire] /\
     _nonce w' = (_nonce w + 1)%Z /\
     nonce_lock w' = Some false /\
     value (semaphore (coach w')) = p).
Proof.
  intros Hcls Hsign. split.
  - intros ops. revert w Hcls.
    induction ops as [|op ops IH]; intros w Hcls; [reflexivity|].
    cbn [History.run fold_left]. fold (History.run ops (History.step w op)).
    destruct op as [command0 kwargs0|]; cbn [History.step].
    + destruct (__call__ command0 kwargs0 w) as [o w'] eqn:Hcall. cbn [snd].
      rewrite call_unfold, Hcls in Hcall. unfold _retry in Hcall.
      destruct (retrying_loop_invariant _make_request
                  (fun w => cls (self w) = PoloniexPrivateAPI)
                  (fun more => requests_sent more = [])) with
        (delays := map Some
           (retries (self (call_frame PoloniexPrivateAPI_REQEUST_URL
                             command0 kwargs0 w))) ++ [None])
        (w := call_frame PoloniexPrivateAPI_REQEUST_URL command0 kwargs0 w)
        (o := o) (w' := w')
        as (Hcls' & more & Htr & Hmore).
      * intros w1 o1 w1' Hc1 Hreq. unfold _make_request in Hreq.
        rewrite Hc1 in Hreq.
        destruct (unsigned_attempt_sends_nothing _ _ _ Hsign Hreq) as [Hs Hm].
        split; [rewrite Hs; exact Hc1|exact Hm].
      * intros w1 d Hc1. exact Hc1.
      * reflexivity.
      * intros d. reflexivity.
      * intros l1 l2 H1 H2. rewrite requests_sent_app, H1, H2. reflexivity.
      * exact Hcls.
      * exact Hcall.
      * rewrite (IH w' Hcls'), Htr, requests_sent_app, Hmore, app_nil_r.
        reflexivity.
    + exact (IH (set_coach (RateLimit.tick (coach w)) w) Hcls).
  - intros Hlock Hid Hval.
    set (w1 := call_frame PoloniexPrivateAPI_REQEUST_URL command kwargs w).
    destruct (signing_fails w1 p Hlock (or_intror Hsign) Hid Hval)
      as (w' & Hreq & Htr & Hn & Hl & Hv).
    exists w'. split; [|auto].
    rewrite call_unfold, Hcls. fold w1.
    apply retry_propagates; [|intros problem; discriminate].
    unfold _make_request. replace (cls (self w1)) with PoloniexPrivateAPI
      by (symmetry; exact Hcls).
    exact Hreq.
Qed.

End Unsigned.

Lemma private_requests_stop_at_signing_witness :
  let E := Examples.python3 [] (Responds (Examples.body Examples.balances)) in
  exists w',
    @__call__ E "returnBalances" ∅ Examples.private_client = (Raise TypeError, w') /\
    trace w' = [EAcquire] /\
    _nonce w' = 12300%Z /\
    nonce_lock w' = Some false /\
    value (semaphore (coach w')) = 5.
Proof.
  intros E.
  exact (proj2 (@private_requests_stop_at_signing E Examples.private_client
                  "returnBalances" ∅ 5 eq_refl eq_refl)
               eq_refl eq_refl eq_refl).
Defined.

(** C4 as stated fails.  The stored nonce of a [PoloniexPrivateAPI] client
    is 20000.  A call hands out 20001 (on Python 3 it ends at [hmac.new],
    with the nonce taken).  [_handleResponse], given the server's nonce
    error with the minimum 12345, assigns 12345 to the stored nonce, below
    where it stood and below where the client started; the next call hands
    out 12346, below a nonce handed out before. *)
Lemma resynchronisation_can_lower_the_nonce :
  let E := Examples.python3 [] Examples.down in
  let w := Examples.late_client in
  let r1 := @__call__ E "returnBalances" ∅ w in
  let r2 := _handleResponse (Examples.error_body Examples.nonce_error) (snd r1) in
  let r3 := @__call__ E "returnBalances" ∅ (snd r2) in
  _nonce w = 20000%Z /\
  _nonce (snd r1) = 20001%Z /\
  fst r2 = Raise (RequestException ("PoloniexError " +:+ Examples.nonce_error)) /\
  _nonce (snd r2) = 12345%Z /\
  (_nonce (snd r2) < _nonce w)%Z /\
  _nonce (snd r3) = 12346%Z /\
  (_nonce (snd r3) < _nonce (snd r1))%Z /\
  (forall w0 : world,
     _handleResponse (Examples.error_body Examples.nonce_error) w0 =
       (Raise (RequestException ("PoloniexError " +:+ Examples.nonce_error)),
        set_nonce 12345 w0)).
Proof.
  cbv zeta. repeat (split; [vm_compute; reflexivity|]).
  intros w0.
  apply (handle_nonce_error _ w0 [("error", JString Examples.nonce_error)]);
    vm_compute; reflexivity.
Qed.

(** C10 as stated fails in two ways.  A [Poloniex] client built without
    [nonce_lock]: a call for a private command raises [KeyError] before the
    gate is asked, so no permit is taken and the [with] block is not
    reached.  A [PoloniexPrivateAPI] client built without [nonce_lock], with
    the default gate: six calls take the six permits, each failing on
    entering the [with] block; the seventh finds no permit and waits at the
    gate, without a permit and without reaching the [with] block. *)
Lemma missing_nonce_lock_is_not_always_reached :
  let E := Examples.python3 [] Examples.down in
  let wc :=
    PoloniexPrivateAPI_init Poloniex 1478131200 (Some "key") (Some "secret")
      None defaultRetries None None None in
  let rc := @__call__ E "returnBalances" ∅ wc in
  let w6 := @History.run E (replicate 6 (History.Call "returnBalances" ∅))
              Examples.unlocked_client in
  let r7 := @__call__ E "returnBalances" ∅ w6 in
  nonce_lock wc = None /\
  fst rc = Raise KeyError /\
  trace (snd rc) = [] /\
  value (semaphore (coach (snd rc))) = 6 /\
  nonce_lock Examples.unlocked_client = None /\
  trace w6 = replicate 6 EAcquire /\
  fst r7 = Blocked /\
  trace (snd r7) = trace w6 /\
  value (semaphore (coach (snd r7))) = 0.
Proof. vm_compute. repeat split. Qed.
